(** * The leaderboard store of [backend/index.go]

    A shallow embedding of the ranking store: the rating buckets with their
    counters and back-references, the sorted username index, the published
    snapshot, and the two page queries built on them.

    Conventions of the embedding.
    - Go's [int] and [int64] are 64-bit two's-complement integers, written
      as [Z] with the wrap-around spelled out ([wrap64]); [int32] likewise
      ([wrap32]).  Loop counters that stay between [minRating] and
      [maxRating + 1] are plain [Z].
    - A Go slice is a [list]; indexing is [at_] and assignment [set_at],
      both in the [option] monad: [None] is the run-time panic of an index
      out of range.
    - A Go [string] is a sequence of bytes: [string] of [Stdlib.Strings],
      compared byte-wise ([String.ltb]) as Go compares strings.
    - The mutex and the atomics give a sequentially consistent execution
      when one operation runs at a time; that is the execution modelled
      here.  [lastUpdate] (a wall-clock instant) is left out: none of the
      operations below reads it. *)

From Stdlib Require Import ZArith Lia String Ascii Sorted Permutation.
From stdpp Require Import base tactics option list strings gmap.

Local Open Scope Z_scope.

(** ** Machine integers *)

Definition wrap64 (z : Z) : Z := (z + 2 ^ 63) mod 2 ^ 64 - 2 ^ 63.
Definition wrap32 (z : Z) : Z := (z + 2 ^ 31) mod 2 ^ 32 - 2 ^ 31.

Definition int_add (a b : Z) : Z := wrap64 (a + b).
Definition int_sub (a b : Z) : Z := wrap64 (a - b).
Definition int_mul (a b : Z) : Z := wrap64 (a * b).
(** Go's [/] on integers truncates towards zero. *)
Definition int_quot (a b : Z) : Z := wrap64 (Z.quot a b).

(** The values of a Go [int]. *)
Definition is_int (z : Z) : Prop := - 2 ^ 63 ≤ z < 2 ^ 63.

(** [len(x)] as a Go [int]. *)
Definition len {A} (l : list A) : Z := Z.of_nat (length l).

(** ** Slices *)

Definition at_ {A} (l : list A) (i : Z) : option A :=
  if decide (0 ≤ i) then l !! Z.to_nat i else None.

Definition set_at {A} (l : list A) (i : Z) (v : A) : option (list A) :=
  if decide (0 ≤ i < len l) then Some (<[Z.to_nat i := v]> l) else None.

(** [x[lo:hi]], as the code uses it: with [hi] no larger than [len x]. *)
Definition slice {A} (l : list A) (lo hi : Z) : option (list A) :=
  if decide (0 ≤ lo ∧ lo ≤ hi ∧ hi ≤ len l)
  then Some (take (Z.to_nat (hi - lo)) (drop (Z.to_nat lo) l))
  else None.

(** ** Constants and the small arithmetic helpers *)

Definition minRating : Z := 100.
Definition maxRating : Z := 5000.

Definition clampRating (value : Z) : Z :=
  if decide (value < minRating) then minRating
  else if decide (value > maxRating) then maxRating
  else value.

Definition calcTotalPages (total limit : Z) : Z :=
  if decide (total ≤ 0 ∨ limit ≤ 0) then 0
  else int_quot (int_sub (int_add total limit) 1) limit.

Definition clampPage (page totalPages : Z) : Z :=
  let page := if decide (page < 1) then 1 else page in
  let page := if decide (totalPages > 0 ∧ page > totalPages) then totalPages else page in
  page.

(** ** Strings

    A Go string is a sequence of bytes.  [strings.TrimSpace] reads it as
    UTF-8 and trims the white space of [unicode.IsSpace] at both ends,
    with a fast path for ASCII; the functions of [unicode/utf8],
    [unicode] and [strings] that it calls are embedded as the library has
    them.

    [strings.ToLower] is embedded on ASCII strings, the alphabet of the
    seeded usernames: there the library maps the letters [A]-[Z] to
    [a]-[z] byte by byte.  For a string with a byte from 128 upwards the
    library maps runes with the case tables of [unicode], which are not
    embedded; a theorem that depends on the value of [ToLower] says that
    the argument is ASCII ([isASCII]). *)

Definition byteOf (c : ascii) : Z := Z.of_N (N_of_ascii c).

(** [len(s)], [s[i]] for [0 <= i < len(s)], [s[lo:hi]] and [s[lo:]] for
    [0 <= lo <= hi <= len(s)]. *)
Definition strlen (s : string) : Z := Z.of_nat (String.length s).

Definition byteAt (s : string) (i : Z) : Z :=
  match String.get (Z.to_nat i) s with
  | Some c => byteOf c
  | None => 0
  end.

Definition substr (s : string) (lo hi : Z) : string :=
  String.substring (Z.to_nat lo) (Z.to_nat (hi - lo)) s.

Definition strFrom (s : string) (lo : Z) : string := substr s lo (strlen s).

(** *** [unicode/utf8] *)

Definition RuneError : Z := 0xFFFD.
Definition RuneSelf : Z := 0x80.
Definition UTFMax : Z := 4.

Definition maskx : Z := 0x3F.
Definition mask2 : Z := 0x1F.
Definition mask3 : Z := 0x0F.
Definition mask4 : Z := 0x07.

Definition locb : Z := 0x80.
Definition hicb : Z := 0xBF.

(** The entries of the table [first]: the size of the sequence in the low
    bits and the index into [acceptRanges] in the high ones; [as_] stands
    for an ASCII byte and [xx] for a byte that starts no sequence. *)
Definition xx : Z := 0xF1.
Definition as_ : Z := 0xF0.
Definition s1 : Z := 0x02.
Definition s2 : Z := 0x13.
Definition s3 : Z := 0x03.
Definition s4 : Z := 0x23.
Definition s5 : Z := 0x34.
Definition s6 : Z := 0x04.
Definition s7 : Z := 0x44.

Definition first (b : Z) : Z :=
  if decide (b < 0x80) then as_
  else if decide (b < 0xC2) then xx
  else if decide (b < 0xE0) then s1
  else if decide (b = 0xE0) then s2
  else if decide (b < 0xED) then s3
  else if decide (b = 0xED) then s4
  else if decide (b < 0xF0) then s3
  else if decide (b = 0xF0) then s5
  else if decide (b < 0xF4) then s6
  else if decide (b = 0xF4) then s7
  else xx.

Definition acceptRanges (i : Z) : Z * Z :=
  if decide (i = 0) then (locb, hicb)
  else if decide (i = 1) then (0xA0, hicb)
  else if decide (i = 2) then (locb, 0x9F)
  else if decide (i = 3) then (0x90, hicb)
  else if decide (i = 4) then (locb, 0x8F)
  else (0, 0).

(** The first rune of [s] and its width in bytes; [(RuneError, 1)] for a
    byte that starts no well-formed sequence. *)
Definition DecodeRuneInString (s : string) : Z * Z :=
  let n := strlen s in
  if decide (n < 1) then (RuneError, 0)
  else
    let b0 := byteAt s 0 in
    let x := first b0 in
    if decide (as_ ≤ x) then ((if decide (x = as_) then b0 else RuneError), 1)
    else
      let sz := Z.land x 7 in
      let accept := acceptRanges (Z.shiftr x 4) in
      if decide (n < sz) then (RuneError, 1)
      else
        let b1 := byteAt s 1 in
        if decide (b1 < accept.1 ∨ accept.2 < b1) then (RuneError, 1)
        else if decide (sz ≤ 2)
        then (Z.lor (Z.shiftl (Z.land b0 mask2) 6) (Z.land b1 maskx), 2)
        else
          let b2 := byteAt s 2 in
          if decide (b2 < locb ∨ hicb < b2) then (RuneError, 1)
          else if decide (sz ≤ 3)
          then (Z.lor (Z.lor (Z.shiftl (Z.land b0 mask3) 12)
                             (Z.shiftl (Z.land b1 maskx) 6))
                      (Z.land b2 maskx), 3)
          else
            let b3 := byteAt s 3 in
            if decide (b3 < locb ∨ hicb < b3) then (RuneError, 1)
            else (Z.lor (Z.lor (Z.lor (Z.shiftl (Z.land b0 mask4) 18)
                                      (Z.shiftl (Z.land b1 maskx) 12))
                               (Z.shiftl (Z.land b2 maskx) 6))
                        (Z.land b3 maskx), 4).

(** A byte that is no continuation byte. *)
Definition RuneStart (b : Z) : bool := bool_decide (Z.land b 0xC0 ≠ 0x80).

(** The loop of [DecodeLastRuneInString] that steps back to the start of
    the last sequence, no further than [lim]. *)
Fixpoint lastRuneStart (rounds : nat) (s : string) (start lim : Z) : Z :=
  match rounds with
  | O => start
  | S rounds' =>
      if decide (start < lim) then start
      else if RuneStart (byteAt s start) then start
      else lastRuneStart rounds' s (start - 1) lim
  end.

(** The last rune of [s] and its width. *)
Definition DecodeLastRuneInString (s : string) : Z * Z :=
  let end_ := strlen s in
  if decide (end_ = 0) then (RuneError, 0)
  else
    let start := end_ - 1 in
    let r := byteAt s start in
    if decide (r < RuneSelf) then (r, 1)
    else
      let lim := end_ - UTFMax in
      let lim := if decide (lim < 0) then 0 else lim in
      let start := lastRuneStart (Z.to_nat UTFMax) s (start - 1) lim in
      let start := if decide (start < 0) then 0 else start in
      let '(r, size) := DecodeRuneInString (substr s start end_) in
      if decide (start + size ≠ end_) then (RuneError, 1) else (r, size).

(** *** [unicode] *)

Definition MaxLatin1 : Z := 0xFF.

Record Range16 := { Lo : Z; Hi : Z; Stride : Z }.

(** The table [White_Space]; its first [LatinOffset] ranges lie within
    Latin-1. *)
Definition White_Space : list Range16 :=
  [ {| Lo := 0x0009; Hi := 0x000D; Stride := 1 |};
    {| Lo := 0x0020; Hi := 0x0085; Stride := 101 |};
    {| Lo := 0x00A0; Hi := 0x1680; Stride := 5600 |};
    {| Lo := 0x2000; Hi := 0x200A; Stride := 1 |};
    {| Lo := 0x2028; Hi := 0x2029; Stride := 1 |};
    {| Lo := 0x202F; Hi := 0x205F; Stride := 48 |};
    {| Lo := 0x3000; Hi := 0x3000; Stride := 1 |} ].

Definition LatinOffset : nat := 2.

Fixpoint is16 (ranges : list Range16) (r : Z) : bool :=
  match ranges with
  | [] => false
  | range_ :: rest =>
      if decide (r < Lo range_) then false
      else if decide (r ≤ Hi range_)
      then bool_decide (Stride range_ = 1 ∨ (r - Lo range_) `mod` Stride range_ = 0)
      else is16 rest r
  end.

Definition isExcludingLatin (rangeTab : list Range16) (off : nat) (r : Z) : bool :=
  let r16 := drop off rangeTab in
  match last rangeTab with
  | Some top => if decide (0 ≤ r ≤ Hi top) then is16 r16 r else false
  | None => false
  end.

Definition IsSpace (r : Z) : bool :=
  if decide (0 ≤ r ≤ MaxLatin1)
  then bool_decide (r ∈ [0x09; 0x0A; 0x0B; 0x0C; 0x0D; 0x20; 0x85; 0xA0])
  else isExcludingLatin White_Space LatinOffset r.

(** *** [strings] *)

(** The table [asciiSpace]: tab, line feed, vertical tab, form feed,
    carriage return and space. *)
Definition asciiSpace (c : Z) : Z :=
  if bool_decide (c ∈ [0x09; 0x0A; 0x0B; 0x0C; 0x0D; 0x20]) then 1 else 0.

(** [for i, r := range s] of [indexFunc]: [s] is what is left of the
    string from byte [i] on, and [skip] the number of its bytes that
    belong to the rune read last. *)
Fixpoint indexFunc_range (s : string) (skip : nat) (i : Z)
    (f : Z → bool) (truth : bool) : Z :=
  match s with
  | EmptyString => -1
  | String _ s' =>
      match skip with
      | S skip' => indexFunc_range s' skip' (i + 1) f truth
      | O =>
          let '(r, size) := DecodeRuneInString s in
          if bool_decide (f r = truth) then i
          else indexFunc_range s' (Z.to_nat (size - 1)) (i + 1) f truth
      end
  end.

Definition indexFunc (s : string) (f : Z → bool) (truth : bool) : Z :=
  indexFunc_range s 0 0 f truth.

(** [for i := len(s); i > 0; ...] of [lastIndexFunc]: [i] steps down by
    the width of the rune that ends there. *)
Fixpoint lastIndexFunc_loop (s : string) (i : nat) (skip : nat)
    (f : Z → bool) (truth : bool) : Z :=
  match i with
  | O => -1
  | S i' =>
      match skip with
      | S skip' => lastIndexFunc_loop s i' skip' f truth
      | O =>
          let '(r, size) := DecodeLastRuneInString (substr s 0 (Z.of_nat i)) in
          if bool_decide (f r = truth) then Z.of_nat i - size
          else lastIndexFunc_loop s i' (Z.to_nat (size - 1)) f truth
      end
  end.

Definition lastIndexFunc (s : string) (f : Z → bool) (truth : bool) : Z :=
  lastIndexFunc_loop s (String.length s) 0 f truth.

Definition TrimLeftFunc (s : string) (f : Z → bool) : string :=
  let i := indexFunc s f false in
  if decide (i = -1) then EmptyString else strFrom s i.

Definition TrimRightFunc (s : string) (f : Z → bool) : string :=
  let i := lastIndexFunc s f false in
  let i :=
    if decide (0 ≤ i ∧ RuneSelf ≤ byteAt s i)
    then i + (DecodeRuneInString (strFrom s i)).2
    else i + 1 in
  substr s 0 i.

Definition TrimFunc (s : string) (f : Z → bool) : string :=
  TrimRightFunc (TrimLeftFunc s f) f.

(** The second loop of [TrimSpace], on [s[start:]]: [stop] steps down over
    the ASCII white space at the end. *)
Fixpoint TrimSpace_stop (s : string) (stop : nat) : string :=
  match stop with
  | O => EmptyString
  | S stop' =>
      let c := byteAt s (Z.of_nat stop') in
      if decide (RuneSelf ≤ c) then TrimRightFunc (substr s 0 (Z.of_nat stop)) IsSpace
      else if decide (asciiSpace c = 0) then substr s 0 (Z.of_nat stop)
      else TrimSpace_stop s stop'
  end.

(** [strings.TrimSpace]; the first loop steps [start] over the ASCII white
    space at the front, and [s] here is [s[start:]]. *)
Fixpoint TrimSpace (s : string) : string :=
  match s with
  | EmptyString => EmptyString
  | String c s' =>
      if decide (RuneSelf ≤ byteOf c) then TrimFunc s IsSpace
      else if decide (asciiSpace (byteOf c) = 0) then TrimSpace_stop s (String.length s)
      else TrimSpace s'
  end.

(** [strings.ToLower] on an ASCII string. *)
Definition lowerByte (c : ascii) : ascii :=
  let n := N_of_ascii c in
  if ((65 <=? n) && (n <=? 90))%N then ascii_of_N (n + 32) else c.

Fixpoint ToLower (s : string) : string :=
  match s with
  | EmptyString => EmptyString
  | String c s' => String (lowerByte c) (ToLower s')
  end.

(** No byte of [s] is [utf8.RuneSelf] or above (the test [ToLower] makes
    before it takes the byte-wise path). *)
Fixpoint isASCII (s : string) : bool :=
  match s with
  | EmptyString => true
  | String c s' => bool_decide (byteOf c < RuneSelf) && isASCII s'
  end.

(** The byte [0xff] that [SearchPage] appends to the prefix. *)
Definition byteFF : ascii := "255"%char.

(** [s >= t] on Go strings. *)
Definition str_geb (s t : string) : bool := negb (String.ltb s t).

(** ** [sort.Slice] and [sort.Search]

    [sort.Slice] runs an insertion sort on slices of at most twelve
    elements: element [i] is swapped towards the front while it is less
    than its left neighbour.  [sink x before] is that inner loop on the
    already sorted part, kept in reverse.  On longer slices the library
    switches to pattern-defeating quicksort, which returns the same slice
    whenever [less] orders the elements totally; the theorems below use of
    [sortSlice] only that its result is a permutation of its argument and
    is sorted by [less]. *)

Section Sort.
Context {A : Type} (less : A → A → bool).

Fixpoint sink (x : A) (before : list A) : list A :=
  match before with
  | [] => [x]
  | y :: before' => if less x y then y :: sink x before' else x :: before
  end.

Definition sortSlice (data : list A) : list A :=
  rev (foldl (λ before x, sink x before) [] data).

End Sort.

(** [sort.Search(n, f)]: the loop halves [i, j) until it is empty; [fuel]
    bounds the number of rounds and [n] rounds are always enough
    ([Search_least]). *)
Fixpoint Search_loop (f : Z → bool) (fuel : nat) (i j : Z) : Z :=
  match fuel with
  | O => i
  | S fuel' =>
      if decide (i < j) then
        let h := Z.shiftr (i + j) 1 in
        if negb (f h) then Search_loop f fuel' (h + 1) j
        else Search_loop f fuel' i h
      else i
  end.

Definition Search (n : Z) (f : Z → bool) : Z := Search_loop f (Z.to_nat n) 0 n.

(** ** The data model *)

Record User := { User_ID : Z; User_Username : string }.

Record SeedUser := { Seed_Username : string; Seed_Rating : Z }.

Record UsernameIndex := { UsernameLower : string; ID : Z }.

Record LeaderboardEntry := { Rank : Z; Username : string; Rating : Z }.

(** The responses of the two handlers; [updated_at] is left out with
    [lastUpdate]. *)
Record LeaderboardResponse := {
  LR_TotalUsers : Z;
  LR_Page : Z;
  LR_PageSize : Z;
  LR_TotalPages : Z;
  LR_Entries : list LeaderboardEntry
}.

Record SearchResponse := {
  SR_Query : string;
  SR_Count : Z;
  SR_Total : Z;
  SR_Page : Z;
  SR_PageSize : Z;
  SR_TotalPages : Z;
  SR_Results : list LeaderboardEntry
}.

Record Store := {
  users : list User;
  ratings : list Z;
  usernameLower : list string;
  usernameIndex : list UsernameIndex;
  ratingCounts : list Z;
  totalUsers : Z;
  ratingBuckets : list (list Z);
  bucketIndex : list Z;
  snapshot : list Z
}.

(** The ratings the loops of [rank] and [buildSnapshot] run over. *)
Definition ratingRange : Z := maxRating - minRating + 1.

(** ** Seeding: [NewStore] *)

(** The comparison handed to [sort.Slice] for the username index. *)
Definition indexLess (a b : UsernameIndex) : bool :=
  if String.eqb (UsernameLower a) (UsernameLower b) then ID a <? ID b
  else String.ltb (UsernameLower a) (UsernameLower b).

(** The store as the [make] calls leave it, for [n] seeds. *)
Definition emptyStore (n : nat) : Store :=
  {| users := replicate n {| User_ID := 0; User_Username := EmptyString |};
     ratings := replicate n 0;
     usernameLower := replicate n EmptyString;
     usernameIndex := replicate n {| UsernameLower := EmptyString; ID := 0 |};
     ratingCounts := replicate (Z.to_nat ratingRange) 0;
     totalUsers := Z.of_nat n;
     ratingBuckets := replicate (Z.to_nat ratingRange) [];
     bucketIndex := replicate n 0;
     snapshot := [] |}.

(** One round of the seeding loop, for the seed at position [id]. *)
Definition seedUser (store : Store) (id : Z) (seed : SeedUser) : option Store :=
  let rating := clampRating (Seed_Rating seed) in
  users' ← set_at (users store) id {| User_ID := id; User_Username := Seed_Username seed |};
  ratings' ← set_at (ratings store) id (wrap32 rating);
  lower' ← set_at (usernameLower store) id (ToLower (Seed_Username seed));
  name ← at_ lower' id;
  index' ← set_at (usernameIndex store) id {| UsernameLower := name; ID := id |};
  let ratingIdx := int_sub rating minRating in
  bucket ← at_ (ratingBuckets store) ratingIdx;
  backref' ← set_at (bucketIndex store) id (len bucket);
  buckets' ← set_at (ratingBuckets store) ratingIdx (bucket ++ [id]);
  count ← at_ (ratingCounts store) ratingIdx;
  counts' ← set_at (ratingCounts store) ratingIdx (int_add count 1);
  Some {| users := users';
          ratings := ratings';
          usernameLower := lower';
          usernameIndex := index';
          ratingCounts := counts';
          totalUsers := totalUsers store;
          ratingBuckets := buckets';
          bucketIndex := backref';
          snapshot := snapshot store |}.

Fixpoint seedLoop (store : Store) (id : Z) (seeds : list SeedUser) : option Store :=
  match seeds with
  | [] => Some store
  | seed :: rest => store' ← seedUser store id seed; seedLoop store' (id + 1) rest
  end.

Definition NewStore (seeds : list SeedUser) : option Store :=
  store ← seedLoop (emptyStore (length seeds)) 0 seeds;
  Some {| users := users store;
          ratings := ratings store;
          usernameLower := usernameLower store;
          usernameIndex := sortSlice indexLess (usernameIndex store);
          ratingCounts := ratingCounts store;
          totalUsers := totalUsers store;
          ratingBuckets := ratingBuckets store;
          bucketIndex := bucketIndex store;
          snapshot := [] |}.

Definition UserCount (s : Store) : Z := totalUsers s.

(** ** The rank computer *)

Fixpoint rank_loop (counts : list Z) (currents : list Z) (above : Z) : option Z :=
  match currents with
  | [] => Some above
  | current :: rest =>
      count ← at_ counts (current - minRating);
      rank_loop counts rest (int_add above count)
  end.

Definition rank (s : Store) (rating : Z) : option Z :=
  let rating := clampRating rating in
  above ← rank_loop (ratingCounts s) (seqZ (rating + 1) (maxRating - rating)) 0;
  Some (int_add above 1).

(** ** The snapshot publisher *)

Definition nameOf (s : Store) (id : Z) : string :=
  default EmptyString (at_ (usernameLower s) id).

(** The comparison handed to [sort.Slice] in [buildSnapshot]. *)
Definition snapshotLess (s : Store) (a b : Z) : bool :=
  String.ltb (nameOf s a) (nameOf s b).

(** The ids of one non-empty bucket as they are appended to the snapshot:
    a bucket of two or more is copied and sorted, and sorting reads the
    lower-case name of every id in it. *)
Definition bucketIDs (s : Store) (bucket : list Z) : option (list Z) :=
  if decide (len bucket > 1) then
    if decide (Forall (λ id, is_Some (at_ (usernameLower s) id)) bucket)
    then Some (sortSlice (snapshotLess s) bucket)
    else None
  else Some bucket.

Fixpoint buildSnapshot_loop (s : Store) (rs : list Z) (snap : list Z) : option (list Z) :=
  match rs with
  | [] => Some snap
  | rating :: rest =>
      bucket ← at_ (ratingBuckets s) (rating - minRating);
      if decide (len bucket = 0) then buildSnapshot_loop s rest snap
      else ids ← bucketIDs s bucket; buildSnapshot_loop s rest (snap ++ ids)
  end.

Definition buildSnapshot (s : Store) : option (list Z) :=
  buildSnapshot_loop s (rev (seqZ minRating ratingRange)) [].

Definition RefreshSnapshot (s : Store) : option Store :=
  snap ← buildSnapshot s;
  Some {| users := users s;
          ratings := ratings s;
          usernameLower := usernameLower s;
          usernameIndex := usernameIndex s;
          ratingCounts := ratingCounts s;
          totalUsers := totalUsers s;
          ratingBuckets := ratingBuckets s;
          bucketIndex := bucketIndex s;
          snapshot := snap |}.

Definition SnapshotIDs (s : Store) : list Z := snapshot s.

(** ** The query facade *)

(** The body of the loops of [LeaderboardPage] and [SearchPage]: the live
    rating of [id], its live rank and its display name. *)
Definition entryOf (s : Store) (id : Z) : option LeaderboardEntry :=
  rating ← at_ (ratings s) id;
  rk ← rank s rating;
  user ← at_ (users s) id;
  Some {| Rank := rk; Username := User_Username user; Rating := rating |}.

(** The [nil] that both page queries return when there is nothing to list:
    a slice of length 0. *)
Definition nilEntries : list LeaderboardEntry := [].

Definition LeaderboardPage (s : Store) (page limit : Z) : option (list LeaderboardEntry) :=
  let limit := if decide (limit ≤ 0) then 20 else limit in
  let page := if decide (page ≤ 0) then 1 else page in
  let snap := SnapshotIDs s in
  if decide (len snap = 0) then Some nilEntries
  else
    let offset := int_mul (int_sub page 1) limit in
    if decide (len snap ≤ offset) then Some nilEntries
    else
      let end_ := int_add offset limit in
      let end_ := if decide (end_ > len snap) then len snap else end_ in
      ids ← slice snap offset end_;
      mapM (entryOf s) ids.

(** The two binary searches of [SearchPage]: [start] and [end].
    [sort.Search] calls its predicate on positions of the index only, so
    the name read at any other position is immaterial. *)
Definition prefixRange (s : Store) (prefix : string) : Z * Z :=
  let index := usernameIndex s in
  let nameAt (i : Z) := default EmptyString (UsernameLower <$> at_ index i) in
  let start := Search (len index) (λ i, str_geb (nameAt i) prefix) in
  let prefixHigh := (prefix ++ String byteFF EmptyString)%string in
  let end_ := Search (len index) (λ i, str_geb (nameAt i) prefixHigh) in
  (start, end_).

(** [make([]LeaderboardEntry, 0, cap)]: the runtime panics when the
    capacity is negative or asks for more than [maxAlloc] bytes, which is
    [2^48] on the 64-bit platforms; an entry (an [int], a string header
    and an [int]) takes 32 bytes. *)
Definition maxAlloc : Z := 2 ^ 48.
Definition entrySize : Z := 32.

Definition makeEntries (cap : Z) : option unit :=
  if decide (cap < 0 ∨ maxAlloc < entrySize * cap) then None else Some ().

(** The largest capacity [makeEntries] accepts. *)
Definition maxCap : Z := 2 ^ 43.

(** One round of the result loop of [SearchPage], for position [i] of the
    index. *)
Definition indexEntry (s : Store) (i : Z) : option LeaderboardEntry :=
  entry ← at_ (usernameIndex s) i;
  entryOf s (ID entry).

(** [SearchPage] from the normalised prefix on: [page] and [limit] are
    the values after the defaults. *)
Definition searchPrefix (s : Store) (prefix : string) (page limit : Z)
  : option (list LeaderboardEntry * Z * Z * Z) :=
  if decide (prefix = EmptyString) then Some (nilEntries, 0, page, 0)
  else
    let '(start, end_) := prefixRange s prefix in
    let total := int_sub end_ start in
    let totalPages := calcTotalPages total limit in
    let page := clampPage page totalPages in
    if decide (total = 0) then Some (nilEntries, 0, page, totalPages)
    else
      let offset := int_mul (int_sub page 1) limit in
      let startIdx := int_add start offset in
      if decide (end_ ≤ startIdx) then Some (nilEntries, total, page, totalPages)
      else
        let endIdx := int_add startIdx limit in
        let endIdx := if decide (endIdx > end_) then end_ else endIdx in
        _ ← makeEntries (int_sub endIdx startIdx);
        results ← mapM (indexEntry s) (seqZ startIdx (endIdx - startIdx));
        Some (results, total, page, totalPages).

Definition SearchPage (s : Store) (prefix : string) (page limit : Z)
  : option (list LeaderboardEntry * Z * Z * Z) :=
  let limit := if decide (limit ≤ 0) then 20 else limit in
  let page := if decide (page ≤ 0) then 1 else page in
  let prefix := ToLower (TrimSpace prefix) in
  searchPrefix s prefix page limit.

(** The handlers of [/leaderboard] and [/search], from the parsed query
    parameters on ([getQueryInt] has already put 1 and 20 in place of a
    missing or malformed [page] and [limit]). *)
Definition leaderboardHandler (s : Store) (page limit : Z) : option LeaderboardResponse :=
  let limit := if decide (limit ≤ 0) then 20 else limit in
  let limit := if decide (limit > 200) then 200 else limit in
  let total := UserCount s in
  let totalPages := calcTotalPages total limit in
  let page := clampPage page totalPages in
  entries ← LeaderboardPage s page limit;
  Some {| LR_TotalUsers := total;
          LR_Page := page;
          LR_PageSize := limit;
          LR_TotalPages := totalPages;
          LR_Entries := entries |}.

Definition searchHandler (s : Store) (query : string) (page limit : Z) : option SearchResponse :=
  let limit := if decide (limit ≤ 0) then 20 else limit in
  let limit := if decide (limit > 200) then 200 else limit in
  '(results, total, pageOut, totalPages) ← SearchPage s query page limit;
  Some {| SR_Query := query;
          SR_Count := len results;
          SR_Total := total;
          SR_Page := pageOut;
          SR_PageSize := limit;
          SR_TotalPages := totalPages;
          SR_Results := results |}.

(** ** The mutator: [updateUserRating] *)

Definition updateUserRating (s : Store) (id newRating : Z) : option Store :=
  oldRating ← at_ (ratings s) id;
  if decide (oldRating = newRating) then Some s
  else
    let oldBucketIdx := int_sub oldRating minRating in
    let newBucketIdx := int_sub newRating minRating in
    oldBucket ← at_ (ratingBuckets s) oldBucketIdx;
    oldPos ← at_ (bucketIndex s) id;
    lastID ← at_ oldBucket (int_sub (len oldBucket) 1);
    oldBucket' ← set_at oldBucket oldPos lastID;
    backref' ← set_at (bucketIndex s) lastID oldPos;
    oldBucket'' ← slice oldBucket' 0 (int_sub (len oldBucket') 1);
    buckets' ← set_at (ratingBuckets s) oldBucketIdx oldBucket'';
    newBucket ← at_ buckets' newBucketIdx;
    backref'' ← set_at backref' id (len newBucket);
    buckets'' ← set_at buckets' newBucketIdx (newBucket ++ [id]);
    oldCount ← at_ (ratingCounts s) oldBucketIdx;
    counts' ← set_at (ratingCounts s) oldBucketIdx (int_add oldCount (-1));
    newCount ← at_ counts' newBucketIdx;
    counts'' ← set_at counts' newBucketIdx (int_add newCount 1);
    ratings' ← set_at (ratings s) id (wrap32 newRating);
    Some {| users := users s;
            ratings := ratings';
            usernameLower := usernameLower s;
            usernameIndex := usernameIndex s;
            ratingCounts := counts'';
            totalUsers := totalUsers s;
            ratingBuckets := buckets'';
            bucketIndex := backref'';
            snapshot := snapshot s |}.

(** One round of the batch loop of [StartRandomUpdates], for the pair
    [(id, delta)], and the loop over a batch. *)
Definition applyDelta (s : Store) (id delta : Z) : option Store :=
  oldRating ← at_ (ratings s) id;
  let newRating := clampRating (int_add oldRating delta) in
  if decide (newRating ≠ oldRating) then updateUserRating s id newRating
  else Some s.

Fixpoint applyBatch (s : Store) (batch : list (Z * Z)) : option Store :=
  match batch with
  | [] => Some s
  | (id, delta) :: rest => s' ← applyDelta s id delta; applyBatch s' rest
  end.

(** * Vocabulary of the properties *)

(** The string of the given bytes. *)
Definition bytes (l : list Z) : string :=
  string_of_list_ascii ((λ b, ascii_of_N (Z.to_N b)) <$> l).

(** The UTF-8 encodings of the white-space characters of Unicode: U+0009
    to U+000D, U+0020, U+0085, U+00A0, U+1680, U+2000 to U+200A, U+2028,
    U+2029, U+202F, U+205F and U+3000. *)
Definition whiteSpace : list string :=
  [ bytes [0x09]; bytes [0x0A]; bytes [0x0B]; bytes [0x0C]; bytes [0x0D]; bytes [0x20];
    bytes [0xC2; 0x85]; bytes [0xC2; 0xA0]; bytes [0xE1; 0x9A; 0x80] ]
  ++ ((λ b, bytes [0xE2; 0x80; b]) <$> seqZ 0x80 11)
  ++ [ bytes [0xE2; 0x80; 0xA8]; bytes [0xE2; 0x80; 0xA9]; bytes [0xE2; 0x80; 0xAF];
       bytes [0xE2; 0x81; 0x9F]; bytes [0xE3; 0x80; 0x80] ].

(** A query made of white space only (the empty query included). *)
Inductive blank : string → Prop :=
  | blank_empty : blank EmptyString
  | blank_space w s : w ∈ whiteSpace → blank s → blank (w ++ s)%string.

Definition sumZ (l : list Z) : Z := foldr Z.add 0 l.

(** The largest population considered: a Go slice of that many users does
    not fit the address space, so no real store is excluded. *)
Definition maxUsers : Z := 2 ^ 59.

(** The invariants of the bucket table for the ids below [k] (all ids once
    seeding is over): every such id has a rating in range and sits in the
    bucket of that rating at the position its back-reference records; every
    bucket entry is such an id; every counter is the length of its bucket;
    the counters add up to [k]. *)
Record BucketsOK (k : Z) (s : Store) : Prop := {
  bk_ratings_len : len (ratings s) = totalUsers s;
  bk_backref_len : len (bucketIndex s) = totalUsers s;
  bk_buckets_len : len (ratingBuckets s) = ratingRange;
  bk_counts_len : len (ratingCounts s) = ratingRange;
  bk_bound : 0 ≤ k ≤ totalUsers s ∧ totalUsers s < maxUsers;
  bk_member : ∀ id, 0 ≤ id < k →
    ∃ r bucket pos,
      at_ (ratings s) id = Some r ∧ minRating ≤ r ≤ maxRating ∧
      at_ (ratingBuckets s) (r - minRating) = Some bucket ∧
      at_ (bucketIndex s) id = Some pos ∧
      at_ bucket pos = Some id;
  bk_unique : ∀ b bucket pos id,
    at_ (ratingBuckets s) b = Some bucket → at_ bucket pos = Some id →
    0 ≤ id < k ∧ at_ (ratings s) id = Some (b + minRating) ∧
    at_ (bucketIndex s) id = Some pos;
  bk_counts : ∀ b bucket,
    at_ (ratingBuckets s) b = Some bucket → at_ (ratingCounts s) b = Some (len bucket);
  bk_sum : sumZ (ratingCounts s) = k
}.

(** The state of the seeding loop before the round of id [k]. *)
Record SeedInv (k : Z) (s : Store) : Prop := {
  sd_buckets : BucketsOK k s;
  sd_users_len : len (users s) = totalUsers s;
  sd_lower_len : len (usernameLower s) = totalUsers s;
  sd_index_len : len (usernameIndex s) = totalUsers s;
  sd_index : ∀ i, 0 ≤ i < k →
    ∃ name, at_ (usernameLower s) i = Some name ∧
            at_ (usernameIndex s) i = Some {| UsernameLower := name; ID := i |}
}.

(** The byte-wise order of Go strings, [s < t]. *)
Definition str_lt (s t : string) : Prop := String.compare s t = Lt.

(** The username index lists every id once, beside its lower-case name. *)
Definition indexOf (names : list string) : list UsernameIndex :=
  imap (λ i name, {| UsernameLower := name; ID := Z.of_nat i |}) names.

(** [a] does not come after [b] in the [(usernameLower, id)] order. *)
Definition indexLe (a b : UsernameIndex) : Prop := indexLess b a = false.

Record IndexOK (s : Store) : Prop := {
  ix_users_len : len (users s) = totalUsers s;
  ix_lower_len : len (usernameLower s) = totalUsers s;
  ix_perm : Permutation (usernameIndex s) (indexOf (usernameLower s));
  ix_sorted : StronglySorted indexLe (usernameIndex s)
}.

(** The invariant of a store between two operations. *)
Definition StoreOK (s : Store) : Prop :=
  BucketsOK (totalUsers s) s ∧ IndexOK s.

(** The counter of rating [k], and the sum of the counters of all ratings
    above [r]. *)
Definition counterOf (s : Store) (k : Z) : Z :=
  default 0 (at_ (ratingCounts s) (k - minRating)).

Definition countAbove (s : Store) (r : Z) : Z :=
  sumZ (counterOf s <$> seqZ (r + 1) (maxRating - r)).

(** Counters as [rank] needs them: one for each rating, none negative, and
    a total that is a population size. *)
Record CountersOK (s : Store) : Prop := {
  ct_len : len (ratingCounts s) = ratingRange;
  ct_nonneg : Forall (λ c, 0 ≤ c) (ratingCounts s);
  ct_sum : sumZ (ratingCounts s) < maxUsers
}.

(** The rating of an id, and the two orders on ids that the snapshot is
    measured against: by descending rating and then ascending lower-case
    name ([byRatingName]), and the same with ascending id as the last
    tie-break ([byRatingNameID]). *)
Definition ratingOf (s : Store) (id : Z) : Z := default 0 (at_ (ratings s) id).

Definition byRatingName (s : Store) (a b : Z) : Prop :=
  ratingOf s b < ratingOf s a ∨
  (ratingOf s a = ratingOf s b ∧ ¬ str_lt (nameOf s b) (nameOf s a)).

Definition byRatingNameID (s : Store) (a b : Z) : Prop :=
  ratingOf s b < ratingOf s a ∨
  (ratingOf s a = ratingOf s b ∧
   (str_lt (nameOf s a) (nameOf s b) ∨ (nameOf s a = nameOf s b ∧ a ≤ b))).

(** A bucket as [buildSnapshot] reads it, and the order it appends it in. *)
Definition bucketAt (s : Store) (rating : Z) : list Z :=
  default [] (at_ (ratingBuckets s) (rating - minRating)).

Definition bucketOrder (s : Store) (bucket : list Z) : list Z :=
  if decide (len bucket > 1) then sortSlice (snapshotLess s) bucket else bucket.

(** A name without the byte [0xff].  Every name [strings.ToLower] returns
    is such a name: it is ASCII or valid UTF-8, and [0xff] occurs in
    neither. *)
Fixpoint noFF (s : string) : Prop :=
  match s with
  | EmptyString => True
  | String c s' => c ≠ byteFF ∧ noFF s'
  end.

(** [a] comes before [b] in the [(usernameLower, id)] order. *)
Definition indexLt (a b : UsernameIndex) : Prop := indexLess a b = true.

(** The entries, and the names, that start with [prefix]. *)
Definition matching (prefix : string) (index : list UsernameIndex) : list UsernameIndex :=
  filter (λ e, String.prefix prefix (UsernameLower e) = true) index.

Definition matchingNames (prefix : string) (names : list string) : list string :=
  filter (λ name, String.prefix prefix name = true) names.

(** The states the program reaches: seeding, then rating updates and
    snapshot refreshes in any order. *)
Inductive reachable : Store → Prop :=
  | reach_seed seeds s :
      len seeds < maxUsers → NewStore seeds = Some s → reachable s
  | reach_update s id newRating s' :
      reachable s → is_int newRating →
      updateUserRating s id newRating = Some s' → reachable s'
  | reach_refresh s s' :
      reachable s → RefreshSnapshot s = Some s' → reachable s'.

(** The fixture of the end-to-end scenarios. *)
Definition fixture : list SeedUser :=
  [ {| Seed_Username := "alice"; Seed_Rating := 1500 |};
    {| Seed_Username := "bob"; Seed_Rating := 1500 |};
    {| Seed_Username := "carol"; Seed_Rating := 1700 |};
    {| Seed_Username := "dave"; Seed_Rating := 900 |};
    {| Seed_Username := "eve"; Seed_Rating := 5200 |} ].

(** Two users whose names differ in case only, and a batch that moves both
    from 1500 to 1600, the second seed first. *)
Definition tiedSeeds : list SeedUser :=
  [ {| Seed_Username := "Bob"; Seed_Rating := 1500 |};
    {| Seed_Username := "bob"; Seed_Rating := 1500 |} ].

Definition tiedBatch : list (Z * Z) := [(1, 50); (1, 50); (0, 50); (0, 50)].

Definition tiedStore : option Store :=
  s ← NewStore tiedSeeds; applyBatch s tiedBatch.

(** * The goroutines and the seed generator

    The rest of [backend/index.go] that computes: the two ticker loops, the
    generator of the seeds and the start-up sequence of [buildApp]. *)

(** ** The random source

    [rand.Rand.Intn(n)] returns a value of [[0, n)] and panics when
    [n <= 0].  A source is the sequence of its raw draws and [pos] the
    number of draws made so far; the value returned is draw [pos] reduced
    modulo [n], so that every sequence of results the library can return
    is the run of some source. *)
Definition Intn (src : Z → Z) (pos : Z) (n : Z) : option (Z * Z) :=
  if decide (n ≤ 0) then None else Some (src pos `mod` n, pos + 1).

(** ** The tickers

    [time.NewTicker(time.Duration(tickMs) * time.Millisecond)]: the product
    is an [int64] of nanoseconds and wraps; [NewTicker] panics when the
    duration is not positive. *)
Definition Millisecond : Z := 1000000.

Definition NewTicker (d : Z) : option unit :=
  if decide (d ≤ 0) then None else Some ().

(** ** The mutator goroutine: [StartRandomUpdates] *)

(** The [updatesPerTick] pairs [(id, delta)] drawn at the start of a tick. *)
Fixpoint randomBatch (src : Z → Z) (pos : Z) (n : Z) (k : nat)
  : option (list (Z * Z) * Z) :=
  match k with
  | O => Some ([], pos)
  | S k' =>
      '(id, pos1) ← Intn src pos n;
      '(d, pos2) ← Intn src pos1 101;
      '(rest, pos3) ← randomBatch src pos2 n k';
      Some ((id, int_sub d 50) :: rest, pos3)
  end.

(** One round of the batch loop with its [changed] flag. *)
Definition applyItem (s : Store) (changed : bool) (item : Z * Z) : option (Store * bool) :=
  oldRating ← at_ (ratings s) item.1;
  let newRating := clampRating (int_add oldRating item.2) in
  if decide (newRating ≠ oldRating)
  then s' ← updateUserRating s item.1 newRating; Some (s', true)
  else Some (s, changed).

Fixpoint applyItems (s : Store) (changed : bool) (batch : list (Z * Z))
  : option (Store * bool) :=
  match batch with
  | [] => Some (s, changed)
  | item :: rest =>
      '(s', changed') ← applyItem s changed item; applyItems s' changed' rest
  end.

(** One firing of the ticker: the store after the batch, whether
    [lastUpdate] is stamped, and the position of the source. *)
Definition tick (s : Store) (updatesPerTick : Z) (src : Z → Z) (pos : Z)
  : option (Store * bool * Z) :=
  '(batch, pos') ← randomBatch src pos (len (users s)) (Z.to_nat updatesPerTick);
  '(s', changed) ← applyItems s false batch;
  Some (s', changed, pos').

Fixpoint updateTicks (s : Store) (updatesPerTick : Z) (src : Z → Z) (pos : Z)
    (ticks : nat) : option (Store * list bool) :=
  match ticks with
  | O => Some (s, [])
  | S ticks' =>
      '(s', changed, pos') ← tick s updatesPerTick src pos;
      '(s'', stamps) ← updateTicks s' updatesPerTick src pos' ticks';
      Some (s'', changed :: stamps)
  end.

(** The goroutine until its context is cancelled, [ticks] firings of the
    ticker later: the store it leaves and, for each firing, whether
    [lastUpdate] was stamped. *)
Definition StartRandomUpdates (s : Store) (updatesPerTick tickMs : Z)
    (src : Z → Z) (ticks : nat) : option (Store * list bool) :=
  if decide (updatesPerTick ≤ 0 ∨ tickMs ≤ 0) then Some (s, [])
  else
    _ ← NewTicker (int_mul tickMs Millisecond);
    updateTicks s updatesPerTick src 0 ticks.

(** ** The publisher goroutine: [StartSnapshotLoop] *)

Fixpoint snapshotTicks (s : Store) (ticks : nat) : option Store :=
  match ticks with
  | O => Some s
  | S ticks' => s' ← RefreshSnapshot s; snapshotTicks s' ticks'
  end.

Definition StartSnapshotLoop (s : Store) (tickMs : Z) (ticks : nat) : option Store :=
  if decide (tickMs ≤ 0) then Some s
  else
    _ ← NewTicker (int_mul tickMs Millisecond);
    snapshotTicks s ticks.

(** ** The seed generator: [generateUsers] *)

Definition names : list string :=
  [ "rahul"; "aarav"; "arjun"; "isha"; "kavya"; "neha"; "vivek"; "meera"; "saanvi"; "anaya";
    "alex"; "maria"; "liam"; "olivia"; "noah"; "emma"; "ethan"; "ava"; "mia"; "logan" ]%string.

Definition nouns : list string :=
  [ "nova"; "atlas"; "pixel"; "ember"; "quill"; "ridge"; "spark"; "zen"; "orbit"; "flux" ]%string.

Definition specials : list (string * Z) :=
  [ ("rahul", 4600); ("rahul_burman", 3900); ("rahul_mathur", 3900); ("rahul_kumar", 1234) ]%string.

(** [fmt.Sprintf] with the verb [%0wd], for the non-negative integers the
    generator formats: the decimal digits are written from the last one
    backwards, then zeros up to the width. *)
Definition digitChar (d : Z) : ascii := ascii_of_N (Z.to_N (48 + d)).

Fixpoint fmtDigits (fuel : nat) (u : Z) (buf : string) : string :=
  match fuel with
  | O => buf
  | S fuel' =>
      if decide (10 ≤ u)
      then fmtDigits fuel' (u `div` 10) (String (digitChar (u `mod` 10)) buf)
      else String (digitChar u) buf
  end.

Fixpoint zeros (n : nat) (buf : string) : string :=
  match n with
  | O => buf
  | S n' => String "0"%char (zeros n' buf)
  end.

(** Twenty rounds write every digit of a 64-bit integer. *)
Definition fmtInt (width : nat) (u : Z) : string :=
  let digits := fmtDigits 20 u EmptyString in
  zeros (width - String.length digits) digits.

(** The variables the two closures capture: the map [seen], the slice
    [users] and the source. *)
Record GenState := {
  gen_seen : gmap string bool;
  gen_users : list SeedUser;
  gen_pos : Z
}.

Definition seenName (st : GenState) (username : string) : bool :=
  default false (gen_seen st !! username).

Definition addUser (src : Z → Z) (st : GenState) (username : string) : option GenState :=
  if seenName st username then Some st
  else
    '(r, pos) ← Intn src (gen_pos st) (maxRating - minRating + 1);
    Some {| gen_seen := <[username := true]> (gen_seen st);
            gen_users := gen_users st
              ++ [{| Seed_Username := username; Seed_Rating := int_add r minRating |}];
            gen_pos := pos |}.

Definition addUserWithRating (st : GenState) (item : string * Z) : option GenState :=
  if seenName st item.1 then Some st
  else
    Some {| gen_seen := <[item.1 := true]> (gen_seen st);
            gen_users := gen_users st
              ++ [{| Seed_Username := item.1; Seed_Rating := clampRating item.2 |}];
            gen_pos := gen_pos st |}.

(** A [for] loop over a slice whose body is one of the closures. *)
Fixpoint forEach {A} (body : GenState → A → option GenState) (st : GenState) (l : list A)
  : option GenState :=
  match l with
  | [] => Some st
  | x :: rest => st' ← body st x; forEach body st' rest
  end.

(** One round of the last loop: a name, a noun and a suffix are drawn and
    the user of that name is added, unless the name was seen. *)
Definition drawUser (src : Z → Z) (st : GenState) : option GenState :=
  '(i, pos1) ← Intn src (gen_pos st) (len names);
  name ← at_ names i;
  '(j, pos2) ← Intn src pos1 (len nouns);
  noun ← at_ nouns j;
  '(suffix, pos3) ← Intn src pos2 9999;
  let username := (name ++ "_" ++ noun ++ "_" ++ fmtInt 4 suffix)%string in
  addUser src {| gen_seen := gen_seen st; gen_users := gen_users st; gen_pos := pos3 |}
          username.

(** The last loop draws until [target] users are there.  It need not end:
    [fuel] bounds the number of its rounds, and [None] is a run that is
    still drawing after [fuel] rounds (no round panics, [drawUser_total]). *)
Fixpoint fillUsers (src : Z → Z) (fuel : nat) (target : Z) (st : GenState)
  : option GenState :=
  if decide (len (gen_users st) < target) then
    match fuel with
    | O => None
    | S fuel' => st' ← drawUser src st; fillUsers src fuel' target st'
    end
  else Some st.

(** The part of [generateUsers] before the last loop. *)
Definition fixedUsers (src : Z → Z) : option GenState :=
  st ← forEach addUserWithRating
         {| gen_seen := ∅; gen_users := []; gen_pos := 0 |} specials;
  st ← addUser src st "rahul_jain";
  st ← addUser src st "rahul_sen";
  forEach (λ st i, addUser src st ("rahul_" ++ fmtInt 3 i)%string) st (seqZ 1 200).

Definition generateUsers (src : Z → Z) (fuel : nat) (count : Z) : option (list SeedUser) :=
  let count := if decide (count < 10000) then 10000 else count in
  st ← fixedUsers src;
  let target := int_add count (len (gen_users st)) in
  st' ← fillUsers src fuel target st;
  Some (gen_users st').

(** ** Start-up: [buildApp]

    The store as the server starts with it: the generated seeds, the store
    built from them and its first snapshot. *)
Definition buildStore (src : Z → Z) (fuel : nat) (seedUsers : Z) : option Store :=
  seeds ← generateUsers src fuel seedUsers;
  store ← NewStore seeds;
  RefreshSnapshot store.

(** ** The running server

    After start-up two goroutines work on the store.  The mutator draws a
    batch when its ticker fires and applies the items one by one; an
    [updateUserRating] holds [bucketMu] while it moves an id between
    buckets and [buildSnapshot] holds it while it reads the buckets, so
    that a refresh falls between two items of a batch, never inside one.
    A schedule is the order in which the steps of the two goroutines
    happen; the [changed] flag of the batch loop only feeds [lastUpdate],
    which is no part of the store. *)
Inductive Event := MutatorStep | SnapshotTick.

Record Server := {
  sv_store : Store;
  sv_pending : list (Z * Z);
  sv_pos : Z
}.

Definition step (updatesPerTick : Z) (src : Z → Z) (sv : Server) (e : Event) : option Server :=
  match e with
  | SnapshotTick =>
      s' ← RefreshSnapshot (sv_store sv);
      Some {| sv_store := s'; sv_pending := sv_pending sv; sv_pos := sv_pos sv |}
  | MutatorStep =>
      match sv_pending sv with
      | [] =>
          '(batch, pos') ← randomBatch src (sv_pos sv) (len (users (sv_store sv)))
                                       (Z.to_nat updatesPerTick);
          Some {| sv_store := sv_store sv; sv_pending := batch; sv_pos := pos' |}
      | item :: rest =>
          '(s', _) ← applyItem (sv_store sv) false item;
          Some {| sv_store := s'; sv_pending := rest; sv_pos := sv_pos sv |}
      end
  end.

Fixpoint serve (updatesPerTick : Z) (src : Z → Z) (sv : Server) (events : list Event)
  : option Server :=
  match events with
  | [] => Some sv
  | e :: rest => sv' ← step updatesPerTick src sv e; serve updatesPerTick src sv' rest
  end.

(** The invariant of the running server: the store is one the program
    reaches, the data fixed at start-up is as it was, and the items
    waiting in the batch name users of the store. *)
Definition Serving (s0 : Store) (sv : Server) : Prop :=
  reachable (sv_store sv) ∧
  users (sv_store sv) = users s0 ∧
  usernameLower (sv_store sv) = usernameLower s0 ∧
  usernameIndex (sv_store sv) = usernameIndex s0 ∧
  totalUsers (sv_store sv) = totalUsers s0 ∧
  Forall (λ item : Z * Z, 0 ≤ item.1 < totalUsers s0) (sv_pending sv).

(** A batch of items for users of the store, none of them moving a rating
    by more than [bound]. *)
Definition batchFor (s : Store) (bound : Z) (batch : list (Z * Z)) : Prop :=
  Forall (λ item, 0 ≤ item.1 < totalUsers s ∧ Z.abs item.2 ≤ bound) batch.

(** ** Vocabulary of the generator *)

(** A byte of the generated names: a lower-case letter, a digit or the
    underscore. *)
Definition plainByte (c : ascii) : bool :=
  let n := N_of_ascii c in
  (((97 <=? n) && (n <=? 122)) || ((48 <=? n) && (n <=? 57)) || (n =? 95))%N.

Fixpoint plainName (s : string) : bool :=
  match s with
  | EmptyString => true
  | String c s' => plainByte c && plainName s'
  end.

(** The invariant of the generator: [seen] holds the names of [users], no
    name twice, every rating in range, every name plain. *)
Record GenOK (st : GenState) : Prop := {
  gn_seen : ∀ name, seenName st name = true ↔ name ∈ Seed_Username <$> gen_users st;
  gn_nodup : NoDup (Seed_Username <$> gen_users st);
  gn_ratings : Forall (λ u, minRating ≤ Seed_Rating u ≤ maxRating) (gen_users st);
  gn_plain : Forall (λ u, plainName (Seed_Username u) = true) (gen_users st)
}.

(** The names of the users added before the last loop. *)
Definition fixedNames : list string :=
  (fst <$> specials) ++ ["rahul_jain"; "rahul_sen"]%string
    ++ ((λ i, "rahul_" ++ fmtInt 3 i)%string <$> seqZ 1 200).

(** The name a round of the last loop draws when the source is at [pos]. *)
Definition drawnName (src : Z → Z) (pos : Z) : string :=
  (default EmptyString (names !! Z.to_nat (src pos `mod` 20)) ++ "_"
   ++ default EmptyString (nouns !! Z.to_nat (src (pos + 1) `mod` 10)) ++ "_"
   ++ fmtInt 4 (src (pos + 2) `mod` 9999))%string.

(** Every name the last loop can draw. *)
Definition drawableNames : list string :=
  name ← names; noun ← nouns;
  (λ suffix, name ++ "_" ++ noun ++ "_" ++ fmtInt 4 suffix)%string <$> seqZ 0 9999.

(** The number a string of decimal digits stands for. *)
Definition digitValue (c : ascii) : Z := Z.of_N (N_of_ascii c) - 48.

Fixpoint decimalValue (s : string) : Z :=
  match s with
  | EmptyString => 0
  | String c s' => digitValue c * 10 ^ Z.of_nat (String.length s') + decimalValue s'
  end.

(** A source for which [generateUsers] returns after 10000 rounds of its
    last loop: round [k] draws the name [rahul], the noun [nova] or
    [atlas] and the suffix [k mod 9999]. *)
Definition sampleSource (pos : Z) : Z :=
  let q := pos - 202 in
  if decide (q < 0) then pos
  else if decide (q `mod` 4 = 1) then (q `div` 4) `div` 9999
  else if decide (q `mod` 4 = 2) then (q `div` 4) `mod` 9999
  else if decide (q `mod` 4 = 3) then q
  else 0.


(** * Properties *)

(** ** Facts about the machine integers *)

Lemma wrap64_id z : - 2 ^ 63 ≤ z < 2 ^ 63 → wrap64 z = z.
Proof.
  intros Hz. unfold wrap64.
  rewrite Z.mod_small; lia.
Qed.

Lemma wrap32_id z : - 2 ^ 31 ≤ z < 2 ^ 31 → wrap32 z = z.
Proof.
  intros Hz. unfold wrap32.
  rewrite Z.mod_small; lia.
Qed.

Lemma at_Some {A} (l : list A) i x :
  at_ l i = Some x ↔ 0 ≤ i ∧ l !! Z.to_nat i = Some x.
Proof.
  unfold at_. case_decide; split; intros H'; try tauto; done.
Qed.

Lemma at_lt {A} (l : list A) i x : at_ l i = Some x → 0 ≤ i < len l.
Proof.
  rewrite at_Some. intros [Hi Hl]. apply lookup_lt_Some in Hl. unfold len. lia.
Qed.

Lemma at_is_Some {A} (l : list A) i : 0 ≤ i < len l → is_Some (at_ l i).
Proof.
  intros Hi. unfold at_. rewrite decide_True by lia.
  apply lookup_lt_is_Some. unfold len in Hi. lia.
Qed.

Lemma set_at_Some {A} (l : list A) i v :
  0 ≤ i < len l → set_at l i v = Some (<[Z.to_nat i := v]> l).
Proof. intros Hi. unfold set_at. by rewrite decide_True. Qed.

Lemma set_at_inv {A} (l l' : list A) i v :
  set_at l i v = Some l' → 0 ≤ i < len l ∧ l' = <[Z.to_nat i := v]> l.
Proof.
  unfold set_at. destruct (decide (0 ≤ i < len l)); [|done].
  intros [= <-]. done.
Qed.

Lemma len_insert {A} (l : list A) n v : len (<[n := v]> l) = len l.
Proof. unfold len. by rewrite length_insert. Qed.

Lemma bind_Some {A B} (f : A → option B) (x : A) : Some x ≫= f = f x.
Proof. done. Qed.


Lemma at_insert {A} (l : list A) i j v :
  0 ≤ i < len l →
  at_ (<[Z.to_nat i := v]> l) j = if decide (i = j) then Some v else at_ l j.
Proof.
  intros Hi. unfold at_. destruct (decide (0 ≤ j)) as [Hj|Hj].
  - case_decide as Hij.
    + subst j. apply list_lookup_insert_eq. unfold len in Hi. lia.
    + apply list_lookup_insert_ne. lia.
  - rewrite decide_False by lia. done.
Qed.

Lemma at_take {A} (l : list A) n j :
  at_ (take (Z.to_nat n) l) j = if decide (j < n) then at_ l j else None.
Proof.
  unfold at_. destruct (decide (0 ≤ j)) as [Hj|Hj].
  - case_decide.
    + apply lookup_take_lt. lia.
    + apply lookup_take_ge. lia.
  - by case_decide.
Qed.

Lemma at_snoc {A} (l : list A) x j :
  at_ (l ++ [x]) j = if decide (j = len l) then Some x else at_ l j.
Proof.
  unfold at_, len. destruct (decide (0 ≤ j)) as [Hj|Hj].
  - case_decide as Hjl.
    + rewrite lookup_app_r by lia. replace (Z.to_nat j - length l)%nat with 0%nat by lia. done.
    + destruct (decide (j < Z.of_nat (length l))).
      * apply lookup_app_l. lia.
      * rewrite !lookup_ge_None_2; [done|lia|]. rewrite length_app. simpl. lia.
  - rewrite decide_False by lia. done.
Qed.

Lemma at_replicate {A} (n : nat) (x y : A) i : at_ (replicate n x) i = Some y → y = x.
Proof.
  rewrite at_Some. intros [_ H]. apply lookup_replicate in H. tauto.
Qed.

Lemma len_app {A} (l k : list A) : len (l ++ k) = len l + len k.
Proof. unfold len. rewrite length_app. lia. Qed.

Lemma len_take {A} (l : list A) n : 0 ≤ n ≤ len l → len (take (Z.to_nat n) l) = n.
Proof. unfold len. intros Hn. rewrite length_take. lia. Qed.

Lemma len_nonneg {A} (l : list A) : 0 ≤ len l.
Proof. unfold len. lia. Qed.

Lemma len_replicate {A} (n : nat) (x : A) : len (replicate n x) = Z.of_nat n.
Proof. unfold len. by rewrite length_replicate. Qed.

Lemma sumZ_insert (l : list Z) (n : nat) c v :
  l !! n = Some c → sumZ (<[n := v]> l) = sumZ l - c + v.
Proof.
  revert n. induction l as [|x l IH]; intros [|n] Hn; simplify_eq/=; [lia|].
  rewrite (IH _ Hn). lia.
Qed.

Lemma sumZ_at_le (l : list Z) i c :
  Forall (λ x, 0 ≤ x) l → at_ l i = Some c → 0 ≤ c ≤ sumZ l.
Proof.
  rewrite at_Some. intros Hl [_ Hi]. revert Hi. generalize (Z.to_nat i). clear i.
  induction Hl as [|x l Hx Hl IH]; intros [|n] Hn; simplify_eq/=.
  - assert (0 ≤ sumZ l); [|lia]. clear -Hl. induction Hl; simpl; lia.
  - specialize (IH _ Hn). lia.
Qed.

(** ** Moving a user between buckets *)

Lemma int_add_id a b : is_int (a + b) → int_add a b = a + b.
Proof. apply wrap64_id. Qed.
Lemma int_sub_id a b : is_int (a - b) → int_sub a b = a - b.
Proof. apply wrap64_id. Qed.
Lemma int_mul_id a b : is_int (a * b) → int_mul a b = a * b.
Proof. apply wrap64_id. Qed.

Lemma slice_to {A} (l : list A) n :
  0 ≤ n ≤ len l → slice l 0 n = Some (take (Z.to_nat n) l).
Proof.
  intros Hn. unfold slice. rewrite decide_True by lia.
  rewrite Z.sub_0_r. done.
Qed.

Lemma maxUsers_int z : 0 ≤ z ≤ maxUsers → is_int z.
Proof. unfold maxUsers, is_int. lia. Qed.

(** What [updateUserRating] does when it moves a user, written with the
    values it reads on the way. *)
Lemma updateUserRating_move (s : Store) id newRating oldRating oldBucket oldPos lastID newBucket :
  at_ (ratings s) id = Some oldRating →
  oldRating ≠ newRating →
  minRating ≤ oldRating ≤ maxRating →
  minRating ≤ newRating ≤ maxRating →
  at_ (ratingBuckets s) (oldRating - minRating) = Some oldBucket →
  at_ (bucketIndex s) id = Some oldPos →
  at_ oldBucket (len oldBucket - 1) = Some lastID →
  0 ≤ oldPos < len oldBucket →
  0 ≤ lastID < len (bucketIndex s) →
  at_ (ratingBuckets s) (newRating - minRating) = Some newBucket →
  at_ (ratingCounts s) (oldRating - minRating) = Some (len oldBucket) →
  at_ (ratingCounts s) (newRating - minRating) = Some (len newBucket) →
  len oldBucket < maxUsers → len newBucket < maxUsers →
  updateUserRating s id newRating =
    Some {| users := users s;
            ratings := <[Z.to_nat id := newRating]> (ratings s);
            usernameLower := usernameLower s;
            usernameIndex := usernameIndex s;
            ratingCounts :=
              <[Z.to_nat (newRating - minRating) := len newBucket + 1]>
                (<[Z.to_nat (oldRating - minRating) := len oldBucket - 1]> (ratingCounts s));
            totalUsers := totalUsers s;
            ratingBuckets :=
              <[Z.to_nat (newRating - minRating) := newBucket ++ [id]]>
                (<[Z.to_nat (oldRating - minRating) :=
                     take (Z.to_nat (len oldBucket - 1)) (<[Z.to_nat oldPos := lastID]> oldBucket)]>
                   (ratingBuckets s));
            bucketIndex :=
              <[Z.to_nat id := len newBucket]> (<[Z.to_nat lastID := oldPos]> (bucketIndex s));
            snapshot := snapshot s |}.
Proof.
  intros Hold Hne Hro Hrn HoB Hpos Hlast Hp Hl HnB Hco Hcn Hbo Hbn.
  pose proof (at_lt _ _ _ Hold) as Hid.
  pose proof (at_lt _ _ _ HoB) as Hob.
  pose proof (at_lt _ _ _ HnB) as Hnb.
  pose proof (at_lt _ _ _ Hco) as Hoc.
  pose proof (at_lt _ _ _ Hcn) as Hnc.
  pose proof (at_lt _ _ _ Hpos) as Hidx.
  pose proof (len_nonneg oldBucket) as Hno.
  pose proof (len_nonneg newBucket) as Hnn.
  assert (Hints : ∀ z, -2 ^ 62 ≤ z ≤ 2 ^ 62 → is_int z) by (unfold is_int; lia).
  unfold updateUserRating. unfold minRating, maxRating, maxUsers in *.
  rewrite Hold. simpl.
  rewrite decide_False by done.
  rewrite !int_sub_id by (apply Hints; lia).
  rewrite HoB. simpl. rewrite Hpos. simpl.
  rewrite !int_sub_id by (apply Hints; lia).
  rewrite Hlast. simpl.
  repeat (rewrite set_at_Some by (unfold len in *; rewrite ?length_insert; lia); simpl).
  rewrite len_insert. rewrite int_sub_id by (apply Hints; lia).
  rewrite slice_to by (unfold len in *; rewrite ?length_insert; lia). simpl.
  repeat (rewrite set_at_Some by (unfold len in *; rewrite ?length_insert; lia); simpl).
  rewrite at_insert by lia. rewrite decide_False by lia. rewrite HnB. simpl.
  repeat (rewrite set_at_Some by (unfold len in *; rewrite ?length_insert; lia); simpl).
  rewrite Hco. simpl.
  repeat (rewrite set_at_Some by (unfold len in *; rewrite ?length_insert; lia); simpl).
  rewrite at_insert by lia. rewrite decide_False by lia. rewrite Hcn. simpl.
  repeat (rewrite set_at_Some by (unfold len in *; rewrite ?length_insert; lia); simpl).
  rewrite !int_add_id by (apply Hints; lia).
  rewrite wrap32_id by lia.
  repeat f_equal; lia.
Qed.

Lemma counts_nonneg k s : BucketsOK k s → Forall (λ x, 0 ≤ x) (ratingCounts s).
Proof.
  intros H. apply Forall_lookup. intros i c Hc.
  assert (Hi : at_ (ratingCounts s) (Z.of_nat i) = Some c).
  { apply at_Some. rewrite Nat2Z.id. split; [lia|done]. }
  pose proof (at_lt _ _ _ Hi) as Hlt.
  rewrite (bk_counts_len _ _ H), <- (bk_buckets_len _ _ H) in Hlt.
  destruct (at_is_Some _ _ Hlt) as [bucket Hb].
  rewrite (bk_counts _ _ H _ _ Hb) in Hi. injection Hi as <-. apply len_nonneg.
Qed.

Lemma bucket_len_le k s b bucket :
  BucketsOK k s → at_ (ratingBuckets s) b = Some bucket → 0 ≤ len bucket ≤ k.
Proof.
  intros H Hb. rewrite <- (bk_sum _ _ H).
  eapply sumZ_at_le; [by eapply counts_nonneg|]. by eapply bk_counts.
Qed.

Ltac at_norm :=
  repeat first
    [ rewrite at_insert by (unfold len in *; rewrite ?length_insert; lia)
    | rewrite at_take
    | rewrite at_snoc ].

Ltac at_norm_in H :=
  repeat first
    [ rewrite at_insert in H by (unfold len in *; rewrite ?length_insert; lia)
    | rewrite at_take in H
    | rewrite at_snoc in H ].

Ltac fin :=
  rewrite ?Z.sub_add in *;
  repeat split;
  repeat (case_decide; try (exfalso; (lia || congruence)));
  first [ done | lia | congruence | f_equal; lia ].

Lemma updateUserRating_moves (s : Store) (id newRating : Z) :
  BucketsOK (totalUsers s) s →
  0 ≤ id < totalUsers s →
  minRating ≤ newRating ≤ maxRating →
  ∃ s', updateUserRating s id newRating = Some s' ∧
        BucketsOK (totalUsers s') s' ∧
        at_ (ratings s') id = Some newRating ∧
        totalUsers s' = totalUsers s ∧ users s' = users s ∧
        usernameLower s' = usernameLower s ∧ usernameIndex s' = usernameIndex s ∧
        snapshot s' = snapshot s.
Proof.
  intros Hok Hid Hnew.
  destruct (bk_member _ _ Hok id Hid) as (old & oB & p & Hr & Hold & HoB & Hx & Hp).
  destruct (decide (old = newRating)) as [->|Hne].
  { exists s. split; [|done]. unfold updateUserRating. rewrite Hr. simpl. by rewrite decide_True. }
  pose proof (at_lt _ _ _ Hp) as Hplt.
  destruct (at_is_Some oB (len oB - 1)) as [l Hl]; [lia|].
  destruct (bk_unique _ _ Hok _ _ _ _ HoB Hl) as (Hlid & Hlr & Hlx).
  replace (old - minRating + minRating) with old in Hlr by lia.
  destruct (at_is_Some (ratingBuckets s) (newRating - minRating)) as [nB HnB].
  { rewrite (bk_buckets_len _ _ Hok). unfold ratingRange. lia. }
  pose proof (bk_counts _ _ Hok _ _ HoB) as Hco.
  pose proof (bk_counts _ _ Hok _ _ HnB) as Hcn.
  pose proof (bucket_len_le _ _ _ _ Hok HoB) as Hlo.
  pose proof (bucket_len_le _ _ _ _ Hok HnB) as Hln.
  pose proof (bk_bound _ _ Hok) as [_ Hbound].
  pose proof (bk_ratings_len _ _ Hok) as HRlen.
  pose proof (bk_backref_len _ _ Hok) as HXlen.
  pose proof (bk_buckets_len _ _ Hok) as HBlen.
  pose proof (bk_counts_len _ _ Hok) as HClen.
  pose proof (at_lt _ _ _ HoB) as Hob.
  pose proof (at_lt _ _ _ HnB) as Hnb.
  eexists. split.
  { eapply updateUserRating_move; eauto; lia. }
  simpl. split; [|split; [|done]].
  2:{ at_norm. by rewrite decide_True. }
  assert (Hpl : p = len oB - 1 → l = id) by (intros ->; congruence).
  assert (Hlp : l = id → p = len oB - 1) by (intros ->; congruence).
  split; simpl.
  - by rewrite len_insert.
  - by rewrite !len_insert.
  - by rewrite !len_insert.
  - by rewrite !len_insert.
  - lia.
  - (* every id sits in the bucket of its rating *)
    intros id' Hid'.
    destruct (decide (id' = id)) as [->|Hidne].
    { exists newRating, (nB ++ [id]), (len nB). at_norm. fin. }
    destruct (bk_member _ _ Hok id' Hid') as (r' & b' & p' & Hr' & Hrange' & Hb' & Hx' & Hp').
    pose proof (at_lt _ _ _ Hp') as Hp'lt.
    destruct (decide (r' = newRating)) as [->|Hrn].
    { assert (b' = nB) by congruence. subst b'.
      assert (id' ≠ l) by (intros ->; congruence).
      exists newRating, (nB ++ [id]), p'. at_norm. fin. }
    destruct (decide (r' = old)) as [->|Hro].
    { assert (b' = oB) by congruence. subst b'.
      destruct (decide (id' = l)) as [->|Hl'].
      - exists old, (take (Z.to_nat (len oB - 1)) (<[Z.to_nat p := l]> oB)), p.
        at_norm. fin.
      - assert (p' ≠ p) by (intros ->; congruence).
        assert (p' ≠ len oB - 1) by (intros ->; congruence).
        exists old, (take (Z.to_nat (len oB - 1)) (<[Z.to_nat p := l]> oB)), p'.
        at_norm. fin. }
    assert (id' ≠ l) by (intros ->; congruence).
    exists r', b', p'. at_norm. fin.
  - (* every bucket entry is an id of that rating, at its back-reference *)
    intros b bucket pos id' Hb Hpos.
    at_norm_in Hb.
    destruct (decide (newRating - minRating = b)) as [<-|Hbn].
    { injection Hb as <-. at_norm_in Hpos.
      destruct (decide (pos = len nB)) as [->|Hpn].
      - injection Hpos as <-. at_norm. fin.
      - destruct (bk_unique _ _ Hok _ _ _ _ HnB Hpos) as (Hi' & Hr' & Hx').
        assert (id' ≠ id) by (intros ->; rewrite Hr in Hr'; injection Hr'; lia).
        assert (id' ≠ l) by (intros ->; rewrite Hlr in Hr'; injection Hr'; lia).
        at_norm. fin. }
    destruct (decide (old - minRating = b)) as [<-|Hbo].
    { injection Hb as <-. at_norm_in Hpos.
      destruct (decide (pos < len oB - 1)) as [Hlt|]; [|done].
      destruct (decide (p = pos)) as [<-|Hpp].
      - injection Hpos as <-.
        assert (l ≠ id) by lia.
        at_norm. fin.
      - destruct (bk_unique _ _ Hok _ _ _ _ HoB Hpos) as (Hi' & Hr' & Hx').
        assert (id' ≠ id) by (intros ->; rewrite Hx in Hx'; injection Hx'; lia).
        assert (id' ≠ l) by (intros ->; rewrite Hlx in Hx'; injection Hx'; lia).
        at_norm. fin. }
    destruct (bk_unique _ _ Hok _ _ _ _ Hb Hpos) as (Hi' & Hr' & Hx').
    assert (id' ≠ id) by (intros ->; rewrite Hr in Hr'; injection Hr'; lia).
    assert (id' ≠ l) by (intros ->; rewrite Hlr in Hr'; injection Hr'; lia).
    at_norm. fin.
  - (* every counter is the length of its bucket *)
    intros b bucket Hb. at_norm_in Hb. at_norm.
    destruct (decide (newRating - minRating = b)) as [<-|Hbn].
    { injection Hb as <-. rewrite len_app. done. }
    destruct (decide (old - minRating = b)) as [<-|Hbo].
    { injection Hb as <-. rewrite len_take; [done|]. rewrite len_insert. lia. }
    by apply (bk_counts _ _ Hok).
  - (* the counters still add up *)
    apply at_Some in Hco as [_ Hco]. apply at_Some in Hcn as [_ Hcn].
    erewrite sumZ_insert.
    2:{ rewrite list_lookup_insert_ne by lia. exact Hcn. }
    erewrite sumZ_insert by exact Hco.
    rewrite (bk_sum _ _ Hok). lia.
Qed.

(** ** Seeding establishes the invariants *)

Lemma clampRating_range v : minRating ≤ clampRating v ≤ maxRating.
Proof. unfold clampRating, minRating, maxRating. repeat case_decide; lia. Qed.

Lemma clampRating_id v : minRating ≤ v ≤ maxRating → clampRating v = v.
Proof. unfold clampRating, minRating, maxRating. intros ?. repeat case_decide; lia. Qed.

Lemma seedUser_step (s : Store) (k : Z) (seed : SeedUser) :
  SeedInv k s → k < totalUsers s →
  ∃ s', seedUser s k seed = Some s' ∧ SeedInv (k + 1) s' ∧ totalUsers s' = totalUsers s.
Proof.
  intros [Hok HUlen HLlen HIlen Hidx] Hk.
  pose proof (bk_bound _ _ Hok) as [[Hk0 _] Hbound].
  pose proof (bk_ratings_len _ _ Hok) as HRlen.
  pose proof (bk_backref_len _ _ Hok) as HXlen.
  pose proof (bk_buckets_len _ _ Hok) as HBlen.
  pose proof (bk_counts_len _ _ Hok) as HClen.
  pose proof (clampRating_range (Seed_Rating seed)) as Hr.
  set (r := clampRating (Seed_Rating seed)) in *.
  destruct (at_is_Some (ratingBuckets s) (r - minRating)) as [bucket Hb].
  { rewrite HBlen. unfold ratingRange. lia. }
  pose proof (bk_counts _ _ Hok _ _ Hb) as Hc.
  pose proof (bucket_len_le _ _ _ _ Hok Hb) as Hlen.
  pose proof (at_lt _ _ _ Hb) as Hbidx.
  assert (Hstep : seedUser s k seed = Some
    {| users := <[Z.to_nat k := {| User_ID := k; User_Username := Seed_Username seed |}]> (users s);
       ratings := <[Z.to_nat k := r]> (ratings s);
       usernameLower := <[Z.to_nat k := ToLower (Seed_Username seed)]> (usernameLower s);
       usernameIndex :=
         <[Z.to_nat k := {| UsernameLower := ToLower (Seed_Username seed); ID := k |}]> (usernameIndex s);
       ratingCounts := <[Z.to_nat (r - minRating) := len bucket + 1]> (ratingCounts s);
       totalUsers := totalUsers s;
       ratingBuckets := <[Z.to_nat (r - minRating) := bucket ++ [k]]> (ratingBuckets s);
       bucketIndex := <[Z.to_nat k := len bucket]> (bucketIndex s);
       snapshot := snapshot s |}).
  { unfold seedUser. fold r.
    assert (Hints : ∀ z, -2 ^ 62 ≤ z ≤ 2 ^ 62 → is_int z) by (unfold is_int; lia).
    pose proof (at_lt _ _ _ Hb) as Hblt.
    unfold minRating, maxRating, maxUsers in *.
    rewrite int_sub_id by (apply Hints; lia).
    rewrite wrap32_id by lia.
    repeat (rewrite set_at_Some by lia; simpl).
    rewrite at_insert by lia. rewrite decide_True by done. simpl.
    repeat (rewrite set_at_Some by lia; simpl).
    rewrite Hb. simpl.
    repeat (rewrite set_at_Some by lia; simpl).
    rewrite Hc. simpl.
    repeat (rewrite set_at_Some by lia; simpl).
    rewrite int_add_id by (apply Hints; lia). done. }
  eexists. split; [exact Hstep|]. split; [|done].
  split; simpl; rewrite ?len_insert; try done.
  2:{ intros i Hi. destruct (decide (i = k)) as [->|Hik].
      - eexists. at_norm. fin.
      - destruct (Hidx i) as (name & H1 & H2); [lia|].
        exists name. at_norm. fin. }
  split; simpl; rewrite ?len_insert; try done.
  - lia.
  - intros id' Hid'.
    destruct (decide (id' = k)) as [->|Hidne].
    { exists r, (bucket ++ [k]), (len bucket). at_norm. fin. }
    destruct (bk_member _ _ Hok id') as (r' & b' & p' & Hr' & Hrange' & Hb' & Hx' & Hp'); [lia|].
    pose proof (at_lt _ _ _ Hp') as Hp'lt.
    destruct (decide (r' = r)) as [->|Hrn].
    + assert (b' = bucket) by congruence. subst b'.
      exists r, (bucket ++ [k]), p'. at_norm. fin.
    + exists r', b', p'. at_norm. fin.
  - intros b bucket' pos id' Hb' Hpos.
    at_norm_in Hb'.
    destruct (decide (r - minRating = b)) as [<-|Hbn].
    + injection Hb' as <-. at_norm_in Hpos.
      destruct (decide (pos = len bucket)) as [->|Hpn].
      * injection Hpos as <-. at_norm. fin.
      * destruct (bk_unique _ _ Hok _ _ _ _ Hb Hpos) as (Hi' & Hr' & Hx').
        at_norm. fin.
    + destruct (bk_unique _ _ Hok _ _ _ _ Hb' Hpos) as (Hi' & Hr' & Hx').
      at_norm. fin.
  - intros b bucket' Hb'. at_norm_in Hb'. at_norm.
    destruct (decide (r - minRating = b)) as [<-|Hbn].
    + injection Hb' as <-. rewrite len_app. done.
    + by apply (bk_counts _ _ Hok).
  - apply at_Some in Hc as [_ Hc].
    erewrite sumZ_insert by exact Hc.
    rewrite (bk_sum _ _ Hok). lia.
Qed.

Lemma seedLoop_inv (seeds : list SeedUser) : ∀ (s : Store) (k : Z),
  SeedInv k s → k + len seeds = totalUsers s →
  ∃ s', seedLoop s k seeds = Some s' ∧ SeedInv (totalUsers s') s' ∧
        totalUsers s' = totalUsers s.
Proof.
  induction seeds as [|seed rest IH]; intros s k Hinv Hk.
  - exists s. unfold len in Hk. simpl in Hk.
    replace (totalUsers s) with k by lia. done.
  - unfold len in Hk. simpl length in Hk.
    destruct (seedUser_step s k seed Hinv) as (s1 & Hs1 & Hinv1 & Ht1); [lia|].
    destruct (IH s1 (k + 1) Hinv1) as (s2 & Hs2 & Hinv2 & Ht2).
    { unfold len. lia. }
    exists s2. simpl. rewrite Hs1. simpl. rewrite Hs2. split; [done|].
    split; [done|congruence].
Qed.

Ltac fields :=
  cbn [users ratings usernameLower usernameIndex ratingCounts totalUsers
       ratingBuckets bucketIndex snapshot].

Lemma sumZ_replicate n : sumZ (replicate n 0) = 0.
Proof. induction n; simpl; lia. Qed.

Lemma emptyStore_inv (n : nat) : Z.of_nat n < maxUsers → SeedInv 0 (emptyStore n).
Proof.
  intros Hn. unfold emptyStore.
  split; fields; rewrite ?len_replicate; try done; [|lia].
  split; fields; rewrite ?len_replicate, ?sumZ_replicate; try done; try lia.
  - intros b bucket pos id Hb Hpos. apply at_replicate in Hb. subst bucket.
    apply at_lt in Hpos. unfold len in Hpos. simpl in Hpos. lia.
  - intros b bucket Hb. pose proof (at_lt _ _ _ Hb) as Hlt.
    apply at_replicate in Hb. subst bucket.
    rewrite len_replicate in Hlt.
    destruct (at_is_Some (replicate (Z.to_nat ratingRange) 0) b) as [c Hc].
    { by rewrite len_replicate. }
    rewrite Hc. apply at_replicate in Hc. by subst c.
Qed.

(** ** The byte-wise order on strings *)

Lemma ltb_str_lt s t : String.ltb s t = true ↔ str_lt s t.
Proof. unfold String.ltb, str_lt. destruct (String.compare s t); split; congruence. Qed.

Lemma str_geb_spec s t : str_geb s t = true ↔ ¬ str_lt s t.
Proof.
  unfold str_geb. rewrite negb_true_iff, <- ltb_str_lt.
  destruct (String.ltb s t); split; congruence.
Qed.

Lemma str_compare_refl s : String.compare s s = Eq.
Proof.
  induction s as [|c s IH]; simpl; [done|].
  unfold Ascii.compare. by rewrite N.compare_refl.
Qed.

Lemma str_lt_irrefl s : ¬ str_lt s s.
Proof. unfold str_lt. by rewrite str_compare_refl. Qed.

Lemma str_lt_trans s t u : str_lt s t → str_lt t u → str_lt s u.
Proof.
  unfold str_lt. revert t u.
  induction s as [|a s IH]; intros [|b t] [|c u]; simpl; try done.
  unfold Ascii.compare.
  destruct (N.compare_spec (N_of_ascii a) (N_of_ascii b)) as [Hab|Hab|Hab];
    destruct (N.compare_spec (N_of_ascii b) (N_of_ascii c)) as [Hbc|Hbc|Hbc];
    destruct (N.compare_spec (N_of_ascii a) (N_of_ascii c)) as [Hac|Hac|Hac];
    try done; try lia.
  apply IH.
Qed.

Lemma str_lt_trichotomy s t : str_lt s t ∨ s = t ∨ str_lt t s.
Proof.
  unfold str_lt. rewrite (String.compare_antisym t s).
  destruct (String.compare s t) eqn:Hc; simpl; auto.
  right. left. by apply String.compare_eq_iff.
Qed.

Lemma str_lt_asym s t : str_lt s t → ¬ str_lt t s.
Proof. intros H1 H2. apply (str_lt_irrefl s). by eapply str_lt_trans. Qed.

(** [s <= t]: [t] is not below [s]. *)
Lemma str_le_trans s t u : ¬ str_lt t s → ¬ str_lt u t → ¬ str_lt u s.
Proof.
  intros Hst Htu Hus.
  destruct (str_lt_trichotomy s t) as [H|[->|H]]; [|done..].
  apply Htu. by eapply str_lt_trans.
Qed.

(** ** The order of the username index *)

Lemma indexLess_spec a b :
  indexLess a b = true ↔
  str_lt (UsernameLower a) (UsernameLower b) ∨
  (UsernameLower a = UsernameLower b ∧ ID a < ID b).
Proof.
  unfold indexLess.
  destruct (String.eqb_spec (UsernameLower a) (UsernameLower b)) as [Heq|Hne].
  - rewrite Z.ltb_lt, Heq. split; [auto|].
    intros [H|[_ H]]; [|done]. by apply str_lt_irrefl in H.
  - rewrite ltb_str_lt. split; [auto|]. intros [H|[H _]]; done.
Qed.

Lemma indexLess_false a b :
  indexLess a b = false ↔
  str_lt (UsernameLower b) (UsernameLower a) ∨
  (UsernameLower a = UsernameLower b ∧ ID b ≤ ID a).
Proof.
  rewrite <- not_true_iff_false, indexLess_spec.
  destruct (str_lt_trichotomy (UsernameLower a) (UsernameLower b)) as [H|[H|H]].
  - split; [tauto|]. intros [H'|[H' _]].
    + by apply str_lt_asym in H.
    + rewrite H' in H. by apply str_lt_irrefl in H.
  - rewrite H. split.
    + intros Hn. right. split; [done|].
      destruct (decide (ID b ≤ ID a)) as [|Hlt]; [done|].
      exfalso. apply Hn. right. split; [done|lia].
    + intros [H'|[_ H']] [H''|[_ H'']];
        first [ lia | by apply str_lt_irrefl in H' | by apply str_lt_irrefl in H'' ].
  - split; [auto|]. intros _ [H'|[H' _]].
    + by apply str_lt_asym in H.
    + rewrite H' in H. by apply str_lt_irrefl in H.
Qed.

Lemma indexLess_asym a b : indexLess a b = true → indexLess b a = false.
Proof.
  rewrite indexLess_spec, indexLess_false. intros [H|[H1 H2]]; [auto|].
  right. split; [done|lia].
Qed.

Lemma indexLess_ntrans a b c :
  indexLess a b = false → indexLess b c = false → indexLess a c = false.
Proof.
  rewrite !indexLess_false.
  intros [H1|[H1 H1']] [H2|[H2 H2']].
  - left. by eapply str_lt_trans.
  - left. by rewrite <- H2.
  - left. by rewrite H1.
  - right. split; [congruence|lia].
Qed.

Lemma indexLe_names a b :
  indexLe a b → ¬ str_lt (UsernameLower b) (UsernameLower a).
Proof.
  unfold indexLe. rewrite indexLess_false. intros [H|[H _]].
  - by apply str_lt_asym.
  - rewrite H. apply str_lt_irrefl.
Qed.

(** ** [sortSlice] sorts *)

Section SortFacts.
Context {A : Type} (less : A → A → bool).
Hypothesis less_asym : ∀ a b, less a b = true → less b a = false.
Hypothesis less_ntrans : ∀ a b c, less a b = false → less b c = false → less a c = false.

Lemma sink_perm x before : Permutation (sink less x before) (x :: before).
Proof.
  induction before as [|y before IH]; simpl; [done|].
  destruct (less x y); [|done].
  rewrite IH. apply perm_swap.
Qed.

Lemma foldl_sink_perm data : ∀ before,
  Permutation (foldl (λ before x, sink less x before) before data) (data ++ before).
Proof.
  induction data as [|x data IH]; intros before; simpl; [done|].
  rewrite IH, sink_perm. by rewrite Permutation_middle.
Qed.

Lemma sortSlice_perm data : Permutation (sortSlice less data) data.
Proof.
  unfold sortSlice. rewrite <- Permutation_rev, foldl_sink_perm.
  by rewrite app_nil_r.
Qed.

(** The reversed prefix is kept in descending order. *)
Lemma sink_sorted x before :
  StronglySorted (λ a b, less a b = false) before →
  StronglySorted (λ a b, less a b = false) (sink less x before).
Proof.
  induction 1 as [|y before Hs IH Hy]; simpl.
  - repeat constructor.
  - destruct (less x y) eqn:Hxy.
    + constructor; [done|].
      rewrite Forall_forall in Hy. apply Forall_forall. intros z Hz.
      rewrite sink_perm in Hz.
      apply elem_of_cons in Hz as [->|Hz]; [by apply less_asym|by apply Hy].
    + constructor; [by constructor|]. constructor; [done|].
      eapply Forall_impl; [exact Hy|]. intros z Hz. simpl in Hz. by eapply less_ntrans.
Qed.

Lemma StronglySorted_snoc (R : A → A → Prop) l x :
  StronglySorted R l → Forall (λ y, R y x) l → StronglySorted R (l ++ [x]).
Proof.
  induction 1 as [|y l Hs IH Hy]; intros Hx; simpl.
  - repeat constructor.
  - apply Forall_cons_1 in Hx as [Hyx Hx].
    constructor; [by apply IH|].
    apply Forall_app. split; [done|]. by constructor.
Qed.

Lemma StronglySorted_rev (R : A → A → Prop) l :
  StronglySorted R l → StronglySorted (λ a b, R b a) (rev l).
Proof.
  induction 1 as [|x l Hs IH Hx]; simpl; [constructor|].
  apply StronglySorted_snoc; [done|].
  apply Forall_forall. intros y Hy. rewrite Forall_forall in Hx.
  apply Hx. apply list_elem_of_In, in_rev. by apply list_elem_of_In.
Qed.

Lemma sortSlice_sorted data :
  StronglySorted (λ a b, less b a = false) (sortSlice less data).
Proof.
  unfold sortSlice. apply StronglySorted_rev.
  assert (H : ∀ before, StronglySorted (λ a b, less a b = false) before →
    StronglySorted (λ a b, less a b = false)
      (foldl (λ before x, sink less x before) before data)).
  { induction data as [|x data IH]; intros before Hb; simpl; [done|].
    apply IH. by apply sink_sorted. }
  apply H. constructor.
Qed.

End SortFacts.

Lemma BucketsOK_fields k s s' :
  BucketsOK k s →
  ratings s' = ratings s → bucketIndex s' = bucketIndex s →
  ratingBuckets s' = ratingBuckets s → ratingCounts s' = ratingCounts s →
  totalUsers s' = totalUsers s →
  BucketsOK k s'.
Proof.
  intros [] HR HX HB HC HT. split; rewrite ?HR, ?HX, ?HB, ?HC, ?HT; done.
Qed.

Lemma indexOf_lookup names i :
  indexOf names !! i = (λ name, {| UsernameLower := name; ID := Z.of_nat i |}) <$> names !! i.
Proof. unfold indexOf. apply list_lookup_imap. Qed.

Lemma NewStore_ok (seeds : list SeedUser) :
  len seeds < maxUsers →
  ∃ s, NewStore seeds = Some s ∧ StoreOK s ∧
       totalUsers s = len seeds ∧ snapshot s = [].
Proof.
  intros Hn.
  destruct (seedLoop_inv seeds (emptyStore (length seeds)) 0) as (s1 & Hs1 & Hinv & Ht).
  { by apply emptyStore_inv. }
  { simpl. unfold len. lia. }
  destruct Hinv as [Hok HUlen HLlen HIlen Hidx].
  unfold NewStore. rewrite Hs1. simpl. eexists. split; [done|].
  split; [|split; [by rewrite Ht|done]].
  split.
  - by eapply BucketsOK_fields.
  - split; fields; try done.
    + rewrite sortSlice_perm.
      assert (usernameIndex s1 = indexOf (usernameLower s1)) as ->; [|done].
      apply list_eq. intros i. rewrite indexOf_lookup.
      destruct (decide (Z.of_nat i < totalUsers s1)) as [Hi|Hi].
      * destruct (Hidx (Z.of_nat i)) as (name & H1 & H2); [lia|].
        apply at_Some in H1 as [_ H1]. apply at_Some in H2 as [_ H2].
        rewrite Nat2Z.id in H1, H2. by rewrite H1, H2.
      * rewrite !lookup_ge_None_2; [done|unfold len in *; lia..].
    + apply sortSlice_sorted; [apply indexLess_asym|apply indexLess_ntrans].
Qed.

Lemma updateUserRating_valid (s : Store) (id newRating : Z) (s' : Store) :
  BucketsOK (totalUsers s) s → is_int newRating →
  updateUserRating s id newRating = Some s' →
  0 ≤ id < totalUsers s ∧ (s' = s ∨ minRating ≤ newRating ≤ maxRating).
Proof.
  intros Hok Hint Hup. unfold updateUserRating in Hup.
  destruct (at_ (ratings s) id) as [old|] eqn:Hr; [|done]. simpl in Hup.
  pose proof (at_lt _ _ _ Hr) as Hid. rewrite (bk_ratings_len _ _ Hok) in Hid.
  split; [done|].
  destruct (decide (old = newRating)) as [->|Hne]; [left; congruence|]. right.
  destruct (at_ (ratingBuckets s) (int_sub old minRating)) as [oB|] eqn:HoB; [|done].
  simpl in Hup.
  destruct (at_ (bucketIndex s) id) as [p|]; [|done]. simpl in Hup.
  destruct (at_ oB (int_sub (len oB) 1)) as [l|]; [|done]. simpl in Hup.
  destruct (set_at oB p l) as [oB'|]; [|done]. simpl in Hup.
  destruct (set_at (bucketIndex s) l p) as [X'|]; [|done]. simpl in Hup.
  destruct (slice oB' 0 (int_sub (len oB') 1)) as [oB''|]; [|done]. simpl in Hup.
  destruct (set_at (ratingBuckets s) (int_sub old minRating) oB'') as [B'|] eqn:HB'; [|done].
  simpl in Hup.
  destruct (at_ B' (int_sub newRating minRating)) as [nB|] eqn:HnB; [|done].
  apply set_at_inv in HB' as [_ ->]. apply at_lt in HnB.
  rewrite len_insert, (bk_buckets_len _ _ Hok) in HnB.
  clear -HnB Hint. unfold int_sub, wrap64, is_int, ratingRange, minRating, maxRating in *.
  Z.to_euclidean_division_equations. lia.
Qed.

(** ** The invariant holds in every reachable state *)

Lemma IndexOK_fields s s' :
  IndexOK s →
  users s' = users s → usernameLower s' = usernameLower s →
  usernameIndex s' = usernameIndex s → totalUsers s' = totalUsers s →
  IndexOK s'.
Proof.
  intros [] HU HL HI HT. split; rewrite ?HU, ?HL, ?HI, ?HT; done.
Qed.

Lemma updateUserRating_ok (s : Store) (id newRating : Z) (s' : Store) :
  StoreOK s → is_int newRating →
  updateUserRating s id newRating = Some s' →
  StoreOK s' ∧ totalUsers s' = totalUsers s.
Proof.
  intros [Hb Hi] Hint Hup.
  destruct (updateUserRating_valid s id newRating s' Hb Hint Hup) as [Hid [->|Hr]]; [done|].
  destruct (updateUserRating_moves s id newRating Hb Hid Hr)
    as (s'' & Hup' & Hb' & _ & HT & HU & HL & HI & _).
  rewrite Hup in Hup'. injection Hup' as <-.
  split; [|done]. split; [done|]. by eapply IndexOK_fields.
Qed.

Lemma RefreshSnapshot_fields (s s' : Store) :
  RefreshSnapshot s = Some s' →
  users s' = users s ∧ ratings s' = ratings s ∧
  usernameLower s' = usernameLower s ∧ usernameIndex s' = usernameIndex s ∧
  ratingCounts s' = ratingCounts s ∧ totalUsers s' = totalUsers s ∧
  ratingBuckets s' = ratingBuckets s ∧ bucketIndex s' = bucketIndex s ∧
  buildSnapshot s = Some (snapshot s').
Proof.
  unfold RefreshSnapshot. destruct (buildSnapshot s) as [snap|]; [|done].
  rewrite bind_Some. intros [= <-]. done.
Qed.

Lemma RefreshSnapshot_ok (s s' : Store) :
  StoreOK s → RefreshSnapshot s = Some s' → StoreOK s' ∧ totalUsers s' = totalUsers s.
Proof.
  intros [Hb Hi] Hre.
  destruct (RefreshSnapshot_fields _ _ Hre) as (HU & HR & HL & HI & HC & HT & HB & HX & _).
  split; [|done]. split.
  - rewrite HT. by eapply BucketsOK_fields.
  - by eapply IndexOK_fields.
Qed.

Lemma reachable_ok (s : Store) : reachable s → StoreOK s.
Proof.
  induction 1 as [seeds s Hn Hs|s id r s' _ IH Hint Hup|s s' _ IH Hre].
  - destruct (NewStore_ok seeds Hn) as (s0 & Hs0 & Hok & _).
    rewrite Hs in Hs0. by injection Hs0 as <-.
  - by eapply updateUserRating_ok.
  - by eapply RefreshSnapshot_ok.
Qed.

(** C4: a call of [updateUserRating] with a rating in [100, 5000], for an id
    of the store, returns and leaves the bucket invariants in place: every
    id is in the bucket of its rating at the position of its
    back-reference and nowhere else, every counter is the length of its
    bucket, and the counters add up to the user count, which is unchanged;
    the id then has the new rating. *)
Theorem updateUserRating_preserves_invariants (s : Store) (id rNew : Z) :
  BucketsOK (totalUsers s) s →
  0 ≤ id < totalUsers s →
  minRating ≤ rNew ≤ maxRating →
  ∃ s', updateUserRating s id rNew = Some s' ∧
        BucketsOK (totalUsers s') s' ∧
        totalUsers s' = totalUsers s ∧
        sumZ (ratingCounts s') = totalUsers s ∧
        at_ (ratings s') id = Some rNew.
Proof.
  intros Hok Hid Hr.
  destruct (updateUserRating_moves s id rNew Hok Hid Hr)
    as (s' & Hup & Hok' & Hnew & HT & _).
  exists s'. split; [done|]. split; [done|]. split; [done|].
  split; [|done]. by rewrite (bk_sum _ _ Hok').
Qed.

(** The store of the scenarios: seeded from [fixture]. *)
Lemma fixture_store :
  ∃ s, NewStore fixture = Some s ∧ reachable s ∧ StoreOK s ∧ totalUsers s = 5.
Proof.
  assert (Hlen : len fixture < maxUsers) by (vm_compute; done).
  destruct (NewStore_ok fixture Hlen) as (s & Hs & Hok & Ht & _).
  exists s. split; [exact Hs|]. split; [by eapply reach_seed|].
  split; [exact Hok|]. rewrite Ht. reflexivity.
Qed.

(** C4 at the fixture: bob (id 1) moves from 1500 to 1700. *)
Lemma updateUserRating_preserves_invariants_witness :
  ∃ s, NewStore fixture = Some s ∧
  ∃ s', updateUserRating s 1 1700 = Some s' ∧
        BucketsOK (totalUsers s') s' ∧ at_ (ratings s') 1 = Some 1700.
Proof.
  destruct fixture_store as (s & Hs & _ & [Hb _] & Ht).
  exists s. split; [exact Hs|].
  destruct (updateUserRating_preserves_invariants s 1 1700 Hb) as (s' & H1 & H2 & _ & _ & H3).
  - rewrite Ht. lia.
  - unfold minRating, maxRating. lia.
  - exists s'. split; [exact H1|]. split; [exact H2|exact H3].
Defined.

(** ** Updating to the current rating *)

(** C8: [updateUserRating] with the rating the user already has returns at
    once; the store that comes back is the one that went in, so buckets,
    back-references, counters and ratings are all as before. *)
Theorem updateUserRating_same_rating (s : Store) (id r : Z) :
  at_ (ratings s) id = Some r →
  updateUserRating s id r = Some s.
Proof.
  intros Hr. unfold updateUserRating. rewrite Hr. simpl.
  by rewrite decide_True.
Qed.

(** C8 at the fixture: bob (id 1) is updated to the rating he has. *)
Lemma updateUserRating_same_rating_witness :
  ∃ s, NewStore fixture = Some s ∧
  ∃ r, at_ (ratings s) 1 = Some r ∧ updateUserRating s 1 r = Some s.
Proof.
  destruct fixture_store as (s & Hs & _ & [Hb _] & Ht).
  exists s. split; [exact Hs|].
  destruct (bk_member _ _ Hb 1) as (r & _ & _ & Hr & _); [rewrite Ht; lia|].
  exists r. split; [exact Hr|].
  exact (updateUserRating_same_rating s 1 r Hr).
Defined.

(** ** The rank computer *)

Lemma BucketsOK_counters k s : BucketsOK k s → CountersOK s.
Proof.
  intros Hok. split.
  - by apply (bk_counts_len _ _ Hok).
  - by eapply counts_nonneg.
  - rewrite (bk_sum _ _ Hok). pose proof (bk_bound _ _ Hok). lia.
Qed.

Lemma sumZ_nonneg l : Forall (λ c, 0 ≤ c) l → 0 ≤ sumZ l.
Proof. induction 1; simpl; lia. Qed.

Lemma sumZ_drop_le l n : Forall (λ c, 0 ≤ c) l → 0 ≤ sumZ (drop n l) ≤ sumZ l.
Proof.
  intros Hl. revert n. induction Hl as [|x l Hx Hl IH]; intros [|n]; simpl; try lia.
  - pose proof (sumZ_nonneg l Hl). lia.
  - specialize (IH n). lia.
Qed.

Lemma sumZ_drop_mono l n m :
  Forall (λ c, 0 ≤ c) l → (n ≤ m)%nat → sumZ (drop m l) ≤ sumZ (drop n l).
Proof.
  intros Hl Hnm. replace m with (n + (m - n))%nat by lia.
  rewrite <- drop_drop. apply sumZ_drop_le. by apply Forall_drop.
Qed.

(** The counters above [r] are the tail of the counter array. *)
Lemma counters_above s r :
  len (ratingCounts s) = ratingRange → minRating ≤ r ≤ maxRating →
  counterOf s <$> seqZ (r + 1) (maxRating - r)
    = drop (Z.to_nat (r - minRating + 1)) (ratingCounts s).
Proof.
  intros Hlen Hr. apply list_eq. intros i.
  rewrite list_lookup_fmap, lookup_drop.
  destruct (decide (Z.of_nat i < maxRating - r)) as [Hi|Hi].
  - rewrite lookup_seqZ_lt by done. simpl. unfold counterOf, at_.
    rewrite decide_True by lia.
    replace (Z.to_nat (r + 1 + Z.of_nat i - minRating)) with (Z.to_nat (r - minRating + 1) + i)%nat by lia.
    destruct (lookup_lt_is_Some_2 (ratingCounts s) (Z.to_nat (r - minRating + 1) + i)) as [c Hc].
    { unfold len, ratingRange in Hlen. lia. }
    by rewrite Hc.
  - rewrite lookup_seqZ_ge by lia. simpl. symmetry. apply lookup_ge_None_2.
    unfold len, ratingRange in Hlen. lia.
Qed.

Lemma countAbove_drop s r :
  len (ratingCounts s) = ratingRange → minRating ≤ r ≤ maxRating →
  countAbove s r = sumZ (drop (Z.to_nat (r - minRating + 1)) (ratingCounts s)).
Proof. intros. unfold countAbove. by rewrite counters_above. Qed.

Lemma counterOf_nonneg s k :
  Forall (λ c, 0 ≤ c) (ratingCounts s) → 0 ≤ counterOf s k.
Proof.
  intros Hnn. unfold counterOf.
  destruct (at_ (ratingCounts s) (k - minRating)) as [c|] eqn:Hc; simpl; [|lia].
  apply at_Some in Hc as [_ Hc]. rewrite Forall_lookup in Hnn. by eapply Hnn.
Qed.

Lemma sumZ_cons x l : sumZ (x :: l) = x + sumZ l.
Proof. done. Qed.

Lemma rank_loop_sum (s : Store) (currents : list Z) : ∀ above,
  Forall (λ k, 0 ≤ k - minRating < len (ratingCounts s)) currents →
  Forall (λ c, 0 ≤ c) (ratingCounts s) →
  0 ≤ above → above + sumZ (counterOf s <$> currents) < maxUsers →
  rank_loop (ratingCounts s) currents above
    = Some (above + sumZ (counterOf s <$> currents)).
Proof.
  induction currents as [|k rest IH]; intros above Hks Hnn Ha Hb.
  - simpl. f_equal. lia.
  - apply Forall_cons_1 in Hks as [Hk Hks].
    destruct (at_is_Some _ _ Hk) as [c Hc].
    assert (Hkc : counterOf s k = c) by (unfold counterOf; by rewrite Hc).
    assert (0 ≤ c).
    { apply at_Some in Hc as [_ Hc]. rewrite Forall_lookup in Hnn. by eapply Hnn. }
    rewrite fmap_cons, sumZ_cons, Hkc in Hb |- *.
    assert (0 ≤ sumZ (counterOf s <$> rest)).
    { apply sumZ_nonneg. apply Forall_fmap, Forall_forall. intros k' _.
      by apply counterOf_nonneg. }
    cbn [rank_loop]. rewrite Hc, bind_Some.
    rewrite int_add_id by (unfold is_int, maxUsers in *; lia).
    rewrite IH; [f_equal; lia|done|done|lia|lia].
Qed.

Lemma rank_value (s : Store) (r : Z) :
  CountersOK s → rank s r = Some (1 + countAbove s (clampRating r)).
Proof.
  intros [Hlen Hnn Hsum]. unfold rank.
  pose proof (clampRating_range r) as Hr. set (c := clampRating r) in *.
  pose proof (countAbove_drop s c Hlen Hr) as Hdrop.
  pose proof (sumZ_drop_le (ratingCounts s) (Z.to_nat (c - minRating + 1)) Hnn) as Hle.
  rewrite rank_loop_sum; try done.
  - fold (countAbove s c). simpl. rewrite int_add_id; [f_equal; lia|].
    unfold is_int, maxUsers in *. lia.
  - apply Forall_forall. intros k Hk. apply elem_of_seqZ in Hk.
    rewrite Hlen. unfold ratingRange. lia.
  - fold (countAbove s c). lia.
Qed.

Lemma clampRating_mono r1 r2 : r1 ≤ r2 → clampRating r1 ≤ clampRating r2.
Proof. unfold clampRating, minRating, maxRating. intros. repeat case_decide; lia. Qed.

Lemma rank_top (s : Store) (r : Z) : maxRating ≤ r → rank s r = Some 1.
Proof.
  intros Hr. unfold rank.
  assert (clampRating r = maxRating) as ->.
  { unfold clampRating, minRating, maxRating in *. repeat case_decide; lia. }
  rewrite Z.sub_diag. reflexivity.
Qed.

(** C1: on counters that are in order, [rank r] is 1 plus the sum of the
    counters of the ratings above the clamped [r]; the clamped rating lies
    in [minRating, maxRating] and the ratings summed are exactly those
    above it; so users with equal ratings get equal ranks. *)
Theorem rank_is_one_plus_count_above (s : Store) (r : Z) :
  CountersOK s →
  rank s r = Some (1 + countAbove s (clampRating r)) ∧
  minRating ≤ clampRating r ≤ maxRating ∧
  (minRating ≤ r ≤ maxRating → clampRating r = r) ∧
  (∀ k, k ∈ seqZ (clampRating r + 1) (maxRating - clampRating r)
        ↔ clampRating r < k ≤ maxRating) ∧
  (∀ id1 id2 r1 r2,
      at_ (ratings s) id1 = Some r1 → at_ (ratings s) id2 = Some r2 →
      r1 = r2 → rank s r1 = rank s r2).
Proof.
  intros Hok. split; [by apply rank_value|].
  split; [apply clampRating_range|].
  split; [apply clampRating_id|].
  split.
  - intros k. rewrite elem_of_seqZ. lia.
  - intros id1 id2 r1 r2 _ _ ->. done.
Qed.

(** C1 at the fixture: the rank of rating 1500. *)
Lemma rank_is_one_plus_count_above_witness :
  ∃ s, NewStore fixture = Some s ∧
       rank s 1500 = Some (1 + countAbove s (clampRating 1500)).
Proof.
  destruct fixture_store as (s & Hs & _ & [Hb _] & _).
  exists s. split; [exact Hs|].
  exact (proj1 (rank_is_one_plus_count_above s 1500 (BucketsOK_counters _ _ Hb))).
Defined.

(** C10: on counters that are in order, a higher rating never has a larger
    rank, and every rating from [maxRating] upwards has rank 1. *)
Theorem rank_antitone (s : Store) (r1 r2 : Z) :
  CountersOK s → r1 ≤ r2 →
  (∃ k1 k2, rank s r1 = Some k1 ∧ rank s r2 = Some k2 ∧ k2 ≤ k1) ∧
  (∀ r, maxRating ≤ r → rank s r = Some 1).
Proof.
  intros Hok Hr. split; [|apply rank_top].
  exists (1 + countAbove s (clampRating r1)), (1 + countAbove s (clampRating r2)).
  split; [by apply rank_value|]. split; [by apply rank_value|].
  pose proof (clampRating_range r1). pose proof (clampRating_range r2).
  pose proof (clampRating_mono _ _ Hr).
  destruct Hok as [Hlen Hnn _].
  rewrite !countAbove_drop by done.
  pose proof (sumZ_drop_mono (ratingCounts s)
    (Z.to_nat (clampRating r1 - minRating + 1))
    (Z.to_nat (clampRating r2 - minRating + 1)) Hnn). lia.
Qed.

(** C10 at the fixture: the ranks of 1500 and 1700. *)
Lemma rank_antitone_witness :
  ∃ s, NewStore fixture = Some s ∧
  ∃ k1 k2, rank s 1500 = Some k1 ∧ rank s 1700 = Some k2 ∧ k2 ≤ k1.
Proof.
  destruct fixture_store as (s & Hs & _ & [Hb _] & _).
  exists s. split; [exact Hs|].
  refine (proj1 (rank_antitone s 1500 1700 (BucketsOK_counters _ _ Hb) _)). lia.
Defined.

(** ** The snapshot *)

Lemma elem_of_concat {A} (x : A) (ls : list (list A)) :
  x ∈ concat ls ↔ ∃ l, x ∈ l ∧ l ∈ ls.
Proof.
  induction ls as [|k ls IH]; simpl.
  - split; [by intros ?%elem_of_nil|]. by intros (l & _ & ?%elem_of_nil).
  - rewrite elem_of_app, IH. split.
    + intros [Hx|(l & Hx & Hl)].
      * exists k. split; [done|by left].
      * exists l. split; [done|by right].
    + intros (l & Hx & Hl). apply elem_of_cons in Hl as [->|Hl]; [by left|].
      right. by exists l.
Qed.

Lemma sorted_weaken {A} (R R' : A → A → Prop) (l : list A) :
  (∀ a b, R a b → R' a b) → StronglySorted R l → StronglySorted R' l.
Proof.
  intros Himp. induction 1 as [|x l Hs IH Hx]; constructor; [done|].
  eapply Forall_impl; [exact Hx|]. intros y. apply Himp.
Qed.

Lemma NoDup_concat_lookup {A} (ls : list (list A)) :
  (∀ i j l1 l2 p q x,
     ls !! i = Some l1 → ls !! j = Some l2 →
     l1 !! p = Some x → l2 !! q = Some x → i = j ∧ p = q) →
  NoDup (concat ls).
Proof.
  induction ls as [|l ls IH]; intros Huniq; simpl; [constructor|].
  apply NoDup_app. split; [|split].
  - apply NoDup_alt. intros p q x Hp Hq.
    by destruct (Huniq 0%nat 0%nat l l p q x).
  - intros x Hx Hx'.
    apply list_elem_of_lookup in Hx as [p Hp].
    apply elem_of_concat in Hx' as (l2 & Hx2 & Hl2).
    apply list_elem_of_lookup in Hx2 as [q Hq].
    apply list_elem_of_lookup in Hl2 as [j Hj].
    by destruct (Huniq 0%nat (S j) l l2 p q x).
  - apply IH. intros i j l1 l2 p q x Hi Hj Hp Hq.
    destruct (Huniq (S i) (S j) l1 l2 p q x) as [? ?]; try done.
    split; [lia|done].
Qed.

Lemma sorted_app {A} (R : A → A → Prop) (l k : list A) :
  StronglySorted R l → StronglySorted R k →
  (∀ x y, x ∈ l → y ∈ k → R x y) →
  StronglySorted R (l ++ k).
Proof.
  induction 1 as [|x l Hs IH Hx]; intros Hk Hlk; simpl; [done|].
  constructor.
  - apply IH; [done|]. intros a b Ha Hb. apply Hlk; [by right|done].
  - apply Forall_app. split; [done|].
    apply Forall_forall. intros y Hy. apply Hlk; [by left|done].
Qed.

Lemma sorted_blocks {A} (R : A → A → Prop) (key : A → Z) (block : Z → list A)
    (rs : list Z) :
  StronglySorted (λ a b, b < a) rs →
  (∀ r, r ∈ rs → StronglySorted R (block r) ∧ ∀ x, x ∈ block r → key x = r) →
  (∀ x y, key y < key x → R x y) →
  StronglySorted R (concat (block <$> rs)).
Proof.
  intros Hrs Hblock HR.
  induction Hrs as [|r rs Hs IH Hr]; simpl; [constructor|].
  apply sorted_app.
  - apply Hblock. by left.
  - apply IH. intros r' Hr'. apply Hblock. by right.
  - intros x y Hx Hy.
    apply elem_of_concat in Hy as (l & Hy & Hl).
    apply list_elem_of_fmap in Hl as (r' & -> & Hr').
    apply HR.
    destruct (Hblock r) as [_ Hkx]; [by left|].
    destruct (Hblock r') as [_ Hky]; [by right|].
    rewrite (Hkx x Hx), (Hky y Hy).
    rewrite Forall_forall in Hr. by apply Hr.
Qed.

Lemma sorted_seqZ m n : StronglySorted Z.lt (seqZ m n).
Proof.
  destruct (decide (0 ≤ n)) as [Hn|Hn].
  2:{ rewrite seqZ_nil by lia. constructor. }
  revert m. pattern n. apply natlike_ind; [| |done].
  - intros m. rewrite seqZ_nil by lia. constructor.
  - clear n Hn. intros n Hn IH m. rewrite seqZ_cons by lia.
    replace (Z.pred (Z.succ n)) with n by lia.
    constructor; [apply IH|].
    apply Forall_forall. intros k Hk. apply elem_of_seqZ in Hk. lia.
Qed.

Lemma sorted_refine {A} (R R' : A → A → Prop) (l : list A) :
  StronglySorted R l → NoDup l →
  (∀ a b, a ∈ l → b ∈ l → a ≠ b → R a b → R' a b) →
  StronglySorted R' l.
Proof.
  induction 1 as [|x l Hs IH Hx]; intros Hnd Himp; [constructor|].
  apply NoDup_cons in Hnd as [Hxl Hnd].
  constructor.
  - apply IH; [done|]. intros a b Ha Hb. apply Himp; by right.
  - rewrite Forall_forall in Hx. apply Forall_forall. intros y Hy.
    apply Himp; [by left|by right|by intros ->|by apply Hx].
Qed.

Lemma snapshotLess_asym s a b : snapshotLess s a b = true → snapshotLess s b a = false.
Proof.
  unfold snapshotLess. rewrite <- not_true_iff_false, !ltb_str_lt. apply str_lt_asym.
Qed.

Lemma snapshotLess_ntrans s a b c :
  snapshotLess s a b = false → snapshotLess s b c = false → snapshotLess s a c = false.
Proof.
  unfold snapshotLess. rewrite <- !not_true_iff_false, !ltb_str_lt.
  intros H1 H2. by eapply str_le_trans.
Qed.

Lemma bucketOrder_perm s bucket : Permutation (bucketOrder s bucket) bucket.
Proof. unfold bucketOrder. case_decide; [apply sortSlice_perm|done]. Qed.

Lemma bucketOrder_sorted s bucket :
  StronglySorted (λ a b, ¬ str_lt (nameOf s b) (nameOf s a)) (bucketOrder s bucket).
Proof.
  unfold bucketOrder. case_decide as Hlen.
  - eapply sorted_weaken; [|apply (sortSlice_sorted (snapshotLess s))].
    + intros a b. unfold snapshotLess. by rewrite <- not_true_iff_false, ltb_str_lt.
    + apply snapshotLess_asym.
    + apply snapshotLess_ntrans.
  - destruct bucket as [|x [|y bucket]].
    + constructor.
    + repeat constructor.
    + unfold len in Hlen. simpl in Hlen. lia.
Qed.

Lemma sorted_weaken_in {A} (R R' : A → A → Prop) (l : list A) :
  (∀ a b, a ∈ l → b ∈ l → R a b → R' a b) → StronglySorted R l → StronglySorted R' l.
Proof.
  intros Himp Hs. induction Hs as [|x l Hs IH Hx]; constructor.
  - apply IH. intros a b Ha Hb. apply Himp; by right.
  - rewrite Forall_forall in Hx. apply Forall_forall. intros y Hy.
    apply Himp; [by left|by right|by apply Hx].
Qed.

Lemma concat_fmap_perm {A B} (f : A → list B) (l k : list A) :
  Permutation l k → Permutation (concat (f <$> l)) (concat (f <$> k)).
Proof.
  induction 1 as [|x l k _ IH|x y l|l k m _ IH1 _ IH2]; simpl.
  - done.
  - by rewrite IH.
  - rewrite !app_assoc. apply Permutation_app_tail, Permutation_app_comm.
  - by rewrite IH1.
Qed.

Lemma concat_fmap_perm_ext {A B} (f g : A → list B) (l : list A) :
  (∀ x, Permutation (f x) (g x)) →
  Permutation (concat (f <$> l)) (concat (g <$> l)).
Proof.
  intros Hfg. induction l as [|x l IH]; simpl; [done|]. by rewrite IH, Hfg.
Qed.

Lemma bucketOrder_nil s : bucketOrder s [] = [].
Proof. done. Qed.

Lemma bucketIDs_ok (s : Store) (bucket : list Z) :
  Forall (λ id, is_Some (at_ (usernameLower s) id)) bucket →
  bucketIDs s bucket = Some (bucketOrder s bucket).
Proof.
  intros Hb. unfold bucketIDs, bucketOrder.
  case_decide; [|done]. by rewrite decide_True.
Qed.

Lemma buildSnapshot_loop_eq (s : Store) (rs : list Z) : ∀ snap,
  Forall (λ r, is_Some (at_ (ratingBuckets s) (r - minRating)) ∧
               Forall (λ id, is_Some (at_ (usernameLower s) id)) (bucketAt s r)) rs →
  buildSnapshot_loop s rs snap
    = Some (snap ++ concat ((λ r, bucketOrder s (bucketAt s r)) <$> rs)).
Proof.
  induction rs as [|r rs IH]; intros snap Hrs.
  - simpl. by rewrite app_nil_r.
  - apply Forall_cons_1 in Hrs as [[[bucket Hb] Hids] Hrs].
    cbn [buildSnapshot_loop]. unfold bucketAt in Hids |- *.
    rewrite fmap_cons. cbn [concat]. rewrite Hb in Hids |- *. rewrite bind_Some.
    cbn [default] in *.
    case_decide as Hlen.
    + destruct bucket; [|unfold len in Hlen; simpl in Hlen; lia].
      rewrite bucketOrder_nil. by rewrite IH.
    + rewrite bucketIDs_ok by done. rewrite bind_Some.
      rewrite IH by done. by rewrite app_assoc.
Qed.

Lemma buckets_by_rating (s : Store) :
  len (ratingBuckets s) = ratingRange →
  bucketAt s <$> seqZ minRating ratingRange = ratingBuckets s.
Proof.
  intros Hlen. apply list_eq. intros i. rewrite list_lookup_fmap.
  destruct (decide (Z.of_nat i < ratingRange)) as [Hi|Hi].
  - rewrite lookup_seqZ_lt by done. simpl. unfold bucketAt, at_.
    rewrite decide_True by lia.
    replace (Z.to_nat (minRating + Z.of_nat i - minRating)) with i by lia.
    destruct (lookup_lt_is_Some_2 (ratingBuckets s) i) as [b Hb].
    { unfold len in Hlen. lia. }
    by rewrite Hb.
  - rewrite lookup_seqZ_ge by lia. simpl. symmetry. apply lookup_ge_None_2.
    unfold len in Hlen. lia.
Qed.

Lemma bucket_ids_perm (s : Store) :
  BucketsOK (totalUsers s) s →
  Permutation (concat (ratingBuckets s)) (seqZ 0 (totalUsers s)).
Proof.
  intros Hok. apply NoDup_Permutation.
  - apply NoDup_concat_lookup. intros i j l1 l2 p q x Hi Hj Hp Hq.
    assert (Hat : ∀ {A} (l : list A) n y, l !! n = Some y → at_ l (Z.of_nat n) = Some y).
    { intros A l n y H. apply at_Some. rewrite Nat2Z.id. split; [lia|done]. }
    destruct (bk_unique _ _ Hok _ _ _ _ (Hat _ _ _ _ Hi) (Hat _ _ _ _ Hp)) as (_ & Hr1 & Hx1).
    destruct (bk_unique _ _ Hok _ _ _ _ (Hat _ _ _ _ Hj) (Hat _ _ _ _ Hq)) as (_ & Hr2 & Hx2).
    rewrite Hr1 in Hr2. rewrite Hx1 in Hx2. split; [injection Hr2|injection Hx2]; lia.
  - apply NoDup_seqZ.
  - intros x. rewrite elem_of_concat, elem_of_seqZ. split.
    + intros (l & Hx & Hl).
      apply list_elem_of_lookup in Hx as [p Hp]. apply list_elem_of_lookup in Hl as [b Hb].
      assert (Hb' : at_ (ratingBuckets s) (Z.of_nat b) = Some l).
      { apply at_Some. rewrite Nat2Z.id. split; [lia|done]. }
      assert (Hp' : at_ l (Z.of_nat p) = Some x).
      { apply at_Some. rewrite Nat2Z.id. split; [lia|done]. }
      destruct (bk_unique _ _ Hok _ _ _ _ Hb' Hp') as (Hx & _). lia.
    + intros Hx. destruct (bk_member _ _ Hok x) as (r & bucket & pos & _ & _ & Hb & _ & Hp); [lia|].
      exists bucket. apply at_Some in Hb as [_ Hb]. apply at_Some in Hp as [_ Hp].
      split; eapply list_elem_of_lookup_2; eauto.
Qed.

Lemma bucketAt_rating (s : Store) (r x : Z) :
  BucketsOK (totalUsers s) s → x ∈ bucketAt s r →
  0 ≤ x < totalUsers s ∧ ratingOf s x = r.
Proof.
  intros Hok Hx. unfold bucketAt in Hx.
  destruct (at_ (ratingBuckets s) (r - minRating)) as [bucket|] eqn:Hb; simpl in Hx.
  2:{ by apply elem_of_nil in Hx. }
  apply list_elem_of_lookup in Hx as [p Hp].
  assert (Hp' : at_ bucket (Z.of_nat p) = Some x).
  { apply at_Some. rewrite Nat2Z.id. split; [lia|done]. }
  destruct (bk_unique _ _ Hok _ _ _ _ Hb Hp') as (Hx & Hr & _).
  split; [done|]. unfold ratingOf. rewrite Hr. simpl. lia.
Qed.

Lemma buildSnapshot_spec (s : Store) :
  StoreOK s →
  ∃ snap, buildSnapshot s = Some snap ∧
          Permutation snap (seqZ 0 (totalUsers s)) ∧
          StronglySorted (byRatingName s) snap.
Proof.
  intros [Hok Hix].
  pose proof (bk_buckets_len _ _ Hok) as HBlen.
  eexists. split; [|split].
  - unfold buildSnapshot. rewrite buildSnapshot_loop_eq; [reflexivity|].
    apply Forall_forall. intros r Hr.
    apply list_elem_of_In, in_rev, list_elem_of_In, elem_of_seqZ in Hr.
    split.
    + apply at_is_Some. rewrite HBlen. lia.
    + apply Forall_forall. intros x Hx.
      apply (bucketAt_rating s r x Hok) in Hx as [Hx _].
      apply at_is_Some. by rewrite (ix_lower_len _ Hix).
  - rewrite app_nil_l.
    rewrite (concat_fmap_perm _ _ (seqZ minRating ratingRange)) by (symmetry; apply Permutation_rev).
    rewrite (concat_fmap_perm_ext _ (bucketAt s)) by (intros r; apply bucketOrder_perm).
    rewrite buckets_by_rating by done. by apply bucket_ids_perm.
  - rewrite app_nil_l.
    apply (sorted_blocks (byRatingName s) (ratingOf s)).
    + apply (StronglySorted_rev Z.lt). apply sorted_seqZ.
    + intros r Hr. split.
      * eapply sorted_weaken_in; [|apply bucketOrder_sorted].
        intros a b Ha Hb Hab. rewrite bucketOrder_perm in Ha, Hb.
        apply (bucketAt_rating s r a Hok) in Ha as [_ Ha].
        apply (bucketAt_rating s r b Hok) in Hb as [_ Hb].
        right. split; [congruence|done].
      * intros x Hx. rewrite bucketOrder_perm in Hx.
        by apply (bucketAt_rating s r x Hok) in Hx as [_ Hx].
    + intros x y Hxy. by left.
Qed.

Lemma names_distinct (s : Store) (a b : Z) :
  NoDup (usernameLower s) →
  0 ≤ a < len (usernameLower s) → 0 ≤ b < len (usernameLower s) →
  nameOf s a = nameOf s b → a = b.
Proof.
  intros Hnd Ha Hb Hab. unfold nameOf in Hab.
  destruct (at_is_Some _ _ Ha) as [na Hna]. destruct (at_is_Some _ _ Hb) as [nb Hnb].
  rewrite Hna, Hnb in Hab. simpl in Hab. subst nb.
  apply at_Some in Hna as [_ Hna]. apply at_Some in Hnb as [_ Hnb].
  pose proof (NoDup_lookup _ _ _ _ Hnd Hna Hnb). lia.
Qed.

Lemma snapshot_ids_tie_break (s : Store) (snap : list Z) :
  StoreOK s → NoDup (usernameLower s) →
  Permutation snap (seqZ 0 (totalUsers s)) →
  StronglySorted (byRatingName s) snap →
  StronglySorted (byRatingNameID s) snap.
Proof.
  intros [Hok Hix] Hnd Hperm Hs.
  eapply sorted_refine; [exact Hs| |].
  - rewrite Hperm. apply NoDup_seqZ.
  - intros a b Ha Hb Hne [Hlt|[Heq Hle]]; [by left|].
    right. split; [done|]. left.
    rewrite Hperm, elem_of_seqZ in Ha, Hb.
    destruct (str_lt_trichotomy (nameOf s a) (nameOf s b)) as [H|[H|H]]; [done| |done].
    exfalso. apply Hne. apply (names_distinct s); try done.
    all: rewrite (ix_lower_len _ Hix); lia.
Qed.

Lemma clampRating_int v : is_int (clampRating v).
Proof.
  pose proof (clampRating_range v). unfold is_int, minRating, maxRating in *. lia.
Qed.

Lemma applyBatch_reachable (batch : list (Z * Z)) : ∀ s s',
  reachable s → applyBatch s batch = Some s' → reachable s'.
Proof.
  induction batch as [|[id delta] rest IH]; intros s s' Hs Hb; simpl in Hb.
  - by injection Hb as <-.
  - destruct (applyDelta s id delta) as [s1|] eqn:H1; [|done].
    rewrite bind_Some in Hb. apply (IH s1); [|done].
    unfold applyDelta in H1.
    destruct (at_ (ratings s) id) as [old|]; [|done]. rewrite bind_Some in H1.
    cbv zeta in H1. case_decide.
    + eapply reach_update; [exact Hs| |exact H1]. apply clampRating_int.
    + by injection H1 as <-.
Qed.

(** C2, as the code has it: in every reachable state [buildSnapshot]
    returns, and [RefreshSnapshot] publishes, a permutation of the ids
    [0, N) sorted by descending rating and then ascending lower-case name;
    ids that agree on both come in ascending order whenever no two users
    share a lower-case name. *)
Theorem snapshot_permutation_sorted (s : Store) :
  reachable s →
  ∃ snap s', buildSnapshot s = Some snap ∧
             RefreshSnapshot s = Some s' ∧ SnapshotIDs s' = snap ∧
             Permutation snap (seqZ 0 (totalUsers s)) ∧
             StronglySorted (byRatingName s) snap ∧
             (NoDup (usernameLower s) → StronglySorted (byRatingNameID s) snap).
Proof.
  intros Hok%reachable_ok.
  destruct (buildSnapshot_spec s Hok) as (snap & Hsnap & Hperm & Hsorted).
  exists snap. eexists. split; [done|].
  split; [unfold RefreshSnapshot; rewrite Hsnap; reflexivity|].
  split; [done|]. split; [done|]. split; [done|].
  intros Hnd. by apply snapshot_ids_tie_break.
Qed.

(** C2 (as amended) at the fixture, right after seeding. *)
Lemma snapshot_permutation_sorted_witness :
  ∃ s, NewStore fixture = Some s ∧
  ∃ snap, buildSnapshot s = Some snap ∧
          Permutation snap (seqZ 0 (totalUsers s)) ∧
          StronglySorted (byRatingName s) snap.
Proof.
  destruct fixture_store as (s & Hs & Hreach & _).
  exists s. split; [exact Hs|].
  destruct (snapshot_permutation_sorted s Hreach) as (snap & s' & H1 & _ & _ & H2 & H3 & _).
  exists snap. split; [exact H1|]. split; [exact H2|exact H3].
Defined.

(** What the tied store looks like: both users at 1600 under the name
    "bob", and id 1 ahead of id 0 in the snapshot. *)
Lemma tiedStore_facts :
  match tiedStore with
  | Some s =>
      buildSnapshot s = Some [1; 0] ∧
      ratingOf s 0 = 1600 ∧ ratingOf s 1 = 1600 ∧
      nameOf s 0 = "bob"%string ∧ nameOf s 1 = "bob"%string
  | None => False
  end.
Proof. vm_compute. repeat split; reflexivity. Qed.

Lemma tiedStore_reachable s : tiedStore = Some s → reachable s.
Proof.
  unfold tiedStore. intros Hs.
  destruct (NewStore tiedSeeds) as [s0|] eqn:Hs0; [|done].
  rewrite bind_Some in Hs.
  eapply applyBatch_reachable; [|exact Hs].
  eapply reach_seed; [|exact Hs0]. vm_compute. done.
Qed.

(** C2 as stated fails on the id tie-break: after seeding "Bob" and "bob"
    at 1500 and moving id 1 and then id 0 to 1600, both are in one bucket
    with equal lower-case names, and the snapshot lists id 1 before id 0. *)
Lemma snapshot_id_tie_break_counterexample :
  ∃ s, reachable s ∧ buildSnapshot s = Some [1; 0] ∧
       ¬ StronglySorted (byRatingNameID s) [1; 0].
Proof.
  pose proof tiedStore_facts as Hfacts.
  pose proof tiedStore_reachable as Hreach.
  destruct tiedStore as [s|]; [|done].
  destruct Hfacts as (Hsnap & Hr0 & Hr1 & Hn0 & Hn1).
  exists s. split; [by apply Hreach|]. split; [done|].
  intros Hsorted. apply StronglySorted_inv in Hsorted as [_ Hall].
  apply Forall_cons_1 in Hall as [Hord _].
  unfold byRatingNameID in Hord. rewrite Hr0, Hr1, Hn0, Hn1 in Hord.
  destruct Hord as [Hlt|[_ [Hlt|[_ Hle]]]]; [lia| |lia].
  by apply str_lt_irrefl in Hlt.
Qed.

(** ** The names a seeded store holds *)

Lemma seedUser_lower (s : Store) (k : Z) (seed : SeedUser) (s' : Store) :
  seedUser s k seed = Some s' →
  0 ≤ k < len (usernameLower s) ∧
  usernameLower s' = <[Z.to_nat k := ToLower (Seed_Username seed)]> (usernameLower s).
Proof.
  unfold seedUser. intros H.
  destruct (set_at (users s) k _) as [users'|]; [|done]. rewrite bind_Some in H.
  destruct (set_at (ratings s) k _) as [ratings'|]; [|done]. rewrite bind_Some in H.
  destruct (set_at (usernameLower s) k _) as [lower'|] eqn:Hl; [|done]. rewrite bind_Some in H.
  apply set_at_inv in Hl as [Hk ->].
  destruct (at_ _ k) as [name|]; [|done]. rewrite bind_Some in H.
  destruct (set_at (usernameIndex s) k _) as [index'|]; [|done]. rewrite bind_Some in H.
  cbv zeta in H.
  destruct (at_ (ratingBuckets s) _) as [bucket|]; [|done]. rewrite bind_Some in H.
  destruct (set_at (bucketIndex s) k _) as [backref'|]; [|done]. rewrite bind_Some in H.
  destruct (set_at (ratingBuckets s) _ _) as [buckets'|]; [|done]. rewrite bind_Some in H.
  destruct (at_ (ratingCounts s) _) as [count|]; [|done]. rewrite bind_Some in H.
  destruct (set_at (ratingCounts s) _ _) as [counts'|]; [|done]. rewrite bind_Some in H.
  injection H as <-. done.
Qed.

Lemma seedLoop_lower (seeds : list SeedUser) : ∀ (s : Store) (k : Z) (s' : Store),
  seedLoop s k seeds = Some s' → 0 ≤ k →
  ∀ i : nat,
    usernameLower s' !! i =
      if decide (k ≤ Z.of_nat i < k + len seeds)
      then (λ seed, ToLower (Seed_Username seed)) <$> seeds !! (i - Z.to_nat k)%nat
      else usernameLower s !! i.
Proof.
  induction seeds as [|seed rest IH]; intros s k s' Hloop Hk i.
  - injection Hloop as <-. rewrite decide_False; [done|]. unfold len. simpl. lia.
  - cbn [seedLoop] in Hloop.
    destruct (seedUser s k seed) as [s1|] eqn:H1; [|done]. rewrite bind_Some in Hloop.
    destruct (seedUser_lower _ _ _ _ H1) as [Hklt Hl1].
    rewrite (IH s1 (k + 1) s' Hloop) by lia. rewrite Hl1.
    unfold len in *. cbn [length].
    destruct (decide (Z.of_nat i = k)) as [Hik|Hik].
    + rewrite decide_False by lia. rewrite decide_True by lia.
      replace (i - Z.to_nat k)%nat with 0%nat by lia. cbn [lookup list_lookup fmap option_fmap option_map].
      replace i with (Z.to_nat k) by lia. apply list_lookup_insert_eq. lia.
    + rewrite list_lookup_insert_ne by lia.
      destruct (decide (k + 1 ≤ Z.of_nat i < k + 1 + Z.of_nat (length rest))) as [Hin|Hout].
      * rewrite decide_True by lia.
        replace (i - Z.to_nat k)%nat with (S (i - Z.to_nat (k + 1)))%nat by lia. done.
      * rewrite decide_False by lia. done.
Qed.

Lemma NewStore_names (seeds : list SeedUser) (s : Store) :
  NewStore seeds = Some s →
  usernameLower s = (λ seed, ToLower (Seed_Username seed)) <$> seeds.
Proof.
  unfold NewStore. intros H.
  destruct (seedLoop _ 0 seeds) as [s1|] eqn:H1; [|done]. rewrite bind_Some in H.
  injection H as <-. fields.
  apply list_eq. intros i. rewrite (seedLoop_lower _ _ _ _ H1) by lia.
  rewrite list_lookup_fmap. unfold len. case_decide as Hi.
  - change (Z.to_nat 0) with 0%nat. by rewrite Nat.sub_0_r.
  - unfold emptyStore. fields.
    rewrite !lookup_ge_None_2; [done|lia|rewrite length_replicate; lia].
Qed.

Lemma lowerByte_noFF c : c ≠ byteFF → lowerByte c ≠ byteFF.
Proof.
  unfold lowerByte. intros Hc.
  destruct ((65 <=? N_of_ascii c) && (N_of_ascii c <=? 90))%N eqn:Hup; [|done].
  apply andb_true_iff in Hup as [H1%N.leb_le H2%N.leb_le].
  intros Heq. apply (f_equal N_of_ascii) in Heq.
  rewrite N_ascii_embedding in Heq by lia. vm_compute in Heq.
  change (N_of_ascii c + 32 = 255)%N in Heq. lia.
Qed.

Lemma ToLower_noFF name : noFF name → noFF (ToLower name).
Proof.
  induction name as [|c name IH]; simpl; [done|].
  intros [Hc Hn]. split; [by apply lowerByte_noFF|by apply IH].
Qed.

(** A store seeded from names without [0xff] holds only such names. *)
Lemma NewStore_noFF (seeds : list SeedUser) (s : Store) :
  NewStore seeds = Some s →
  Forall (λ seed, noFF (Seed_Username seed)) seeds →
  Forall noFF (usernameLower s).
Proof.
  intros Hs Hseeds. rewrite (NewStore_names _ _ Hs).
  apply Forall_fmap. eapply Forall_impl; [exact Hseeds|].
  intros seed. apply ToLower_noFF.
Qed.

(** The names of the fixture are plain ASCII. *)
Lemma fixture_names_noFF : Forall (λ seed, noFF (Seed_Username seed)) fixture.
Proof. unfold fixture. repeat constructor; discriminate. Qed.

(** ** The page clamp *)

Lemma clampPage_within (page totalPages : Z) :
  1 ≤ totalPages → 1 ≤ clampPage page totalPages ≤ totalPages.
Proof. unfold clampPage. intros Ht. repeat case_decide; lia. Qed.

(** C5, as the code has it: with at least one page the result lies in
    [1, totalPages]; with no page at all only the lower bound is applied,
    and the result is the larger of [page] and 1. *)
Theorem clampPage_range (page totalPages : Z) :
  (1 ≤ totalPages → 1 ≤ clampPage page totalPages ≤ totalPages) ∧
  (totalPages ≤ 0 → clampPage page totalPages = Z.max page 1).
Proof.
  split; [apply clampPage_within|].
  unfold clampPage. intros Ht. repeat case_decide; lia.
Qed.

(** C5 as stated fails where there is no page: page 5 of 0 stays 5. *)
Lemma clampPage_zero_pages_counterexample :
  clampPage 5 0 = 5 ∧ clampPage 5 0 ≠ 1.
Proof. split; [reflexivity | discriminate]. Qed.

(** ** Blank queries *)

Lemma strlen_cons (c : ascii) (s : string) : strlen (String c s) = 1 + strlen s.
Proof. unfold strlen. cbn [String.length]. lia. Qed.

Lemma strlen_nonneg (s : string) : 0 ≤ strlen s.
Proof. unfold strlen. lia. Qed.

Lemma append_cons (c : ascii) (a b : string) :
  (String c a ++ b)%string = String c (a ++ b)%string.
Proof. reflexivity. Qed.

Lemma append_empty (b : string) : (EmptyString ++ b)%string = b.
Proof. reflexivity. Qed.

Lemma byteAt_0 (c : ascii) (s : string) : byteAt (String c s) 0 = byteOf c.
Proof. reflexivity. Qed.

Lemma byteAt_1 (c0 c1 : ascii) (s : string) :
  byteAt (String c0 (String c1 s)) 1 = byteOf c1.
Proof. reflexivity. Qed.

Lemma byteAt_2 (c0 c1 c2 : ascii) (s : string) :
  byteAt (String c0 (String c1 (String c2 s))) 2 = byteOf c2.
Proof. reflexivity. Qed.

(** Well-formed sequences of one, two and three bytes as the decoder reads
    them. *)
Lemma DecodeRune_1 (c : ascii) (rest : string) :
  byteOf c < 0x80 → DecodeRuneInString (String c rest) = (byteOf c, 1).
Proof.
  intros Hc. pose proof (strlen_nonneg rest).
  assert (Hfirst : first (byteOf c) = as_) by (unfold first; by rewrite decide_True by lia).
  unfold DecodeRuneInString. rewrite strlen_cons, byteAt_0. cbv zeta. rewrite Hfirst.
  rewrite (decide_False (P := 1 + strlen rest < 1)) by lia.
  rewrite (decide_True (P := as_ ≤ as_)) by lia.
  rewrite (decide_True (P := as_ = as_)) by done. done.
Qed.

Lemma DecodeRune_2 (c0 c1 : ascii) (rest : string) :
  0xC2 ≤ byteOf c0 < 0xE0 → locb ≤ byteOf c1 ≤ hicb →
  DecodeRuneInString (String c0 (String c1 rest))
    = (Z.lor (Z.shiftl (Z.land (byteOf c0) mask2) 6) (Z.land (byteOf c1) maskx), 2).
Proof.
  intros H0 H1. pose proof (strlen_nonneg rest).
  assert (Hfirst : first (byteOf c0) = s1).
  { unfold first. rewrite !decide_False by lia. by rewrite decide_True by lia. }
  unfold DecodeRuneInString. rewrite !strlen_cons, byteAt_0, byteAt_1. cbv zeta. rewrite Hfirst.
  change (Z.land s1 7) with 2. change (acceptRanges (s1 ≫ 4)) with (locb, hicb).
  cbn [fst snd].
  rewrite (decide_False (P := 1 + (1 + strlen rest) < 1)) by lia.
  rewrite (decide_False (P := as_ ≤ s1)) by (unfold as_, s1; lia).
  rewrite (decide_False (P := 1 + (1 + strlen rest) < 2)) by lia.
  rewrite (decide_False (P := byteOf c1 < locb ∨ hicb < byteOf c1)) by lia.
  rewrite (decide_True (P := 2 ≤ 2)) by lia. done.
Qed.

Lemma DecodeRune_3 (c0 c1 c2 : ascii) (rest : string) :
  0xE1 ≤ byteOf c0 < 0xED → locb ≤ byteOf c1 ≤ hicb → locb ≤ byteOf c2 ≤ hicb →
  DecodeRuneInString (String c0 (String c1 (String c2 rest)))
    = (Z.lor (Z.lor (Z.shiftl (Z.land (byteOf c0) mask3) 12)
                    (Z.shiftl (Z.land (byteOf c1) maskx) 6))
             (Z.land (byteOf c2) maskx), 3).
Proof.
  intros H0 H1 H2. pose proof (strlen_nonneg rest).
  assert (Hfirst : first (byteOf c0) = s3).
  { unfold first. rewrite !decide_False by lia. by rewrite decide_True by lia. }
  unfold DecodeRuneInString. rewrite !strlen_cons, byteAt_0, byteAt_1, byteAt_2. cbv zeta.
  rewrite Hfirst.
  change (Z.land s3 7) with 3. change (acceptRanges (s3 ≫ 4)) with (locb, hicb).
  cbn [fst snd].
  rewrite (decide_False (P := 1 + (1 + (1 + strlen rest)) < 1)) by lia.
  rewrite (decide_False (P := as_ ≤ s3)) by (unfold as_, s3; lia).
  rewrite (decide_False (P := 1 + (1 + (1 + strlen rest)) < 3)) by lia.
  rewrite (decide_False (P := byteOf c1 < locb ∨ hicb < byteOf c1)) by lia.
  rewrite (decide_False (P := 3 ≤ 2)) by lia.
  rewrite (decide_False (P := byteOf c2 < locb ∨ hicb < byteOf c2)) by lia.
  rewrite (decide_True (P := 3 ≤ 3)) by lia. done.
Qed.

(** The decoder reads each encoding of [whiteSpace] as one rune, a white
    space. *)
Lemma whiteSpace_decoded (w rest : string) :
  w ∈ whiteSpace →
  ∃ r, DecodeRuneInString (w ++ rest) = (r, strlen w) ∧ IsSpace r = true ∧ 1 ≤ strlen w.
Proof.
  intros Hw. unfold whiteSpace in Hw. cbn in Hw.
  repeat (apply elem_of_cons in Hw as [->|Hw]); [..|by apply elem_of_nil in Hw].
  all: eexists; rewrite !append_cons, append_empty.
  all: first
    [ rewrite DecodeRune_1 by (vm_compute; reflexivity)
    | rewrite DecodeRune_2 by (vm_compute; split; first [discriminate | reflexivity])
    | rewrite DecodeRune_3 by (vm_compute; split; first [discriminate | reflexivity]) ].
  all: split; [reflexivity|]; split; [vm_compute; reflexivity|vm_compute; discriminate].
Qed.

Lemma indexFunc_range_skip (f : Z → bool) (truth : bool) (a s : string) : ∀ i,
  indexFunc_range (a ++ s) (String.length a) i f truth
    = indexFunc_range s 0 (i + strlen a) f truth.
Proof.
  induction a as [|c a IH]; intros i.
  - rewrite append_empty. unfold strlen. cbn [String.length]. f_equal. lia.
  - rewrite append_cons. cbn [String.length indexFunc_range]. rewrite IH, strlen_cons.
    f_equal. lia.
Qed.

(** Every rune of a blank string is a white space. *)
Lemma blank_indexFunc (s : string) :
  blank s → ∀ i, indexFunc_range s 0 i IsSpace false = -1.
Proof.
  induction 1 as [|w s Hw Hs IH]; intros i; [reflexivity|].
  destruct (whiteSpace_decoded w s Hw) as (r & Hr & Hspace & Hlen).
  destruct w as [|c w]; [unfold strlen in Hlen; cbn in Hlen; lia|].
  rewrite append_cons in *. cbn [indexFunc_range]. rewrite Hr, Hspace.
  rewrite bool_decide_eq_false_2 by discriminate.
  rewrite strlen_cons.
  replace (Z.to_nat (1 + strlen w - 1)) with (String.length w) by (unfold strlen; lia).
  rewrite indexFunc_range_skip. apply IH.
Qed.

Lemma TrimFunc_blank (s : string) : blank s → TrimFunc s IsSpace = EmptyString.
Proof.
  intros Hs. unfold TrimFunc, TrimLeftFunc, indexFunc.
  rewrite (blank_indexFunc s Hs 0). reflexivity.
Qed.

(** A query made of white space only is empty once trimmed. *)
Lemma TrimSpace_blank (q : string) : blank q → TrimSpace q = EmptyString.
Proof.
  induction 1 as [|w s Hw Hs IH]; [reflexivity|].
  assert (Hblank : blank (w ++ s)) by (by constructor).
  pose proof (TrimFunc_blank _ Hblank) as Htrim.
  unfold whiteSpace in Hw. cbn in Hw.
  repeat (apply elem_of_cons in Hw as [->|Hw]); [..|by apply elem_of_nil in Hw].
  all: rewrite !append_cons, append_empty in *; cbn [TrimSpace].
  all: first [ exact Htrim | exact IH ].
Qed.

(** C9: a query that is empty once trimmed gets the empty result with
    [total = 0] from [SearchPage], whatever the store, and the handler turns
    it into an ordinary response with [count = 0].  The trimming is that of
    [strings.TrimSpace], so that the queries made of Unicode white space
    only are such queries ([TrimSpace_blank]). *)
Theorem SearchPage_blank_query (s : Store) (query : string) (page limit : Z) :
  TrimSpace query = EmptyString →
  SearchPage s query page limit
    = Some (nilEntries, 0, (if decide (page ≤ 0) then 1 else page), 0) ∧
  ∃ resp, searchHandler s query page limit = Some resp ∧
          SR_Results resp = [] ∧ SR_Total resp = 0 ∧ SR_Count resp = 0.
Proof.
  intros Hq.
  assert (Hsp : ∀ l, SearchPage s query page l
    = Some (nilEntries, 0, (if decide (page ≤ 0) then 1 else page), 0)).
  { intros l. unfold SearchPage, searchPrefix. rewrite Hq. simpl. reflexivity. }
  split; [apply Hsp|].
  unfold searchHandler. rewrite Hsp. simpl. eexists. split; [reflexivity|]. done.
Qed.

(** C9 on a query of a space, a no-break space (U+00A0), an ideographic
    space (U+3000) and a tab, asked for page 3. *)
Lemma SearchPage_blank_query_witness :
  TrimSpace (bytes [0x20; 0xC2; 0xA0; 0xE3; 0x80; 0x80; 0x09]) = EmptyString ∧
  SearchPage (emptyStore 0) (bytes [0x20; 0xC2; 0xA0; 0xE3; 0x80; 0x80; 0x09]) 3 0
    = Some (nilEntries, 0, 3, 0).
Proof.
  split; [reflexivity|].
  exact (proj1 (SearchPage_blank_query (emptyStore 0)
                  (bytes [0x20; 0xC2; 0xA0; 0xE3; 0x80; 0x80; 0x09]) 3 0 eq_refl)).
Defined.


(** ** Binary search *)

Lemma Search_loop_bounds (f : Z → bool) (n : Z) (fuel : nat) : ∀ i j,
  (∀ a b, 0 ≤ a → a ≤ b → b < n → f a = true → f b = true) →
  0 ≤ i → i ≤ j → j ≤ n → j - i ≤ Z.of_nat fuel →
  (∀ a, 0 ≤ a < i → f a = false) →
  (∀ a, j ≤ a < n → f a = true) →
  let r := Search_loop f fuel i j in
  i ≤ r ≤ j ∧ (∀ a, 0 ≤ a < r → f a = false) ∧ (∀ a, r ≤ a < n → f a = true).
Proof.
  induction fuel as [|fuel IH]; intros i j Hmono Hi Hij Hj Hfuel Hlow Hhigh; simpl.
  - assert (i = j) by lia. subst j. split; [lia|]. split; [done|done].
  - case_decide as Hlt.
    2:{ assert (i = j) by lia. subst j. split; [lia|]. split; [done|done]. }
    rewrite Z.shiftr_div_pow2 by lia. change (2 ^ 1) with 2.
    set (h := (i + j) `div` 2).
    assert (Hh : i ≤ h < j) by (unfold h; Z.to_euclidean_division_equations; lia).
    destruct (f h) eqn:Hfh; simpl.
    + destruct (IH i h) as (Hr & Hl & Hu); try done; try lia.
      { intros a Ha. apply (Hmono h a); [lia|lia|lia|done]. }
      split; [lia|]. split; [done|done].
    + destruct (IH (h + 1) j) as (Hr & Hl & Hu); try done; try lia.
      { intros a Ha. destruct (f a) eqn:Hfa; [|done].
        rewrite (Hmono a h) in Hfh; [done|lia|lia|lia|done]. }
      split; [lia|]. split; [done|done].
Qed.

(** [Search n f] is the least index from which a monotone [f] holds, [n]
    when there is none; the loop never runs short of rounds. *)
Lemma Search_least (n : Z) (f : Z → bool) :
  0 ≤ n →
  (∀ a b, 0 ≤ a → a ≤ b → b < n → f a = true → f b = true) →
  0 ≤ Search n f ≤ n ∧
  (∀ a, 0 ≤ a < Search n f → f a = false) ∧
  (∀ a, Search n f ≤ a < n → f a = true).
Proof.
  intros Hn Hmono. unfold Search.
  apply (Search_loop_bounds f n); try done; try lia.
Qed.

(** ** Prefixes and the [0xff] sentinel *)

Lemma str_lt_sentinel p : str_lt p (p ++ String byteFF EmptyString).
Proof.
  unfold str_lt. induction p as [|c p IH]; simpl; [done|].
  unfold Ascii.compare. by rewrite N.compare_refl.
Qed.

Lemma byte_below_FF c : c ≠ byteFF → (N_of_ascii c < 255)%N.
Proof.
  intros Hc. pose proof (N_ascii_bounded c) as Hb.
  destruct (decide (N_of_ascii c = 255%N)) as [Heq|Hne]; [|lia].
  exfalso. apply Hc. rewrite <- (ascii_N_embedding c), Heq. reflexivity.
Qed.

Lemma prefix_between (p s : string) :
  noFF s →
  String.prefix p s = true ↔
  ¬ str_lt s p ∧ str_lt s (p ++ String byteFF EmptyString).
Proof.
  unfold str_lt. revert s. induction p as [|a p IH]; intros [|c s] Hs; simpl.
  - split; [|done]. intros _. split; done.
  - destruct Hs as [Hc _]. apply byte_below_FF in Hc.
    unfold Ascii.compare. change (N_of_ascii byteFF) with 255%N.
    destruct (N.compare_spec (N_of_ascii c) 255) as [?|?|?]; try lia.
    split; [|done]. intros _. split; done.
  - split; [done|]. intros [H _]. by destruct H.
  - destruct Hs as [_ Hs].
    destruct (ascii_dec a c) as [->|Hne].
    + unfold Ascii.compare. rewrite N.compare_refl. by apply IH.
    + split; [done|]. unfold Ascii.compare.
      destruct (N.compare_spec (N_of_ascii c) (N_of_ascii a)) as [Heq|Hlt|Hgt].
      * exfalso. apply Hne. rewrite <- (ascii_N_embedding a), <- (ascii_N_embedding c).
        by rewrite Heq.
      * intros [H _]. by destruct H.
      * intros [_ H]. done.
Qed.

(** ** The prefix range *)

Lemma filter_all {A} (P : A → Prop) `{∀ x, Decision (P x)} (l : list A) :
  Forall P l → filter P l = l.
Proof.
  induction 1 as [|x l Hx Hl IH]; [done|].
  rewrite filter_cons_True by done. by rewrite IH.
Qed.

Lemma filter_none {A} (P : A → Prop) `{∀ x, Decision (P x)} (l : list A) :
  Forall (λ x, ¬ P x) l → filter P l = [].
Proof.
  induction 1 as [|x l Hx Hl IH]; [done|].
  by rewrite filter_cons_False.
Qed.

(** When [P] holds exactly at the positions [lo, hi) of [l], filtering by
    [P] cuts that range out. *)
Lemma filter_range {A} (P : A → Prop) `{∀ x, Decision (P x)} (l : list A) (lo hi : nat) :
  (lo ≤ hi)%nat → (hi ≤ length l)%nat →
  (∀ i x, l !! i = Some x → P x ↔ (lo ≤ i < hi)%nat) →
  filter P l = take (hi - lo) (drop lo l).
Proof.
  intros Hlo Hhi HP.
  rewrite <- (take_drop lo l) at 1.
  rewrite <- (take_drop (hi - lo) (drop lo l)) at 1.
  rewrite !filter_app.
  rewrite (filter_none P (take lo l)).
  2:{ apply Forall_lookup. intros i x Hi.
      pose proof (lookup_lt_Some _ _ _ Hi) as Hlt. rewrite length_take in Hlt.
      rewrite lookup_take_lt in Hi by lia. rewrite (HP i x Hi). lia. }
  rewrite (filter_all P (take (hi - lo) (drop lo l))).
  2:{ apply Forall_lookup. intros i x Hi.
      pose proof (lookup_lt_Some _ _ _ Hi) as Hlt. rewrite length_take in Hlt.
      rewrite lookup_take_lt, lookup_drop in Hi by lia. rewrite (HP _ x Hi). lia. }
  rewrite (filter_none P (drop (hi - lo) (drop lo l))).
  2:{ apply Forall_lookup. intros i x Hi.
      rewrite !lookup_drop in Hi. rewrite (HP _ x Hi). lia. }
  by rewrite app_nil_r.
Qed.

Lemma sorted_lookup {A} (R : A → A → Prop) (l : list A) i j x y :
  StronglySorted R l → l !! i = Some x → l !! j = Some y → (i < j)%nat → R x y.
Proof.
  intros Hs. revert i j. induction Hs as [|z l Hs IH Hz]; intros i j Hi Hj Hij; [done|].
  destruct i as [|i], j as [|j]; try lia; simpl in *.
  - injection Hi as <-. rewrite Forall_forall in Hz. apply Hz.
    by eapply list_elem_of_lookup_2.
  - apply (IH i j); [done|done|lia].
Qed.

Lemma sorted_app_inv {A} (R : A → A → Prop) (l k : list A) :
  StronglySorted R (l ++ k) → StronglySorted R l ∧ StronglySorted R k.
Proof.
  induction l as [|x l IH]; simpl; intros Hs.
  - split; [constructor|done].
  - apply StronglySorted_inv in Hs as [Hs Hx].
    destruct (IH Hs) as [Hl Hk]. split; [|done].
    constructor; [done|]. by apply Forall_app in Hx as [Hx _].
Qed.

Lemma sorted_take_drop {A} (R : A → A → Prop) (l : list A) n m :
  StronglySorted R l → StronglySorted R (take n (drop m l)).
Proof.
  intros Hs. rewrite <- (take_drop m l) in Hs.
  apply sorted_app_inv in Hs as [_ Hs].
  rewrite <- (take_drop n (drop m l)) in Hs.
  by apply sorted_app_inv in Hs as [Hs _].
Qed.

Lemma indexOf_names names : UsernameLower <$> indexOf names = names.
Proof.
  apply list_eq. intros i. rewrite list_lookup_fmap, indexOf_lookup.
  by destruct (names !! i).
Qed.

Lemma indexOf_ids names : ID <$> indexOf names = (λ i, Z.of_nat i) <$> seq 0 (length names).
Proof.
  apply list_eq. intros i. rewrite !list_lookup_fmap, indexOf_lookup.
  destruct (names !! i) as [name|] eqn:Hi; simpl.
  - rewrite lookup_seq_lt; [done|]. by eapply lookup_lt_Some.
  - rewrite lookup_seq_ge; [done|]. by apply lookup_ge_None.
Qed.

Lemma indexOf_NoDup names : NoDup (indexOf names).
Proof.
  apply (NoDup_fmap_1 ID). rewrite indexOf_ids.
  apply NoDup_fmap_2; [|apply NoDup_seq]. intros a b. lia.
Qed.

Lemma indexLe_strict a b : indexLe a b → a ≠ b → indexLt a b.
Proof.
  unfold indexLe, indexLt. rewrite indexLess_false, indexLess_spec.
  intros [H|[Hn Hid]] Hne; [by left|].
  right. split; [done|].
  destruct (decide (ID a = ID b)) as [Heq|]; [|lia].
  exfalso. apply Hne. destruct a, b; simpl in *. congruence.
Qed.

Lemma index_strictly_sorted (s : Store) :
  IndexOK s → StronglySorted indexLt (usernameIndex s).
Proof.
  intros Hix. eapply sorted_refine; [apply (ix_sorted _ Hix)| |].
  - rewrite (ix_perm _ Hix). apply indexOf_NoDup.
  - intros a b _ _ Hne Hle. by apply indexLe_strict.
Qed.

Lemma index_names_noFF (s : Store) :
  IndexOK s → Forall noFF (usernameLower s) →
  Forall (λ e, noFF (UsernameLower e)) (usernameIndex s).
Proof.
  intros Hix Hnames. rewrite (ix_perm _ Hix).
  apply Forall_fmap. by rewrite indexOf_names.
Qed.

Lemma filter_fmap_length {A B} (f : A → B) (P : B → Prop) `{∀ y, Decision (P y)}
    (l : list A) :
  length (filter P (f <$> l)) = length (filter (λ x, P (f x)) l).
Proof.
  induction l as [|x l IH]; [done|].
  rewrite fmap_cons, !filter_cons. case_decide; simpl; by rewrite IH.
Qed.

Lemma matching_count (s : Store) (p : string) :
  IndexOK s →
  length (matching p (usernameIndex s)) = length (matchingNames p (usernameLower s)).
Proof.
  intros Hix. unfold matching, matchingNames.
  rewrite (ix_perm _ Hix).
  rewrite <- (indexOf_names (usernameLower s)) at 2.
  by rewrite filter_fmap_length.
Qed.

Lemma str_lt_dec s t : {str_lt s t} + {¬ str_lt s t}.
Proof. unfold str_lt. destruct (String.compare s t); [right|left|right]; done. Qed.

(** What the two searches find: the positions below [lo] hold the names
    below the prefix, and those below [hi] the names below the prefix
    followed by [0xff]. *)
Lemma prefixRange_searches (s : Store) (p : string) :
  IndexOK s →
  ∃ lo hi, prefixRange s p = (lo, hi) ∧ 0 ≤ lo ∧ lo ≤ hi ∧ hi ≤ len (usernameIndex s) ∧
    ∀ (i : nat) e, usernameIndex s !! i = Some e →
      (Z.of_nat i < lo ↔ str_lt (UsernameLower e) p) ∧
      (Z.of_nat i < hi ↔ str_lt (UsernameLower e) (p ++ String byteFF EmptyString)).
Proof.
  intros Hix.
  pose proof (ix_sorted _ Hix) as Hsorted.
  unfold prefixRange. cbv zeta.
  set (idx := usernameIndex s) in *.
  set (nameAt := λ i : Z, default EmptyString (UsernameLower <$> at_ idx i)).
  set (high := (p ++ String byteFF EmptyString)%string).
  assert (Hname : ∀ i e, idx !! i = Some e → nameAt (Z.of_nat i) = UsernameLower e).
  { intros i e Hi. unfold nameAt, at_. rewrite decide_True by lia.
    by rewrite Nat2Z.id, Hi. }
  assert (Hmono : ∀ q a b, 0 ≤ a → a ≤ b → b < len idx →
            str_geb (nameAt a) q = true → str_geb (nameAt b) q = true).
  { intros q a b Ha Hab Hb. rewrite !str_geb_spec.
    destruct (decide (a = b)) as [->|Hne]; [done|].
    destruct (lookup_lt_is_Some_2 idx (Z.to_nat a)) as [ea Hea]; [unfold len in Hb; lia|].
    destruct (lookup_lt_is_Some_2 idx (Z.to_nat b)) as [eb Heb]; [unfold len in Hb; lia|].
    pose proof (Hname _ _ Hea) as Hna. pose proof (Hname _ _ Heb) as Hnb.
    rewrite Z2Nat.id in Hna, Hnb by lia. rewrite Hna, Hnb.
    intros Hq. eapply str_le_trans; [exact Hq|].
    apply indexLe_names. eapply (sorted_lookup indexLe idx); [done|exact Hea|exact Heb|lia]. }
  destruct (Search_least (len idx) (λ i, str_geb (nameAt i) p)) as (Hlo & Hlo1 & Hlo2);
    [apply len_nonneg|apply Hmono|].
  destruct (Search_least (len idx) (λ i, str_geb (nameAt i) high)) as (Hhi & Hhi1 & Hhi2);
    [apply len_nonneg|apply Hmono|].
  set (lo := Search (len idx) (λ i, str_geb (nameAt i) p)) in *.
  set (hi := Search (len idx) (λ i, str_geb (nameAt i) high)) in *.
  cbv beta in *.
  assert (Hpos : ∀ (i : nat) e, idx !! i = Some e →
            (Z.of_nat i < lo ↔ str_lt (UsernameLower e) p) ∧
            (Z.of_nat i < hi ↔ str_lt (UsernameLower e) high)).
  { intros i e Hi. pose proof (lookup_lt_Some _ _ _ Hi) as Hlt.
    rewrite <- (Hname i e Hi).
    specialize (Hlo1 (Z.of_nat i)). specialize (Hlo2 (Z.of_nat i)).
    specialize (Hhi1 (Z.of_nat i)). specialize (Hhi2 (Z.of_nat i)).
    rewrite <- not_true_iff_false, str_geb_spec in Hlo1, Hhi1.
    rewrite str_geb_spec in Hlo2, Hhi2. unfold len in *.
    split; split.
    - intros Hi'. destruct (str_lt_dec (nameAt (Z.of_nat i)) p) as [|Hn]; [done|].
      exfalso. apply Hlo1; [lia|done].
    - intros Hn. destruct (decide (Z.of_nat i < lo)) as [|Hge]; [done|].
      exfalso. apply Hlo2; [lia|done].
    - intros Hi'. destruct (str_lt_dec (nameAt (Z.of_nat i)) high) as [|Hn]; [done|].
      exfalso. apply Hhi1; [lia|done].
    - intros Hn. destruct (decide (Z.of_nat i < hi)) as [|Hge]; [done|].
      exfalso. apply Hhi2; [lia|done]. }
  exists lo, hi. split; [done|]. split; [lia|]. split; [|split; [lia|exact Hpos]].
  destruct (decide (lo ≤ hi)) as [|Hgt]; [done|]. exfalso.
  destruct (lookup_lt_is_Some_2 idx (Z.to_nat hi)) as [e He]; [unfold len in *; lia|].
  destruct (Hpos _ _ He) as [H1 H2]. rewrite Z2Nat.id in H1, H2 by lia.
  assert (Hlt : str_lt (UsernameLower e) high).
  { eapply str_lt_trans; [|apply str_lt_sentinel]. apply H1. lia. }
  apply H2 in Hlt. lia.
Qed.

Lemma prefixRange_bounds (s : Store) (p : string) :
  IndexOK s →
  0 ≤ (prefixRange s p).1 ∧ (prefixRange s p).1 ≤ (prefixRange s p).2 ∧
  (prefixRange s p).2 ≤ len (usernameIndex s).
Proof.
  intros Hix. destruct (prefixRange_searches s p Hix) as (lo & hi & -> & ? & ? & ? & _).
  done.
Qed.

Lemma prefixRange_spec (s : Store) (p : string) :
  IndexOK s → Forall noFF (usernameLower s) →
  ∃ lo hi, prefixRange s p = (lo, hi) ∧ 0 ≤ lo ∧ lo ≤ hi ∧ hi ≤ len (usernameIndex s) ∧
    slice (usernameIndex s) lo hi = Some (matching p (usernameIndex s)) ∧
    hi - lo = len (matching p (usernameIndex s)).
Proof.
  intros Hix Hnames.
  pose proof (index_names_noFF s Hix Hnames) as Hff.
  destruct (prefixRange_searches s p Hix) as (lo & hi & Hr & Hlo & Hle & Hhi & Hpos).
  assert (Hfilter : matching p (usernameIndex s)
            = take (Z.to_nat hi - Z.to_nat lo) (drop (Z.to_nat lo) (usernameIndex s))).
  { unfold matching. apply filter_range; [lia|unfold len in *; lia|].
    intros i e Hi.
    rewrite Forall_lookup in Hff. specialize (Hff i e Hi). cbv beta in Hff.
    rewrite (prefix_between p _ Hff).
    destruct (Hpos i e Hi) as [H1 H2]. rewrite <- H1, <- H2. lia. }
  exists lo, hi. split; [done|]. split; [done|]. split; [done|]. split; [done|].
  split.
  - unfold slice. rewrite decide_True by lia. rewrite Hfilter.
    do 2 f_equal. lia.
  - rewrite Hfilter. unfold len in *. rewrite length_take, length_drop. lia.
Qed.

Lemma matching_elem (s : Store) (p : string) (e : UsernameIndex) :
  IndexOK s →
  e ∈ matching p (usernameIndex s) ↔
  at_ (usernameLower s) (ID e) = Some (UsernameLower e) ∧
  String.prefix p (UsernameLower e) = true.
Proof.
  intros Hix. unfold matching. rewrite list_elem_of_filter, (ix_perm _ Hix).
  rewrite list_elem_of_lookup.
  split.
  - intros [Hp [i Hi]]. split; [|done].
    rewrite indexOf_lookup in Hi.
    destruct (usernameLower s !! i) as [name|] eqn:Hn; [|done].
    injection Hi as <-. simpl. apply at_Some. rewrite Nat2Z.id. split; [lia|done].
  - intros [He Hp]. split; [done|].
    apply at_Some in He as [Hid He]. exists (Z.to_nat (ID e)).
    rewrite indexOf_lookup, He. simpl. destruct e as [name id]; simpl in *.
    f_equal. f_equal. lia.
Qed.

(** C3: in every reachable state whose lower-case names are free of the
    byte [0xff], the two binary searches return a range [lo, hi) of the
    index that holds exactly the entries whose name starts with [p]: the
    entries of the ids whose [usernameLower] starts with [p], in ascending
    [(usernameLower, id)] order, [hi - lo] of them, as many as there are
    matching users. *)
Theorem prefixRange_exact (s : Store) (p : string) :
  reachable s → Forall noFF (usernameLower s) →
  ∃ lo hi, prefixRange s p = (lo, hi) ∧
    0 ≤ lo ∧ lo ≤ hi ∧ hi ≤ len (usernameIndex s) ∧
    slice (usernameIndex s) lo hi = Some (matching p (usernameIndex s)) ∧
    (∀ e, e ∈ matching p (usernameIndex s) ↔
          at_ (usernameLower s) (ID e) = Some (UsernameLower e) ∧
          String.prefix p (UsernameLower e) = true) ∧
    StronglySorted indexLt (matching p (usernameIndex s)) ∧
    hi - lo = len (matchingNames p (usernameLower s)).
Proof.
  intros [_ Hix]%reachable_ok Hnames.
  destruct (prefixRange_spec s p Hix Hnames) as (lo & hi & Hr & Hlo & Hle & Hhi & Hslice & Hlen).
  exists lo, hi. split; [done|]. split; [done|]. split; [done|]. split; [done|].
  split; [done|]. split; [intros e; by apply matching_elem|]. split.
  - unfold slice in Hslice. case_decide; [|done]. injection Hslice as <-.
    apply sorted_take_drop. by apply index_strictly_sorted.
  - rewrite Hlen. unfold len. f_equal. by apply matching_count.
Qed.

(** C3 at the fixture, for the prefix "al". *)
Lemma prefixRange_exact_witness :
  ∃ s, NewStore fixture = Some s ∧
  ∃ lo hi, prefixRange s "al" = (lo, hi) ∧
           slice (usernameIndex s) lo hi = Some (matching "al" (usernameIndex s)) ∧
           hi - lo = len (matchingNames "al" (usernameLower s)).
Proof.
  destruct fixture_store as (s & Hs & Hreach & _ & _).
  exists s. split; [exact Hs|].
  destruct (prefixRange_exact s "al" Hreach (NewStore_noFF _ _ Hs fixture_names_noFF))
    as (lo & hi & H1 & _ & _ & _ & H2 & _ & _ & H3).
  exists lo, hi. split; [exact H1|]. split; [exact H2|exact H3].
Defined.

(** ** The page queries return *)

Lemma entryOf_total (s : Store) (id : Z) :
  StoreOK s → 0 ≤ id < totalUsers s → is_Some (entryOf s id).
Proof.
  intros [Hok Hix] Hid. unfold entryOf.
  destruct (at_is_Some (ratings s) id) as [r Hr]; [by rewrite (bk_ratings_len _ _ Hok)|].
  destruct (at_is_Some (users s) id) as [u Hu]; [by rewrite (ix_users_len _ Hix)|].
  rewrite Hr, bind_Some, (rank_value s r) by (by eapply BucketsOK_counters).
  rewrite bind_Some, Hu, bind_Some. done.
Qed.

Lemma index_ids_valid (s : Store) (i : Z) (e : UsernameIndex) :
  IndexOK s → at_ (usernameIndex s) i = Some e → 0 ≤ ID e < totalUsers s.
Proof.
  intros Hix He. apply at_Some in He as [_ He].
  apply list_elem_of_lookup_2 in He. rewrite (ix_perm _ Hix) in He.
  apply list_elem_of_lookup in He as [j Hj]. rewrite indexOf_lookup in Hj.
  destruct (usernameLower s !! j) as [name|] eqn:Hn; [|done].
  injection Hj as <-. simpl. apply lookup_lt_Some in Hn.
  pose proof (ix_lower_len _ Hix) as Hlen. unfold len in Hlen. lia.
Qed.

Lemma index_len (s : Store) : IndexOK s → len (usernameIndex s) = totalUsers s.
Proof.
  intros Hix. unfold len. rewrite (ix_perm _ Hix). unfold indexOf.
  rewrite length_imap. apply (ix_lower_len _ Hix).
Qed.

Lemma indexEntry_total (s : Store) (i : Z) :
  StoreOK s → 0 ≤ i < len (usernameIndex s) → is_Some (indexEntry s i).
Proof.
  intros Hok Hi. unfold indexEntry.
  destruct (at_is_Some _ _ Hi) as [e He]. rewrite He, bind_Some.
  apply entryOf_total; [done|]. eapply index_ids_valid; [apply Hok|done].
Qed.

Lemma calcTotalPages_ceil (total limit : Z) :
  1 ≤ total → 1 ≤ limit → total + limit < 2 ^ 62 →
  calcTotalPages total limit = (total + limit - 1) `div` limit.
Proof.
  intros Ht Hl Hb. unfold calcTotalPages. rewrite decide_False by lia.
  rewrite int_add_id by (unfold is_int; lia).
  rewrite int_sub_id by (unfold is_int; lia).
  unfold int_quot. rewrite Z.quot_div_nonneg by lia.
  apply wrap64_id.
  assert (0 ≤ (total + limit - 1) `div` limit ≤ total + limit - 1).
  { split; [apply Z.div_pos; lia|]. apply Z.div_le_upper_bound; [lia|]. nia. }
  lia.
Qed.

Lemma pages_cover (total limit : Z) :
  1 ≤ total → 1 ≤ limit →
  let pages := (total + limit - 1) `div` limit in
  1 ≤ pages ∧ (pages - 1) * limit < total ∧ total ≤ pages * limit.
Proof.
  intros Ht Hl pages. unfold pages.
  pose proof (Z.div_mod (total + limit - 1) limit) as Hdm.
  pose proof (Z.mod_pos_bound (total + limit - 1) limit) as Hm.
  assert (1 ≤ (total + limit - 1) `div` limit).
  { apply Z.div_le_lower_bound; lia. }
  nia.
Qed.

Lemma SearchPage_returns (s : Store) (query : string) (page limit : Z) :
  StoreOK s → limit ≤ maxCap →
  ∃ results total pageOut totalPages,
    SearchPage s query page limit = Some (results, total, pageOut, totalPages) ∧
    len results ≤ (if decide (limit ≤ 0) then 20 else limit) ∧
    len results ≤ total ∧ total ≤ totalUsers s.
Proof.
  intros Hok Hlimit.
  pose proof Hok as [Hb Hix].
  pose proof (bk_bound _ _ Hb) as [[Hn0 _] Hnmax].
  unfold SearchPage, searchPrefix.
  set (L := if decide (limit ≤ 0) then 20 else limit).
  set (P := if decide (page ≤ 0) then 1 else page).
  assert (HL : 1 ≤ L ≤ maxCap) by (unfold L, maxCap in *; case_decide; lia).
  assert (HP : 1 ≤ P) by (unfold P; case_decide; lia).
  cbv zeta.
  case_decide as Hblank.
  { exists nilEntries, 0, P, 0. split; [done|]. unfold nilEntries, len. simpl. lia. }
  pose proof (prefixRange_bounds s (ToLower (TrimSpace query)) Hix) as (Hlo & Hle & Hhi).
  destruct (prefixRange s (ToLower (TrimSpace query))) as [lo hi]. cbn [fst snd] in *.
  rewrite (index_len s Hix) in Hhi.
  unfold maxUsers, maxCap in *.
  rewrite int_sub_id by (unfold is_int; lia).
  case_decide as Htotal.
  { eexists nilEntries, 0, _, _. split; [done|]. unfold nilEntries, len. simpl. lia. }
  rewrite calcTotalPages_ceil by lia.
  pose proof (pages_cover (hi - lo) L) as Hcover.
  cbv zeta in Hcover. destruct Hcover as (Htp & Hlast & Hall); [lia..|].
  set (tp := (hi - lo + L - 1) `div` L) in *.
  pose proof (clampPage_within P tp Htp) as Hpage.
  set (page' := clampPage P tp) in *.
  assert (Hoff : 0 ≤ (page' - 1) * L ≤ (tp - 1) * L) by nia.
  rewrite (int_sub_id page') by (unfold is_int; lia).
  rewrite int_mul_id by (unfold is_int; lia).
  rewrite (int_add_id lo) by (unfold is_int; lia).
  rewrite decide_False by lia.
  rewrite int_add_id by (unfold is_int; lia).
  set (startIdx := lo + (page' - 1) * L) in *.
  set (endIdx := if decide (startIdx + L > hi) then hi else startIdx + L).
  assert (Hend : startIdx < endIdx ∧ endIdx ≤ hi ∧ endIdx - startIdx ≤ L)
    by (unfold endIdx; case_decide; lia).
  rewrite int_sub_id by (unfold is_int; lia).
  unfold makeEntries. rewrite decide_False by (unfold maxAlloc, entrySize; lia).
  rewrite bind_Some.
  destruct (mapM (indexEntry s) (seqZ startIdx (endIdx - startIdx))) as [results|] eqn:Hres.
  2:{ exfalso. apply mapM_None in Hres. apply Exists_exists in Hres as (i & Hi & Hnone).
      apply elem_of_seqZ in Hi.
      destruct (indexEntry_total s i Hok) as [e He]; [rewrite (index_len s Hix); lia|].
      congruence. }
  rewrite bind_Some. exists results, (hi - lo), page', tp. split; [done|].
  apply length_mapM in Hres. rewrite length_seqZ in Hres.
  unfold len. unfold L in *. lia.
Qed.

(** C6: the [/search] handler puts the limit in [1, 200], 20 taking the
    place of a non-positive one, before it calls [SearchPage]; in every
    reachable state it answers, with that limit as page size and with no
    more results than the page size, so never more than 200. *)
Theorem search_limit_clamped (s : Store) (query : string) (page limit : Z) :
  reachable s →
  ∃ resp, searchHandler s query page limit = Some resp ∧
    1 ≤ SR_PageSize resp ≤ 200 ∧
    (limit ≤ 0 → SR_PageSize resp = 20) ∧
    (1 ≤ limit ≤ 200 → SR_PageSize resp = limit) ∧
    (200 < limit → SR_PageSize resp = 200) ∧
    SR_Count resp = len (SR_Results resp) ∧
    len (SR_Results resp) ≤ SR_PageSize resp ∧
    len (SR_Results resp) ≤ 200.
Proof.
  intros Hok%reachable_ok. unfold searchHandler.
  set (L0 := if decide (limit ≤ 0) then 20 else limit).
  set (L := if decide (L0 > 200) then 200 else L0).
  assert (HL : 1 ≤ L ≤ 200) by (unfold L, L0; repeat case_decide; lia).
  cbv zeta.
  destruct (SearchPage_returns s query page L Hok) as (results & total & pageOut & tp & Hsp & Hlen & _).
  { unfold maxCap. lia. }
  rewrite decide_False in Hlen by lia.
  rewrite Hsp, bind_Some. eexists. split; [reflexivity|]. cbn.
  split; [done|]. unfold L, L0 in *.
  repeat split; try done; repeat case_decide; lia.
Qed.

(** C6 at the fixture: a request for 10000 results per page. *)
Lemma search_limit_clamped_witness :
  ∃ s, NewStore fixture = Some s ∧
  ∃ resp, searchHandler s "a" 1 10000 = Some resp ∧
          SR_PageSize resp = 200 ∧ len (SR_Results resp) ≤ 200.
Proof.
  destruct fixture_store as (s & Hs & Hreach & _ & _).
  exists s. split; [exact Hs|].
  destruct (search_limit_clamped s "a" 1 10000 Hreach)
    as (resp & H1 & _ & _ & _ & H2 & _ & _ & H3).
  exists resp. split; [exact H1|]. split; [apply H2; lia|exact H3].
Defined.

(** ** Leaderboard pages *)

Lemma mapM_take_drop {A B} (f : A → option B) (l : list A) (k : list B) (n m : nat) :
  mapM f l = Some k → mapM f (take n (drop m l)) = Some (take n (drop m k)).
Proof.
  rewrite !mapM_Some. intros H. by apply Forall2_take, Forall2_drop.
Qed.

Lemma concat_chunks {A} (l : list A) (size k : nat) :
  concat ((λ i, take size (drop (i * size) l)) <$> seq 0 k) = take (k * size) l.
Proof.
  induction k as [|k IH]; [done|].
  rewrite seq_S, fmap_app, concat_app, IH. cbn [fmap list_fmap concat].
  rewrite app_nil_r, Nat.add_0_l, take_take_drop. f_equal. lia.
Qed.

Lemma snapshot_entries (s : Store) :
  StoreOK s → Permutation (SnapshotIDs s) (seqZ 0 (totalUsers s)) →
  is_Some (mapM (entryOf s) (SnapshotIDs s)).
Proof.
  intros Hok Hperm. apply mapM_is_Some, Forall_forall. intros id Hid.
  rewrite Hperm, elem_of_seqZ in Hid. apply entryOf_total; [done|lia].
Qed.

(** Page [page] of the leaderboard is the [page]-th run of [limit] entries
    of the snapshot. *)
Lemma LeaderboardPage_chunk (s : Store) (page limit : Z) (entries : list LeaderboardEntry) :
  mapM (entryOf s) (SnapshotIDs s) = Some entries →
  len (SnapshotIDs s) < maxUsers →
  1 ≤ limit → is_int limit → 1 ≤ page → (page - 1) * limit < len (SnapshotIDs s) →
  LeaderboardPage s page limit
    = Some (take (Z.to_nat limit) (drop (Z.to_nat ((page - 1) * limit)) entries)).
Proof.
  intros Hentries Hmax Hlimit Hint Hpage Hoff.
  pose proof (length_mapM _ _ _ Hentries) as Hlen.
  unfold LeaderboardPage.
  rewrite (decide_False (P := limit ≤ 0)), (decide_False (P := page ≤ 0)) by lia.
  cbv zeta.
  set (snap := SnapshotIDs s) in *.
  assert (Hoff0 : 0 ≤ (page - 1) * limit) by nia.
  rewrite (decide_False (P := len snap = 0)) by lia.
  unfold maxUsers, is_int in *.
  assert (Hpg : page - 1 ≤ (page - 1) * limit) by nia.
  rewrite int_sub_id by (unfold is_int; lia).
  rewrite int_mul_id by (unfold is_int; lia).
  rewrite decide_False by lia.
  assert (Hsum : (page - 1) * limit + limit < 2 ^ 63).
  { destruct (decide (page = 1)) as [->|Hp]; [lia|]. nia. }
  rewrite int_add_id by (unfold is_int; lia).
  set (offset := (page - 1) * limit) in *.
  set (end_ := if decide (offset + limit > len snap) then len snap else offset + limit).
  assert (Hend : offset < end_ ∧ end_ ≤ len snap) by (unfold end_; case_decide; lia).
  unfold slice. rewrite decide_True by lia. rewrite bind_Some.
  rewrite (mapM_take_drop _ _ _ _ _ Hentries). f_equal.
  unfold end_. case_decide.
  - rewrite !take_ge; [done|rewrite length_drop; unfold len in *; lia..].
  - f_equal. lia.
Qed.

(** The pages that hold entries, for a published snapshot: page [i + 1] is
    the [i]-th run of [L] entries, and the runs together are all entries. *)
Lemma leaderboard_pages (s : Store) (L : Z) (entries : list LeaderboardEntry) :
  mapM (entryOf s) (SnapshotIDs s) = Some entries →
  len (SnapshotIDs s) < maxUsers → 1 ≤ L → is_int L →
  let chunk := λ i : nat, take (Z.to_nat L) (drop (i * Z.to_nat L) entries) in
  let count := Z.to_nat ((len (SnapshotIDs s) + L - 1) `div` L) in
  (∀ i : nat, (i < count)%nat →
     LeaderboardPage s (Z.of_nat i + 1) L = Some (chunk i)) ∧
  concat (chunk <$> seq 0 count) = entries.
Proof.
  intros Hentries Hmax HL Hint chunk count.
  pose proof (length_mapM _ _ _ Hentries) as Hlen.
  set (N := len (SnapshotIDs s)) in *.
  destruct (decide (1 ≤ N)) as [HN1|HN0].
  - destruct (pages_cover N L HN1 HL) as (Htp & Hlast & Hall).
    fold count in Htp, Hlast, Hall. split.
    + intros i Hi.
      rewrite (LeaderboardPage_chunk s _ L entries);
        [|exact Hentries|exact Hmax|exact HL|exact Hint|lia|fold N; unfold count in Hi; nia].
      unfold chunk. do 3 f_equal. nia.
    + unfold chunk. rewrite concat_chunks. apply take_ge.
      unfold count, N, len in *. nia.
  - assert (HN : N = 0) by (unfold N, len in *; lia).
    assert (Hcount : count = 0%nat).
    { unfold count. rewrite HN, Z.div_small by lia. done. }
    rewrite Hcount. split; [intros i Hi; lia|].
    simpl. symmetry. apply nil_length_inv. unfold N, len in *. lia.
Qed.

Lemma refresh_total (s : Store) : StoreOK s → is_Some (RefreshSnapshot s).
Proof.
  intros Hok. destruct (buildSnapshot_spec s Hok) as (snap & Hsnap & _).
  unfold RefreshSnapshot. rewrite Hsnap. by eexists.
Qed.



(** ** The end-to-end scenarios on the fixture *)

(** Seeding: dave's 900 stays, eve's 5200 is clamped to 5000; the
    leaderboard order is eve, carol, alice, bob, dave; two users are above
    1500 and none above 5000; the prefix "al" selects position 0 of the
    index. *)
Lemma fixture_after_seeding :
  match NewStore fixture with
  | Some s =>
      ratings s = [1500; 1500; 1700; 900; 5000] ∧
      buildSnapshot s = Some [4; 2; 0; 1; 3] ∧
      rank s 1500 = Some 3 ∧ rank s 5000 = Some 1 ∧
      prefixRange s "al" = (0, 1)
  | None => False
  end.
Proof. vm_compute. repeat split; reflexivity. Qed.

(** Moving bob to 1700 puts him ahead of carol, both with rank 2, and
    alice falls to rank 4. *)
Lemma fixture_after_update :
  match s ← NewStore fixture; updateUserRating s 1 1700 with
  | Some s =>
      buildSnapshot s = Some [4; 1; 2; 0; 3] ∧
      rank s 1700 = Some 2 ∧ rank s 1500 = Some 4
  | None => False
  end.
Proof. vm_compute. repeat split; reflexivity. Qed.

(** The small helpers on a few inputs. *)
Lemma helpers_examples :
  clampRating 5200 = 5000 ∧ clampRating 90 = 100 ∧
  calcTotalPages 5 2 = 3 ∧ calcTotalPages 0 20 = 0 ∧
  clampPage 0 3 = 1 ∧ clampPage 9 3 = 3 ∧
  TrimSpace "  Al ice " = "Al ice"%string ∧ ToLower "AL_Ice9" = "al_ice9"%string ∧
  sortSlice Z.ltb [3; 1; 2; 1] = [1; 1; 2; 3] ∧
  Search 5 (λ i, 3 <=? i) = 3.
Proof. vm_compute. repeat split; reflexivity. Qed.

(** [TrimSpace] and the decoder on text that is not ASCII: a no-break
    space (U+00A0) and an ideographic space (U+3000) are trimmed, a
    zero-width space (U+200B) and a byte that is no UTF-8 are kept; the
    euro sign decodes to U+20AC, an overlong sequence does not decode. *)
Lemma TrimSpace_examples :
  TrimSpace (bytes [0xC2; 0xA0; 0x78; 0xC2; 0xA0]) = "x"%string ∧
  TrimSpace (bytes [0x20; 0xE3; 0x80; 0x80; 0x78; 0x20; 0xE2; 0x80; 0x8A; 0x09]) = "x"%string ∧
  TrimSpace (bytes [0xE2; 0x80; 0x8B; 0x20]) = bytes [0xE2; 0x80; 0x8B] ∧
  TrimSpace (bytes [0x78; 0xFF; 0x20]) = bytes [0x78; 0xFF] ∧
  TrimSpace (bytes [0xC3; 0xA9; 0x20]) = bytes [0xC3; 0xA9] ∧
  DecodeRuneInString (bytes [0xE2; 0x82; 0xAC]) = (0x20AC, 3) ∧
  DecodeLastRuneInString (bytes [0x78; 0xE2; 0x82; 0xAC]) = (0x20AC, 3) ∧
  DecodeRuneInString (bytes [0xC0; 0x80]) = (RuneError, 1).
Proof. vm_compute. repeat split; reflexivity. Qed.
(** * Further properties

    ** What a seeded store holds *)

Lemma seedUser_fields (s : Store) (k : Z) (seed : SeedUser) (s' : Store) :
  seedUser s k seed = Some s' →
  0 ≤ k ∧
  users s' = <[Z.to_nat k := {| User_ID := k; User_Username := Seed_Username seed |}]> (users s) ∧
  ratings s' = <[Z.to_nat k := clampRating (Seed_Rating seed)]> (ratings s).
Proof.
  unfold seedUser. intros H.
  destruct (set_at (users s) k _) as [users'|] eqn:Hu; [|done]. rewrite bind_Some in H.
  apply set_at_inv in Hu as [Hk ->].
  destruct (set_at (ratings s) k _) as [ratings'|] eqn:Hr; [|done]. rewrite bind_Some in H.
  apply set_at_inv in Hr as [_ ->].
  destruct (set_at (usernameLower s) k _) as [lower'|]; [|done]. rewrite bind_Some in H.
  destruct (at_ _ k) as [name|]; [|done]. rewrite bind_Some in H.
  destruct (set_at (usernameIndex s) k _) as [index'|]; [|done]. rewrite bind_Some in H.
  cbv zeta in H.
  destruct (at_ (ratingBuckets s) _) as [bucket|]; [|done]. rewrite bind_Some in H.
  destruct (set_at (bucketIndex s) k _) as [backref'|]; [|done]. rewrite bind_Some in H.
  destruct (set_at (ratingBuckets s) _ _) as [buckets'|]; [|done]. rewrite bind_Some in H.
  destruct (at_ (ratingCounts s) _) as [count|]; [|done]. rewrite bind_Some in H.
  destruct (set_at (ratingCounts s) _ _) as [counts'|]; [|done]. rewrite bind_Some in H.
  injection H as <-. fields. split; [lia|]. split; [done|].
  rewrite wrap32_id; [done|].
  pose proof (clampRating_range (Seed_Rating seed)). unfold minRating, maxRating in *. lia.
Qed.

Section SeedField.
Context {A : Type} (field : Store → list A) (value : Z → SeedUser → A).
Hypothesis field_step : ∀ s k seed s',
  seedUser s k seed = Some s' → field s' = <[Z.to_nat k := value k seed]> (field s).

Lemma seedLoop_field (seeds : list SeedUser) : ∀ (s : Store) (k : Z) (s' : Store),
  seedLoop s k seeds = Some s' → 0 ≤ k → k + len seeds ≤ len (field s) →
  ∀ i : nat,
    field s' !! i =
      if decide (k ≤ Z.of_nat i < k + len seeds)
      then value (Z.of_nat i) <$> seeds !! (i - Z.to_nat k)%nat
      else field s !! i.
Proof.
  induction seeds as [|seed rest IH]; intros s k s' Hloop Hk Hlen i.
  - injection Hloop as <-. rewrite decide_False; [done|]. unfold len. simpl. lia.
  - cbn [seedLoop] in Hloop.
    destruct (seedUser s k seed) as [s1|] eqn:H1; [|done]. rewrite bind_Some in Hloop.
    pose proof (field_step _ _ _ _ H1) as Hl1.
    unfold len in *. cbn [length] in *.
    rewrite (IH s1 (k + 1) s' Hloop); [|lia|rewrite Hl1, length_insert; lia].
    rewrite Hl1.
    destruct (decide (Z.of_nat i = k)) as [Hik|Hik].
    + rewrite decide_False by lia. rewrite decide_True by lia.
      replace (i - Z.to_nat k)%nat with 0%nat by lia.
      cbn [lookup list_lookup fmap option_fmap option_map].
      replace i with (Z.to_nat k) by lia. rewrite list_lookup_insert_eq by lia.
      do 2 f_equal. lia.
    + rewrite list_lookup_insert_ne by lia.
      destruct (decide (k + 1 ≤ Z.of_nat i < k + 1 + Z.of_nat (length rest))) as [Hin|Hout].
      * rewrite decide_True by lia.
        replace (i - Z.to_nat k)%nat with (S (i - Z.to_nat (k + 1)))%nat by lia. done.
      * rewrite decide_False by lia. done.
Qed.

Lemma NewStore_field (seeds : list SeedUser) (s1 : Store) :
  seedLoop (emptyStore (length seeds)) 0 seeds = Some s1 →
  length (field (emptyStore (length seeds))) = length seeds →
  field s1 = imap (λ i, value (Z.of_nat i)) seeds.
Proof.
  intros H1 Hlen. apply list_eq. intros i.
  rewrite (seedLoop_field _ _ _ _ H1) by (unfold len; lia).
  rewrite list_lookup_imap. unfold len. case_decide as Hi.
  - change (Z.to_nat 0) with 0%nat. by rewrite Nat.sub_0_r.
  - rewrite !lookup_ge_None_2; [done|lia..].
Qed.

End SeedField.

Lemma imap_const_fmap {A B} (f : A → B) (l : list A) : imap (λ _, f) l = f <$> l.
Proof.
  apply list_eq. intros i. by rewrite list_lookup_imap, list_lookup_fmap.
Qed.

Lemma NewStore_contents (seeds : list SeedUser) (s : Store) :
  NewStore seeds = Some s →
  users s = imap (λ i seed, {| User_ID := Z.of_nat i; User_Username := Seed_Username seed |}) seeds ∧
  ratings s = (λ seed, clampRating (Seed_Rating seed)) <$> seeds.
Proof.
  unfold NewStore. intros H.
  destruct (seedLoop _ 0 seeds) as [s1|] eqn:H1; [|done]. rewrite bind_Some in H.
  injection H as <-. fields. split.
  - apply (NewStore_field users (λ k seed, {| User_ID := k; User_Username := Seed_Username seed |}));
      [|done|apply length_replicate].
    intros s k seed s' Hs. by destruct (seedUser_fields _ _ _ _ Hs) as (_ & -> & _).
  - rewrite <- imap_const_fmap.
    apply (NewStore_field ratings (λ _ seed, clampRating (Seed_Rating seed)));
      [|done|apply length_replicate].
    intros s k seed s' Hs. by destruct (seedUser_fields _ _ _ _ Hs) as (_ & _ & ->).
Qed.

(** X1: [NewStore] returns for every slice of seeds, and the store it returns
    holds them in the order given: user [id] is seed [id], with the seed's
    name as display name and its rating clamped into [[100, 5000]]; the
    snapshot is empty and the bucket and index invariants hold.  Where the
    names are ASCII, the search names are the names with [A]-[Z] turned
    into [a]-[z]. *)
Theorem NewStore_stores_seeds (seeds : list SeedUser) :
  len seeds < maxUsers →
  ∃ s, NewStore seeds = Some s ∧
       totalUsers s = len seeds ∧
       users s = imap (λ i seed, {| User_ID := Z.of_nat i;
                                    User_Username := Seed_Username seed |}) seeds ∧
       ratings s = (λ seed, clampRating (Seed_Rating seed)) <$> seeds ∧
       (Forall (λ seed, isASCII (Seed_Username seed) = true) seeds →
        usernameLower s = (λ seed, ToLower (Seed_Username seed)) <$> seeds) ∧
       snapshot s = [] ∧ StoreOK s.
Proof.
  intros Hn. destruct (NewStore_ok seeds Hn) as (s & Hs & Hok & Ht & Hsnap).
  destruct (NewStore_contents _ _ Hs) as [Hu Hr].
  exists s. split; [done|]. split; [done|]. split; [done|]. split; [done|].
  split; [intros _; by apply NewStore_names|]. by split.
Qed.

Lemma NewStore_stores_seeds_witness :
  ∃ s, NewStore fixture = Some s ∧
       ratings s = [1500; 1500; 1700; 900; 5000] ∧
       usernameLower s = ["alice"; "bob"; "carol"; "dave"; "eve"]%string.
Proof.
  destruct (NewStore_stores_seeds fixture) as (s & Hs & _ & _ & Hr & Hl & _).
  - unfold len, maxUsers. simpl. lia.
  - exists s. split; [exact Hs|]. split; [rewrite Hr; reflexivity|].
    rewrite Hl; [reflexivity|]. repeat constructor.
Defined.
(** ** What a rank counts *)

Lemma counts_are_lengths (s : Store) :
  BucketsOK (totalUsers s) s → ratingCounts s = len <$> ratingBuckets s.
Proof.
  intros Hok. apply list_eq. intros i. rewrite list_lookup_fmap.
  destruct (ratingBuckets s !! i) as [bucket|] eqn:Hb; simpl.
  - assert (Hb' : at_ (ratingBuckets s) (Z.of_nat i) = Some bucket).
    { apply at_Some. rewrite Nat2Z.id. split; [lia|done]. }
    apply (bk_counts _ _ Hok) in Hb'. apply at_Some in Hb' as [_ Hc].
    by rewrite Nat2Z.id in Hc.
  - apply lookup_ge_None in Hb. apply lookup_ge_None.
    pose proof (bk_buckets_len _ _ Hok). pose proof (bk_counts_len _ _ Hok).
    unfold len in *. lia.
Qed.

Lemma sumZ_lens {A} (ls : list (list A)) : sumZ (len <$> ls) = len (concat ls).
Proof.
  induction ls as [|l ls IH]; [done|].
  rewrite fmap_cons, sumZ_cons, IH. cbn [concat]. by rewrite len_app.
Qed.

(** The ids in the buckets above rating [r] are the users rated above [r]. *)
Lemma higher_rated_ids (s : Store) (r : Z) :
  BucketsOK (totalUsers s) s → minRating ≤ r ≤ maxRating →
  Permutation (concat (drop (Z.to_nat (r - minRating + 1)) (ratingBuckets s)))
              (filter (λ id, r < ratingOf s id) (seqZ 0 (totalUsers s))).
Proof.
  intros Hok Hr. set (n := Z.to_nat (r - minRating + 1)).
  apply NoDup_Permutation.
  - assert (Hnd : NoDup (concat (ratingBuckets s))).
    { rewrite (bucket_ids_perm s Hok). apply NoDup_seqZ. }
    rewrite <- (take_drop n (ratingBuckets s)), concat_app in Hnd.
    by apply NoDup_app in Hnd as (_ & _ & Hnd).
  - apply NoDup_filter, NoDup_seqZ.
  - intros x. rewrite elem_of_concat, list_elem_of_filter, elem_of_seqZ. split.
    + intros (l & Hx & Hl).
      apply list_elem_of_lookup in Hx as [p Hp]. apply list_elem_of_lookup in Hl as [j Hj].
      rewrite lookup_drop in Hj.
      assert (Hb' : at_ (ratingBuckets s) (Z.of_nat (n + j)) = Some l).
      { apply at_Some. rewrite Nat2Z.id. split; [lia|done]. }
      assert (Hp' : at_ l (Z.of_nat p) = Some x).
      { apply at_Some. rewrite Nat2Z.id. split; [lia|done]. }
      destruct (bk_unique _ _ Hok _ _ _ _ Hb' Hp') as (Hx & Hrx & _).
      split; [|lia]. unfold ratingOf. rewrite Hrx. simpl. lia.
    + intros [Hgt Hx].
      destruct (bk_member _ _ Hok x) as (r' & bucket & pos & Hrx & Hr' & Hb & _ & Hp); [lia|].
      unfold ratingOf in Hgt. rewrite Hrx in Hgt. simpl in Hgt.
      exists bucket. apply at_Some in Hb as [_ Hb]. apply at_Some in Hp as [_ Hp].
      split; [by eapply list_elem_of_lookup_2|].
      apply list_elem_of_lookup. exists (Z.to_nat (r' - minRating) - n)%nat.
      rewrite lookup_drop. replace (n + (Z.to_nat (r' - minRating) - n))%nat
        with (Z.to_nat (r' - minRating)) by lia. done.
Qed.

Lemma countAbove_users (s : Store) (r : Z) :
  BucketsOK (totalUsers s) s → minRating ≤ r ≤ maxRating →
  countAbove s r = len (filter (λ id, r < ratingOf s id) (seqZ 0 (totalUsers s))).
Proof.
  intros Hok Hr.
  rewrite countAbove_drop by (done || apply Hok).
  rewrite (counts_are_lengths s Hok), <- fmap_drop, sumZ_lens.
  unfold len. by rewrite (higher_rated_ids s r Hok Hr).
Qed.

Lemma rank_users (s : Store) (r : Z) :
  BucketsOK (totalUsers s) s →
  rank s r = Some (1 + len (filter (λ id, clampRating r < ratingOf s id)
                                   (seqZ 0 (totalUsers s)))).
Proof.
  intros Hok. rewrite rank_value by by eapply BucketsOK_counters.
  by rewrite countAbove_users by (done || apply clampRating_range).
Qed.

(** X2: the rank of a rating is one more than the number of users whose
    rating is strictly higher, whenever the bucket invariants hold: the
    counters that [rank] adds up stand for users. *)
Theorem rank_counts_higher_rated (s : Store) (r : Z) :
  StoreOK s →
  rank s r = Some (1 + len (filter (λ id, clampRating r < ratingOf s id)
                                   (seqZ 0 (totalUsers s)))).
Proof. intros [Hok _]. by apply rank_users. Qed.

Lemma rank_counts_higher_rated_witness :
  ∃ s, NewStore fixture = Some s ∧
       rank s 1500 = Some (1 + len (filter (λ id, clampRating 1500 < ratingOf s id)
                                           (seqZ 0 (totalUsers s)))).
Proof.
  destruct fixture_store as (s & Hs & _ & Hok & _).
  exists s. split; [exact Hs|]. exact (rank_counts_higher_rated s 1500 Hok).
Defined.

Lemma ratingOf_range (s : Store) (id : Z) :
  BucketsOK (totalUsers s) s → 0 ≤ id < totalUsers s →
  at_ (ratings s) id = Some (ratingOf s id) ∧ minRating ≤ ratingOf s id ≤ maxRating.
Proof.
  intros Hok Hid.
  destruct (bk_member _ _ Hok id Hid) as (r & _ & _ & Hr & Hrange & _).
  unfold ratingOf. rewrite Hr. done.
Qed.

(** X3: the rank of every user lies between 1 and the number of users, and
    when there is a user at all, some user has rank 1. *)
Theorem rank_between_one_and_count (s : Store) :
  StoreOK s →
  (∀ id, 0 ≤ id < totalUsers s →
     ∃ k, rank s (ratingOf s id) = Some k ∧ 1 ≤ k ≤ totalUsers s) ∧
  (1 ≤ totalUsers s →
     ∃ id, 0 ≤ id < totalUsers s ∧ rank s (ratingOf s id) = Some 1).
Proof.
  intros Hsok. pose proof Hsok as [Hok _]. split.
  - intros id Hid. eexists. split; [by apply rank_users|].
    destruct (ratingOf_range s id Hok Hid) as [_ Hr].
    rewrite clampRating_id by done.
    pose proof (length_filter_lt (λ x, ratingOf s id < ratingOf s x)
                  (seqZ 0 (totalUsers s)) id) as Hlt.
    assert (Hin : id ∈ seqZ 0 (totalUsers s)) by (apply elem_of_seqZ; lia).
    specialize (Hlt Hin (Z.lt_irrefl _)).
    rewrite length_seqZ in Hlt. unfold len. lia.
  - intros HN. destruct (buildSnapshot_spec s Hsok) as (snap & _ & Hperm & Hsorted).
    destruct snap as [|top rest].
    { apply Permutation_length in Hperm. rewrite length_seqZ in Hperm. simpl in Hperm. lia. }
    assert (Htop : 0 ≤ top < totalUsers s).
    { assert (top ∈ seqZ 0 (totalUsers s)) as Hin; [|apply elem_of_seqZ in Hin; lia].
      rewrite <- Hperm. left. }
    exists top. split; [done|]. rewrite (rank_users s _ Hok).
    destruct (ratingOf_range s top Hok Htop) as [_ Hr]. rewrite clampRating_id by done.
    rewrite filter_none; [done|].
    apply Forall_forall. intros x Hx. rewrite <- Hperm in Hx.
    apply StronglySorted_inv in Hsorted as [_ Hall].
    apply elem_of_cons in Hx as [->|Hx]; [lia|].
    rewrite Forall_forall in Hall. specialize (Hall x Hx).
    unfold byRatingName in Hall. lia.
Qed.

Lemma rank_between_one_and_count_witness :
  ∃ s, NewStore fixture = Some s ∧
       ∃ k, rank s (ratingOf s 3) = Some k ∧ 1 ≤ k ≤ totalUsers s.
Proof.
  destruct fixture_store as (s & Hs & _ & Hok & Ht).
  exists s. split; [exact Hs|].
  apply (proj1 (rank_between_one_and_count s Hok)). rewrite Ht. lia.
Defined.
(** ** What a rating update does *)

Lemma updateUserRating_some (s : Store) (id newRating : Z) (s' : Store) :
  BucketsOK (totalUsers s) s → is_int newRating →
  updateUserRating s id newRating = Some s' →
  0 ≤ id < totalUsers s ∧ minRating ≤ newRating ≤ maxRating.
Proof.
  intros Hok Hint Hup. unfold updateUserRating in Hup.
  destruct (at_ (ratings s) id) as [old|] eqn:Hr; [|done]. simpl in Hup.
  pose proof (at_lt _ _ _ Hr) as Hid. rewrite (bk_ratings_len _ _ Hok) in Hid.
  split; [done|].
  destruct (decide (old = newRating)) as [->|Hne].
  { destruct (ratingOf_range s id Hok Hid) as [Hr' Hrange]. congruence. }
  destruct (at_ (ratingBuckets s) (int_sub old minRating)) as [oB|] eqn:HoB; [|done].
  simpl in Hup.
  destruct (at_ (bucketIndex s) id) as [p|]; [|done]. simpl in Hup.
  destruct (at_ oB (int_sub (len oB) 1)) as [l|]; [|done]. simpl in Hup.
  destruct (set_at oB p l) as [oB'|]; [|done]. simpl in Hup.
  destruct (set_at (bucketIndex s) l p) as [X'|]; [|done]. simpl in Hup.
  destruct (slice oB' 0 (int_sub (len oB') 1)) as [oB''|]; [|done]. simpl in Hup.
  destruct (set_at (ratingBuckets s) (int_sub old minRating) oB'') as [B'|] eqn:HB'; [|done].
  simpl in Hup.
  destruct (at_ B' (int_sub newRating minRating)) as [nB|] eqn:HnB; [|done].
  apply set_at_inv in HB' as [_ ->]. apply at_lt in HnB.
  rewrite len_insert, (bk_buckets_len _ _ Hok) in HnB.
  clear -HnB Hint. unfold int_sub, wrap64, is_int, ratingRange, minRating, maxRating in *.
  Z.to_euclidean_division_equations. lia.
Qed.

(** X4: [updateUserRating] panics on an id that is not a user and on a
    rating outside [[100, 5000]]: it never stores a rating the buckets
    have no place for. *)
Theorem updateUserRating_rejects (s : Store) (id newRating : Z) :
  StoreOK s → is_int newRating →
  ¬ (0 ≤ id < totalUsers s) ∨ ¬ (minRating ≤ newRating ≤ maxRating) →
  updateUserRating s id newRating = None.
Proof.
  intros [Hok _] Hint Hbad.
  destruct (updateUserRating s id newRating) as [s'|] eqn:Hup; [|done].
  destruct (updateUserRating_some _ _ _ _ Hok Hint Hup). tauto.
Qed.

Lemma updateUserRating_rejects_witness :
  ∃ s, NewStore fixture = Some s ∧
       updateUserRating s 5 1500 = None ∧ updateUserRating s 1 5001 = None.
Proof.
  destruct fixture_store as (s & Hs & _ & Hok & Ht).
  exists s. split; [exact Hs|]. split.
  - apply (updateUserRating_rejects s 5 1500 Hok); [unfold is_int; lia|].
    left. rewrite Ht. lia.
  - apply (updateUserRating_rejects s 1 5001 Hok); [unfold is_int; lia|].
    right. unfold minRating, maxRating. lia.
Defined.

Lemma counterOf_at (s : Store) (k : Z) :
  len (ratingCounts s) = ratingRange → minRating ≤ k ≤ maxRating →
  at_ (ratingCounts s) (k - minRating) = Some (counterOf s k).
Proof.
  intros Hlen Hk. unfold counterOf.
  destruct (at_is_Some (ratingCounts s) (k - minRating)) as [c Hc].
  { rewrite Hlen. unfold ratingRange. lia. }
  by rewrite Hc.
Qed.

(** The store after a move, field by field. *)
Lemma updateUserRating_shape (s : Store) (id newRating : Z) :
  BucketsOK (totalUsers s) s →
  0 ≤ id < totalUsers s →
  minRating ≤ newRating ≤ maxRating →
  ratingOf s id ≠ newRating →
  ∃ s', updateUserRating s id newRating = Some s' ∧
        ratings s' = <[Z.to_nat id := newRating]> (ratings s) ∧
        ratingCounts s' =
          <[Z.to_nat (newRating - minRating) := counterOf s newRating + 1]>
            (<[Z.to_nat (ratingOf s id - minRating) := counterOf s (ratingOf s id) - 1]>
               (ratingCounts s)) ∧
        totalUsers s' = totalUsers s ∧ users s' = users s ∧
        usernameLower s' = usernameLower s ∧ usernameIndex s' = usernameIndex s ∧
        snapshot s' = snapshot s.
Proof.
  intros Hok Hid Hnew Hne.
  destruct (bk_member _ _ Hok id Hid) as (old & oB & p & Hr & Hold & HoB & Hx & Hp).
  assert (Hro : ratingOf s id = old) by (unfold ratingOf; by rewrite Hr).
  rewrite Hro in *.
  pose proof (at_lt _ _ _ Hp) as Hplt.
  destruct (at_is_Some oB (len oB - 1)) as [l Hl]; [lia|].
  destruct (bk_unique _ _ Hok _ _ _ _ HoB Hl) as (Hlid & Hlr & Hlx).
  destruct (at_is_Some (ratingBuckets s) (newRating - minRating)) as [nB HnB].
  { rewrite (bk_buckets_len _ _ Hok). unfold ratingRange. lia. }
  pose proof (bk_counts _ _ Hok _ _ HoB) as Hco.
  pose proof (bk_counts _ _ Hok _ _ HnB) as Hcn.
  pose proof (bucket_len_le _ _ _ _ Hok HoB) as Hlo.
  pose proof (bucket_len_le _ _ _ _ Hok HnB) as Hln.
  pose proof (bk_bound _ _ Hok) as [_ Hbound].
  pose proof (bk_backref_len _ _ Hok) as HXlen.
  eexists. split.
  { eapply updateUserRating_move; eauto; lia. }
  fields. split; [done|]. split; [|done].
  unfold counterOf. by rewrite Hco, Hcn.
Qed.

Lemma updateUserRating_changes (s : Store) (id newRating : Z) (s' : Store) :
  StoreOK s → is_int newRating →
  updateUserRating s id newRating = Some s' →
  StoreOK s' ∧
  (∀ j, ratingOf s' j = if decide (j = id) then newRating else ratingOf s j) ∧
  (∀ k, minRating ≤ k ≤ maxRating →
     counterOf s' k = counterOf s k + (if decide (k = newRating) then 1 else 0)
                                    - (if decide (k = ratingOf s id) then 1 else 0)) ∧
  users s' = users s ∧ usernameLower s' = usernameLower s ∧
  usernameIndex s' = usernameIndex s ∧ snapshot s' = snapshot s ∧
  totalUsers s' = totalUsers s.
Proof.
  intros Hsok Hint Hup. pose proof Hsok as [Hok _].
  destruct (updateUserRating_ok _ _ _ _ Hsok Hint Hup) as [Hsok' _].
  split; [done|].
  destruct (updateUserRating_some _ _ _ _ Hok Hint Hup) as [Hid Hnew].
  destruct (ratingOf_range s id Hok Hid) as [Hr Hold].
  destruct (decide (ratingOf s id = newRating)) as [Heq|Hne].
  { assert (s' = s) as ->.
    { unfold updateUserRating in Hup. rewrite Hr in Hup. simpl in Hup.
      rewrite decide_True in Hup by done. congruence. }
    split; [intros j; case_decide; congruence|].
    split; [intros k _; repeat case_decide; lia || congruence|]. done. }
  destruct (updateUserRating_shape s id newRating Hok Hid Hnew Hne)
    as (s'' & Hup' & HR & HC & Hrest).
  rewrite Hup in Hup'. injection Hup' as <-.
  pose proof (bk_ratings_len _ _ Hok) as HRlen.
  pose proof (bk_counts_len _ _ Hok) as HClen.
  split; [|split; [|tauto]].
  - intros j. unfold ratingOf at 1. rewrite HR. at_norm.
    case_decide; case_decide; done || congruence.
  - intros k Hk. unfold counterOf at 1. rewrite HC.
    pose proof (counterOf_at s k HClen Hk) as Hck.
    unfold ratingRange, minRating, maxRating in *.
    at_norm. rewrite Hck.
    repeat case_decide; simpl; try lia; try (exfalso; lia).
    all: subst k; lia.
Qed.

(** X5: a rating update changes the rating of that one user and the two
    counters concerned, and nothing else a reader can see: every other
    rating, every name, the username index and the published snapshot stay
    as they were, and the invariants hold afterwards. *)
Theorem updateUserRating_effect (s : Store) (id newRating : Z) (s' : Store) :
  StoreOK s → is_int newRating →
  updateUserRating s id newRating = Some s' →
  StoreOK s' ∧
  (∀ j, ratingOf s' j = if decide (j = id) then newRating else ratingOf s j) ∧
  (∀ k, minRating ≤ k ≤ maxRating →
     counterOf s' k = counterOf s k + (if decide (k = newRating) then 1 else 0)
                                    - (if decide (k = ratingOf s id) then 1 else 0)) ∧
  users s' = users s ∧ usernameLower s' = usernameLower s ∧
  usernameIndex s' = usernameIndex s ∧ snapshot s' = snapshot s ∧
  totalUsers s' = totalUsers s.
Proof. apply updateUserRating_changes. Qed.

Lemma updateUserRating_effect_witness :
  ∃ s s', NewStore fixture = Some s ∧ updateUserRating s 1 1700 = Some s' ∧
          ratingOf s' 1 = 1700 ∧ ratingOf s' 0 = ratingOf s 0 ∧
          snapshot s' = snapshot s.
Proof.
  destruct fixture_store as (s & Hs & _ & Hok & Ht).
  destruct (updateUserRating_moves s 1 1700) as (s' & Hup & _).
  { apply Hok. } { rewrite Ht. lia. } { unfold minRating, maxRating. lia. }
  exists s, s'. split; [exact Hs|]. split; [exact Hup|].
  destruct (updateUserRating_effect s 1 1700 s' Hok) as (_ & Hr & _ & _ & _ & _ & Hsnap & _).
  { unfold is_int. lia. } { exact Hup. }
  split; [exact (Hr 1)|]. split; [exact (Hr 0)|exact Hsnap].
Defined.

Lemma sumZ_drop_insert (l : list Z) (n i : nat) (c v : Z) :
  l !! i = Some c →
  sumZ (drop n (<[i := v]> l)) = sumZ (drop n l) + (if decide (n ≤ i)%nat then v - c else 0).
Proof.
  intros Hc. case_decide as Hni.
  - rewrite drop_insert_ge by done.
    rewrite (sumZ_insert _ _ c); [lia|]. rewrite lookup_drop.
    by replace (n + (i - n))%nat with i by lia.
  - rewrite drop_insert_lt by lia. lia.
Qed.

Lemma countAbove_after_move (s s' : Store) (old new q : Z) :
  len (ratingCounts s) = ratingRange →
  minRating ≤ old ≤ maxRating → minRating ≤ new ≤ maxRating → old ≠ new →
  minRating ≤ q ≤ maxRating →
  ratingCounts s' =
    <[Z.to_nat (new - minRating) := counterOf s new + 1]>
      (<[Z.to_nat (old - minRating) := counterOf s old - 1]> (ratingCounts s)) →
  countAbove s' q = countAbove s q + (if decide (q < new) then 1 else 0)
                                   - (if decide (q < old) then 1 else 0).
Proof.
  intros Hlen Hold Hnew Hne Hq HC.
  rewrite !countAbove_drop by (done || rewrite HC, !len_insert; done).
  rewrite HC.
  pose proof (counterOf_at s old Hlen Hold) as Hco. apply at_Some in Hco as [_ Hco].
  pose proof (counterOf_at s new Hlen Hnew) as Hcn. apply at_Some in Hcn as [_ Hcn].
  erewrite sumZ_drop_insert.
  2:{ rewrite list_lookup_insert_ne by lia. exact Hcn. }
  erewrite sumZ_drop_insert by exact Hco.
  repeat case_decide; lia.
Qed.

(** X6: the move of one user from rating [old] to rating [new] shifts the
    rank of a rating [q] by one exactly when the user crosses it: up by one
    when [old <= q < new], down by one when [new <= q < old], and not at
    all otherwise. *)
Theorem updateUserRating_shifts_ranks (s : Store) (id newRating : Z) (s' : Store) (q : Z) :
  StoreOK s → is_int newRating →
  updateUserRating s id newRating = Some s' →
  ∃ k, rank s q = Some k ∧
       rank s' q = Some (k + (if decide (clampRating q < newRating) then 1 else 0)
                           - (if decide (clampRating q < ratingOf s id) then 1 else 0)).
Proof.
  intros Hsok Hint Hup. pose proof Hsok as [Hok _].
  destruct (updateUserRating_ok _ _ _ _ Hsok Hint Hup) as [[Hok' _] _].
  destruct (updateUserRating_some _ _ _ _ Hok Hint Hup) as [Hid Hnew].
  destruct (ratingOf_range s id Hok Hid) as [Hr Hold].
  eexists. split; [apply rank_value; by eapply BucketsOK_counters|].
  rewrite rank_value by by eapply BucketsOK_counters.
  destruct (decide (ratingOf s id = newRating)) as [Heq|Hne].
  { assert (s' = s) as ->.
    { unfold updateUserRating in Hup. rewrite Hr in Hup. simpl in Hup.
      rewrite decide_True in Hup by done. congruence. }
    rewrite Heq. f_equal. repeat case_decide; lia. }
  destruct (updateUserRating_shape s id newRating Hok Hid Hnew Hne)
    as (s'' & Hup' & _ & HC & _).
  rewrite Hup in Hup'. injection Hup' as <-.
  rewrite (countAbove_after_move s s' (ratingOf s id) newRating (clampRating q));
    [f_equal; lia|apply Hok|done|done|done|apply clampRating_range|done].
Qed.

Lemma updateUserRating_shifts_ranks_witness :
  ∃ s s', NewStore fixture = Some s ∧ updateUserRating s 1 1700 = Some s' ∧
  ∃ k, rank s 1600 = Some k ∧
       rank s' 1600 = Some (k + (if decide (clampRating 1600 < 1700) then 1 else 0)
                              - (if decide (clampRating 1600 < ratingOf s 1) then 1 else 0)).
Proof.
  destruct fixture_store as (s & Hs & _ & Hok & Ht).
  destruct (updateUserRating_moves s 1 1700) as (s' & Hup & _).
  { apply Hok. } { rewrite Ht. lia. } { unfold minRating, maxRating. lia. }
  exists s, s'. split; [exact Hs|]. split; [exact Hup|].
  apply (updateUserRating_shifts_ranks s 1 1700 s' 1600 Hok); [unfold is_int; lia|exact Hup].
Defined.
(** ** The mutator goroutine *)

Lemma applyDelta_step (s : Store) (id delta : Z) :
  StoreOK s → 0 ≤ id < totalUsers s →
  ∃ s', applyDelta s id delta = Some s' ∧ StoreOK s' ∧
        (∀ j, ratingOf s' j =
              if decide (j = id) then clampRating (int_add (ratingOf s id) delta)
              else ratingOf s j) ∧
        (clampRating (int_add (ratingOf s id) delta) = ratingOf s id → s' = s) ∧
        users s' = users s ∧ usernameLower s' = usernameLower s ∧
        usernameIndex s' = usernameIndex s ∧ snapshot s' = snapshot s ∧
        totalUsers s' = totalUsers s.
Proof.
  intros Hsok Hid. pose proof Hsok as [Hok _].
  destruct (ratingOf_range s id Hok Hid) as [Hr Hold].
  unfold applyDelta. rewrite Hr, bind_Some. cbv zeta.
  set (new := clampRating (int_add (ratingOf s id) delta)).
  case_decide as Hne.
  - destruct (updateUserRating_moves s id new Hok Hid (clampRating_range _)) as (s' & Hup & _).
    destruct (updateUserRating_changes s id new s' Hsok (clampRating_int _) Hup)
      as (Hsok' & HR & _ & Hrest).
    exists s'. split; [done|]. split; [done|]. split; [done|]. split; [done|]. done.
  - exists s. split; [done|]. split; [done|].
    split; [intros j; case_decide; subst; lia || done|]. done.
Qed.

Lemma clampRating_near (old delta : Z) :
  minRating ≤ old ≤ maxRating → - 2 ^ 62 ≤ delta ≤ 2 ^ 62 →
  clampRating (int_add old delta) = clampRating (old + delta) ∧
  Z.abs (clampRating (old + delta) - old) ≤ Z.abs delta.
Proof.
  intros Hold Hd. rewrite int_add_id.
  - split; [done|]. unfold clampRating, minRating, maxRating in *. repeat case_decide; lia.
  - unfold is_int, minRating, maxRating in *. lia.
Qed.

(** X7: one item [(id, delta)] of a batch, for a user [id]: the user's
    rating becomes [clampRating (old + delta)], so it stays in
    [[100, 5000]] and moves by [|delta|] at most; nothing else changes, and
    when the clamped rating is the old one (a user at 5000 who gains, a
    user at 100 who loses) the store is left as it is. *)
Theorem applyDelta_clamps (s : Store) (id delta : Z) :
  StoreOK s → 0 ≤ id < totalUsers s → - 2 ^ 62 ≤ delta ≤ 2 ^ 62 →
  ∃ s', applyDelta s id delta = Some s' ∧ StoreOK s' ∧
        ratingOf s' id = clampRating (ratingOf s id + delta) ∧
        minRating ≤ ratingOf s' id ≤ maxRating ∧
        Z.abs (ratingOf s' id - ratingOf s id) ≤ Z.abs delta ∧
        (∀ j, j ≠ id → ratingOf s' j = ratingOf s j) ∧
        (ratingOf s' id = ratingOf s id → s' = s) ∧
        users s' = users s ∧ usernameLower s' = usernameLower s ∧
        usernameIndex s' = usernameIndex s ∧ snapshot s' = snapshot s.
Proof.
  intros Hsok Hid Hd.
  destruct (applyDelta_step s id delta Hsok Hid) as (s' & Hs' & Hsok' & HR & Hsame & Hrest).
  destruct (ratingOf_range s id (proj1 Hsok) Hid) as [_ Hold].
  destruct (clampRating_near _ _ Hold Hd) as [Hc Hnear].
  pose proof (HR id) as Hrid. rewrite decide_True, Hc in Hrid by done.
  exists s'. split; [done|]. split; [done|]. split; [done|].
  split; [rewrite Hrid; apply clampRating_range|].
  split; [by rewrite Hrid|].
  split; [intros j Hj; by rewrite HR, decide_False|].
  split; [intros Heq; apply Hsame; congruence|]. tauto.
Qed.

Lemma applyDelta_clamps_witness :
  ∃ s s', NewStore fixture = Some s ∧ applyDelta s 4 50 = Some s' ∧
          ratingOf s' 4 = clampRating (ratingOf s 4 + 50).
Proof.
  destruct fixture_store as (s & Hs & _ & Hok & Ht).
  destruct (applyDelta_clamps s 4 50 Hok) as (s' & Hs' & _ & Hr & _).
  { rewrite Ht. lia. } { lia. }
  exists s, s'. split; [exact Hs|]. split; [exact Hs'|exact Hr].
Defined.

Lemma applyItem_applyDelta (s : Store) (changed : bool) (item : Z * Z) :
  fst <$> applyItem s changed item = applyDelta s item.1 item.2.
Proof.
  unfold applyItem, applyDelta.
  destruct (at_ (ratings s) item.1) as [old|]; [|done]. rewrite !bind_Some. cbv zeta.
  case_decide; [|done].
  by destruct (updateUserRating s item.1 _).
Qed.

Lemma applyItems_applyBatch (batch : list (Z * Z)) : ∀ s changed,
  fst <$> applyItems s changed batch = applyBatch s batch.
Proof.
  induction batch as [|[id delta] rest IH]; intros s changed; [done|].
  cbn [applyItems applyBatch].
  pose proof (applyItem_applyDelta s changed (id, delta)) as E. cbn [fst snd] in E.
  destruct (applyItem s changed (id, delta)) as [[s1 c1]|]; simpl in E; rewrite <- E; [|done].
  rewrite !bind_Some. apply IH.
Qed.

Lemma applyItems_true (batch : list (Z * Z)) : ∀ s s' changed,
  applyItems s true batch = Some (s', changed) → changed = true.
Proof.
  induction batch as [|item rest IH]; intros s s' changed H; cbn [applyItems] in H.
  - congruence.
  - destruct (applyItem s true item) as [[s1 c1]|] eqn:H1; [|done]. rewrite bind_Some in H.
    assert (c1 = true) as ->; [|by eapply IH].
    unfold applyItem in H1.
    destruct (at_ (ratings s) item.1) as [old|]; [|done]. rewrite bind_Some in H1.
    cbv zeta in H1. case_decide; [|congruence].
    destruct (updateUserRating s item.1 _); [|done]. rewrite bind_Some in H1. congruence.
Qed.

Lemma applyItems_safe (batch : list (Z * Z)) : ∀ (s : Store) (bound : Z),
  StoreOK s → 0 ≤ bound ≤ 2 ^ 62 → batchFor s bound batch →
  ∃ s' changed, applyItems s false batch = Some (s', changed) ∧ StoreOK s' ∧
        (changed = false → s' = s) ∧
        (∀ j, Z.abs (ratingOf s' j - ratingOf s j) ≤ bound * len batch) ∧
        users s' = users s ∧ usernameLower s' = usernameLower s ∧
        usernameIndex s' = usernameIndex s ∧ snapshot s' = snapshot s ∧
        totalUsers s' = totalUsers s.
Proof.
  induction batch as [|item rest IH]; intros s bound Hsok Hb Hfor.
  - exists s, false. split; [done|]. split; [done|]. split; [done|].
    split; [intros j; unfold len; simpl; lia|]. done.
  - apply Forall_cons in Hfor as [[Hid Hd] Hfor].
    destruct (applyDelta_step s item.1 item.2 Hsok Hid)
      as (s1 & H1 & Hsok1 & HR1 & Hsame1 & HU1 & HL1 & HI1 & HS1 & HT1).
    destruct (ratingOf_range s item.1 (proj1 Hsok) Hid) as [Hr Hold].
    destruct (clampRating_near (ratingOf s item.1) item.2 Hold) as [Hc Hnear]; [lia|].
    destruct (IH s1 bound Hsok1 Hb) as (s' & c & H' & Hsok' & Hc' & HR' & HU' & HL' & HI' & HS' & HT').
    { unfold batchFor. by rewrite HT1. }
    assert (Hdrift : ∀ j, Z.abs (ratingOf s' j - ratingOf s j) ≤ bound * len (item :: rest)).
    { intros j. specialize (HR' j). rewrite HR1 in HR'.
      unfold len in *. cbn [length]. case_decide; [subst j; rewrite Hc in HR'|]; lia. }
    cbn [applyItems]. unfold applyItem. rewrite Hr, bind_Some. cbv zeta.
    unfold applyDelta in H1. rewrite Hr, bind_Some in H1. cbv zeta in H1.
    case_decide as Hne.
    + rewrite H1, !bind_Some.
      destruct (applyItems s1 true rest) as [[s2 c2]|] eqn:H2.
      * exists s2, c2. pose proof (applyItems_true _ _ _ _ H2) as ->.
        pose proof (applyItems_applyBatch rest s1 true) as Hfst.
        rewrite <- (applyItems_applyBatch rest s1 false) in Hfst.
        rewrite H2, H' in Hfst. simpl in Hfst. injection Hfst as ->.
        split; [done|]. split; [done|]. split; [done|]. split; [done|].
        split; [congruence|]. split; [congruence|]. split; [congruence|]. split; congruence.
      * exfalso.
        pose proof (applyItems_applyBatch rest s1 true) as Hfst.
        rewrite <- (applyItems_applyBatch rest s1 false) in Hfst.
        rewrite H2, H' in Hfst. done.
    + injection H1 as <-. rewrite bind_Some, H'.
      exists s', c. split; [done|]. split; [done|]. split; [done|]. split; [done|]. done.
Qed.

Lemma randomBatch_items (src : Z → Z) (n : Z) (k : nat) : 1 ≤ n → ∀ pos,
  ∃ batch, randomBatch src pos n k = Some (batch, pos + 2 * Z.of_nat k) ∧
           length batch = k ∧
           Forall (λ item, 0 ≤ item.1 < n ∧ Z.abs item.2 ≤ 50) batch.
Proof.
  intros Hn. induction k as [|k IH]; intros pos.
  - exists []. split; [simpl; do 2 f_equal; lia|]. done.
  - destruct (IH (pos + 1 + 1)) as (rest & Hrest & Hlen & Hall).
    eexists. cbn [randomBatch]. unfold Intn at 1 2.
    rewrite decide_False by lia. rewrite bind_Some. cbv beta iota.
    rewrite decide_False by lia. rewrite bind_Some. cbv beta iota.
    rewrite Hrest, bind_Some. cbv beta iota.
    split; [do 2 f_equal; lia|]. split; [simpl; lia|].
    apply Forall_cons. split; [|done]. cbn [fst snd].
    pose proof (Z.mod_pos_bound (src pos) n). pose proof (Z.mod_pos_bound (src (pos + 1)) 101).
    rewrite int_sub_id by (unfold is_int; lia). lia.
Qed.

Lemma tick_step (s : Store) (updatesPerTick : Z) (src : Z → Z) (pos : Z) :
  StoreOK s → 1 ≤ totalUsers s → 0 ≤ updatesPerTick ≤ 2 ^ 32 →
  ∃ s' changed,
    tick s updatesPerTick src pos = Some (s', changed, pos + 2 * updatesPerTick) ∧
    StoreOK s' ∧ (changed = false → s' = s) ∧
    (∀ j, Z.abs (ratingOf s' j - ratingOf s j) ≤ 50 * updatesPerTick) ∧
    users s' = users s ∧ usernameLower s' = usernameLower s ∧
    usernameIndex s' = usernameIndex s ∧ snapshot s' = snapshot s ∧
    totalUsers s' = totalUsers s.
Proof.
  intros Hsok HN Hu. pose proof Hsok as [_ Hix].
  pose proof (ix_users_len _ Hix) as Hlen.
  destruct (randomBatch_items src (len (users s)) (Z.to_nat updatesPerTick)) with (pos := pos)
    as (batch & Hb & Hblen & Hall); [lia|].
  destruct (applyItems_safe batch s 50 Hsok) as (s' & c & H' & Hsok' & Hc & HR & Hrest).
  { lia. } { unfold batchFor. by rewrite <- Hlen. }
  exists s', c. unfold tick. rewrite Hb, bind_Some. cbn -[Z.mul]. rewrite H', bind_Some.
  split; [cbn -[Z.mul]; do 2 f_equal; lia|]. split; [done|]. split; [done|].
  split; [|done]. intros j. specialize (HR j). unfold len in HR. lia.
Qed.

Lemma tick_reachable (s : Store) (updatesPerTick : Z) (src : Z → Z) (pos : Z)
    (s' : Store) (changed : bool) (pos' : Z) :
  reachable s → tick s updatesPerTick src pos = Some (s', changed, pos') → reachable s'.
Proof.
  intros Hs Ht. unfold tick in Ht.
  destruct (randomBatch _ _ _ _) as [[batch p]|]; [|done]. rewrite bind_Some in Ht.
  cbn in Ht.
  destruct (applyItems s false batch) as [[s1 c1]|] eqn:H1; [|done]. rewrite bind_Some in Ht.
  cbn in Ht. injection Ht as -> -> ->.
  apply (applyBatch_reachable batch s); [done|].
  by rewrite <- (applyItems_applyBatch batch s false), H1.
Qed.

Lemma updateTicks_safe (updatesPerTick : Z) (src : Z → Z) (ticks : nat) : ∀ (s : Store) (pos : Z),
  StoreOK s → 1 ≤ totalUsers s → 0 ≤ updatesPerTick ≤ 2 ^ 32 →
  ∃ s' stamps,
    updateTicks s updatesPerTick src pos ticks = Some (s', stamps) ∧
    length stamps = ticks ∧ StoreOK s' ∧
    (Forall (λ stamp, stamp = false) stamps → s' = s) ∧
    (∀ j, Z.abs (ratingOf s' j - ratingOf s j) ≤ 50 * updatesPerTick * Z.of_nat ticks) ∧
    users s' = users s ∧ usernameLower s' = usernameLower s ∧
    usernameIndex s' = usernameIndex s ∧ snapshot s' = snapshot s ∧
    totalUsers s' = totalUsers s.
Proof.
  induction ticks as [|ticks IH]; intros s pos Hsok HN Hu.
  - exists s, []. split; [done|]. split; [done|]. split; [done|]. split; [done|].
    split; [intros j; lia|]. done.
  - destruct (tick_step s updatesPerTick src pos Hsok HN Hu)
      as (s1 & c1 & H1 & Hsok1 & Hc1 & HR1 & HU1 & HL1 & HI1 & HS1 & HT1).
    destruct (IH s1 (pos + 2 * updatesPerTick) Hsok1) as
      (s' & stamps & H' & Hlen & Hsok' & Hc' & HR' & HU' & HL' & HI' & HS' & HT'); [lia|done|].
    exists s', (c1 :: stamps). cbn [updateTicks]. rewrite H1, bind_Some. cbn -[Z.mul].
    rewrite H', bind_Some. cbn -[Z.mul].
    split; [done|]. split; [simpl; lia|]. split; [done|].
    split.
    { intros Hall. apply Forall_cons in Hall as [Hh Ht].
      rewrite (Hc' Ht). by apply Hc1. }
    split.
    { intros j. specialize (HR1 j). specialize (HR' j). lia. }
    split; [congruence|]. split; [congruence|]. split; [congruence|]. split; congruence.
Qed.

(** X8: the mutator goroutine on a store with at least one user.  When
    its ticker starts, it never panics, whatever its source draws and
    however long it runs: every item is for an existing user, every rating
    stays in [[100, 5000]] and moves by 50 a tick and item at most, and
    the users, their names, the username index and the published snapshot
    are not touched; a firing that changes the store stamps [lastUpdate],
    so that a run without a stamp leaves the store as it was.  With
    [updatesPerTick] or [tickMs] not positive the goroutine returns at
    once.  Otherwise the ticker is started with [tickMs] milliseconds as
    an [int64] of nanoseconds, and the goroutine panics in [NewTicker]
    when that product has wrapped to a value that is not positive. *)
Theorem StartRandomUpdates_safe (s : Store) (updatesPerTick tickMs : Z)
    (src : Z → Z) (ticks : nat) :
  StoreOK s → 1 ≤ totalUsers s → updatesPerTick ≤ 2 ^ 32 →
  (1 ≤ updatesPerTick → 1 ≤ tickMs → int_mul tickMs Millisecond ≤ 0 →
   StartRandomUpdates s updatesPerTick tickMs src ticks = None) ∧
  (updatesPerTick ≤ 0 ∨ tickMs ≤ 0 ∨ 0 < int_mul tickMs Millisecond →
   ∃ s' stamps,
     StartRandomUpdates s updatesPerTick tickMs src ticks = Some (s', stamps) ∧
     length stamps = (if decide (updatesPerTick ≤ 0 ∨ tickMs ≤ 0) then 0%nat else ticks) ∧
     StoreOK s' ∧
     (Forall (λ stamp, stamp = false) stamps → s' = s) ∧
     (∀ j, 0 ≤ j < totalUsers s →
           minRating ≤ ratingOf s' j ≤ maxRating ∧
           Z.abs (ratingOf s' j - ratingOf s j)
             ≤ 50 * Z.max 0 updatesPerTick * Z.of_nat ticks) ∧
     users s' = users s ∧ usernameLower s' = usernameLower s ∧
     usernameIndex s' = usernameIndex s ∧ snapshot s' = snapshot s ∧
     totalUsers s' = totalUsers s).
Proof.
  intros Hsok HN Hu. unfold StartRandomUpdates, NewTicker. split.
  - intros Hu1 Hms Hwrap.
    rewrite (decide_False (P := updatesPerTick ≤ 0 ∨ tickMs ≤ 0)) by lia.
    rewrite (decide_True (P := int_mul tickMs Millisecond ≤ 0)) by exact Hwrap.
    reflexivity.
  - intros Hstart. case_decide as Hguard.
    + exists s, []. split; [done|]. split; [done|]. split; [done|]. split; [done|].
      split; [|done]. intros j Hj.
      split; [by apply ratingOf_range; [apply Hsok|]|].
      rewrite Z.sub_diag. simpl. nia.
    + rewrite (decide_False (P := int_mul tickMs Millisecond ≤ 0)) by lia.
      rewrite bind_Some.
      destruct (updateTicks_safe updatesPerTick src ticks s 0 Hsok HN)
        as (s' & stamps & H' & Hlen & Hsok' & Hc & HR & HU & HL & HI & HS & HT); [lia|].
      exists s', stamps. split; [done|]. split; [done|]. split; [done|]. split; [done|].
      split; [|done]. intros j Hj. split; [|rewrite Z.max_r by lia; apply HR].
      apply ratingOf_range; [apply Hsok'|]. by rewrite HT.
Qed.

(** X8 at the fixture: three firings 200 ms apart, and a ticker of
    9223372036855 ms, whose duration in nanoseconds wraps below zero. *)
Lemma StartRandomUpdates_safe_witness :
  ∃ s s' stamps, NewStore fixture = Some s ∧
    StartRandomUpdates s 2 200 (λ pos, 7 * pos) 3 = Some (s', stamps) ∧
    StoreOK s' ∧ snapshot s' = snapshot s ∧
    StartRandomUpdates s 2 9223372036855 (λ pos, 7 * pos) 3 = None.
Proof.
  destruct fixture_store as (s & Hs & _ & Hok & Ht).
  destruct (StartRandomUpdates_safe s 2 200 (λ pos, 7 * pos) 3 Hok) as [_ Hrun].
  { rewrite Ht. lia. } { lia. }
  destruct Hrun as (s' & stamps & H' & _ & Hok' & _ & _ & _ & _ & _ & Hsnap & _).
  { right. right. reflexivity. }
  destruct (StartRandomUpdates_safe s 2 9223372036855 (λ pos, 7 * pos) 3 Hok) as [Hpanic _].
  { rewrite Ht. lia. } { lia. }
  exists s, s', stamps. split; [exact Hs|]. split; [exact H'|]. split; [exact Hok'|].
  split; [exact Hsnap|]. apply Hpanic; [lia|lia|]. vm_compute. discriminate.
Defined.

(** X9: on a store without users the mutator goroutine panics at its first
    firing: [Intn] is called with [len(s.users)], which is 0 (if it has
    not panicked before, in [NewTicker]). *)
Theorem StartRandomUpdates_empty_store_panics (s : Store) (updatesPerTick tickMs : Z)
    (src : Z → Z) (ticks : nat) :
  len (users s) = 0 → 1 ≤ updatesPerTick → 1 ≤ tickMs → (1 ≤ ticks)%nat →
  StartRandomUpdates s updatesPerTick tickMs src ticks = None.
Proof.
  intros Hlen Hu Hms Hticks. unfold StartRandomUpdates.
  rewrite decide_False by lia.
  destruct (NewTicker _); [|reflexivity]. rewrite bind_Some.
  destruct ticks as [|ticks]; [lia|]. cbn [updateTicks]. unfold tick.
  destruct (Z.to_nat updatesPerTick) as [|k] eqn:Hk; [lia|].
  cbn [randomBatch]. unfold Intn at 1. rewrite Hlen. done.
Qed.

Lemma StartRandomUpdates_empty_store_panics_witness :
  StartRandomUpdates (emptyStore 0) 200 200 (λ pos, pos) 1 = None.
Proof.
  apply StartRandomUpdates_empty_store_panics; [reflexivity|lia|lia|lia].
Defined.
(** ** The published snapshot *)

(** What was published is the empty slice of [NewStore] or the work of a
    refresh, which lists every user once. *)
Lemma reachable_snapshot (s : Store) :
  reachable s →
  snapshot s = [] ∨ Permutation (snapshot s) (seqZ 0 (totalUsers s)).
Proof.
  induction 1 as [seeds s Hn Hs|s id newRating s' Hs IH Hint Hup|s s' Hs IH Href].
  - left. unfold NewStore in Hs.
    destruct (seedLoop _ _ _); [|done]. rewrite bind_Some in Hs. by injection Hs as <-.
  - destruct (updateUserRating_changes s id newRating s' (reachable_ok s Hs) Hint Hup)
      as (_ & _ & _ & _ & _ & _ & -> & ->). done.
  - right. destruct (RefreshSnapshot_fields _ _ Href) as (_ & _ & _ & _ & _ & HT & _ & _ & Hsnap).
    destruct (buildSnapshot_spec s (reachable_ok s Hs)) as (snap & Hsnap' & Hperm & _).
    rewrite Hsnap in Hsnap'. injection Hsnap' as ->. by rewrite HT.
Qed.

(** X10: whatever the order of updates and refreshes, the published
    snapshot is either the empty one of a store that was never refreshed
    or a list of all [N] users, each exactly once: a reader never sees a
    snapshot with a user missing or listed twice, however stale. *)
Theorem snapshot_lists_every_user_once (s : Store) :
  reachable s →
  SnapshotIDs s = [] ∨
  (Permutation (SnapshotIDs s) (seqZ 0 (totalUsers s)) ∧ NoDup (SnapshotIDs s) ∧
   len (SnapshotIDs s) = UserCount s).
Proof.
  intros Hs. destruct (reachable_snapshot s Hs) as [Hnil|Hperm]; [by left|right].
  split; [done|]. unfold SnapshotIDs. split.
  - rewrite Hperm. apply NoDup_seqZ.
  - unfold len. rewrite Hperm, length_seqZ.
    pose proof (bk_bound _ _ (proj1 (reachable_ok s Hs))). unfold UserCount. lia.
Qed.

Lemma snapshot_lists_every_user_once_witness :
  ∃ s s', NewStore fixture = Some s ∧ updateUserRating s 1 1700 = Some s' ∧
          (SnapshotIDs s' = [] ∨
           (Permutation (SnapshotIDs s') (seqZ 0 (totalUsers s')) ∧ NoDup (SnapshotIDs s') ∧
            len (SnapshotIDs s') = UserCount s')).
Proof.
  destruct fixture_store as (s & Hs & Hreach & Hok & Ht).
  destruct (updateUserRating_moves s 1 1700) as (s' & Hup & _).
  { apply Hok. } { rewrite Ht. lia. } { unfold minRating, maxRating. lia. }
  exists s, s'. split; [exact Hs|]. split; [exact Hup|].
  apply snapshot_lists_every_user_once.
  apply (reach_update s 1 1700 s' Hreach); [unfold is_int; lia|exact Hup].
Defined.

Lemma bucketIDs_ext (s s' : Store) (bucket : list Z) :
  usernameLower s' = usernameLower s → bucketIDs s' bucket = bucketIDs s bucket.
Proof. intros HL. unfold bucketIDs, snapshotLess, nameOf. by rewrite HL. Qed.

Lemma buildSnapshot_ext (s s' : Store) :
  ratingBuckets s' = ratingBuckets s → usernameLower s' = usernameLower s →
  buildSnapshot s' = buildSnapshot s.
Proof.
  intros HB HL. unfold buildSnapshot.
  generalize (rev (seqZ minRating ratingRange)), (@nil Z).
  intros rs. induction rs as [|r rs IH]; intros snap; [done|].
  cbn [buildSnapshot_loop]. rewrite HB.
  destruct (at_ (ratingBuckets s) (r - minRating)) as [bucket|]; [|done].
  rewrite !bind_Some. case_decide; [apply IH|].
  rewrite (bucketIDs_ext s s' bucket HL).
  destruct (bucketIDs s bucket); [|done]. rewrite !bind_Some. apply IH.
Qed.

Lemma rank_ext (s s' : Store) (r : Z) :
  ratingCounts s' = ratingCounts s → rank s' r = rank s r.
Proof. intros HC. unfold rank. by rewrite HC. Qed.

Lemma entryOf_ext (s s' : Store) (id : Z) :
  ratings s' = ratings s → ratingCounts s' = ratingCounts s → users s' = users s →
  entryOf s' id = entryOf s id.
Proof. intros HR HC HU. unfold entryOf, rank. by rewrite HR, HC, HU. Qed.

Lemma SearchPage_ext (s s' : Store) (query : string) (page limit : Z) :
  ratings s' = ratings s → ratingCounts s' = ratingCounts s → users s' = users s →
  usernameIndex s' = usernameIndex s →
  SearchPage s' query page limit = SearchPage s query page limit.
Proof.
  intros HR HC HU HI. unfold SearchPage, searchPrefix, prefixRange, indexEntry, entryOf, rank.
  by rewrite HR, HC, HU, HI.
Qed.

Lemma RefreshSnapshot_again (s s' : Store) :
  RefreshSnapshot s = Some s' → RefreshSnapshot s' = Some s'.
Proof.
  intros Href.
  destruct (RefreshSnapshot_fields _ _ Href) as (HU & HR & HL & HI & HC & HT & HB & HX & Hsnap).
  unfold RefreshSnapshot. rewrite (buildSnapshot_ext s s' HB HL), Hsnap, bind_Some.
  f_equal. destruct s'. cbn in *. congruence.
Qed.

(** X11: a refresh changes the published snapshot and nothing else, and a
    second refresh with no update in between publishes the same snapshot
    again; ranks and search results are not affected by refreshing. *)
Theorem RefreshSnapshot_idempotent (s s' : Store) :
  RefreshSnapshot s = Some s' →
  RefreshSnapshot s' = Some s' ∧
  (∀ r, rank s' r = rank s r) ∧
  (∀ query page limit, SearchPage s' query page limit = SearchPage s query page limit) ∧
  users s' = users s ∧ ratings s' = ratings s ∧ usernameLower s' = usernameLower s ∧
  totalUsers s' = totalUsers s.
Proof.
  intros Href.
  destruct (RefreshSnapshot_fields _ _ Href) as (HU & HR & HL & HI & HC & HT & HB & HX & Hsnap).
  split; [exact (RefreshSnapshot_again s s' Href)|].
  split; [intros r; exact (rank_ext s s' r HC)|].
  split; [intros; exact (SearchPage_ext s s' _ _ _ HR HC HU HI)|].
  split; [exact HU|]. split; [exact HR|]. split; [exact HL|exact HT].
Qed.

Lemma RefreshSnapshot_idempotent_witness :
  ∃ s s', NewStore fixture = Some s ∧ RefreshSnapshot s = Some s' ∧
          RefreshSnapshot s' = Some s'.
Proof.
  destruct fixture_store as (s & Hs & _ & Hok & _).
  destruct (refresh_total s Hok) as [s' Href].
  exists s, s'. split; [exact Hs|]. split; [exact Href|].
  exact (proj1 (RefreshSnapshot_idempotent s s' Href)).
Defined.

Lemma snapshotTicks_fixed (ticks : nat) (s : Store) :
  RefreshSnapshot s = Some s → snapshotTicks s ticks = Some s.
Proof.
  intros Href. induction ticks as [|ticks IH]; [reflexivity|].
  cbn [snapshotTicks]. rewrite Href, bind_Some. exact IH.
Qed.

Lemma snapshotTicks_once (ticks : nat) (s s' : Store) :
  RefreshSnapshot s = Some s' → snapshotTicks s (S ticks) = Some s'.
Proof.
  intros Href. cbn [snapshotTicks]. rewrite Href, bind_Some.
  apply snapshotTicks_fixed. by eapply RefreshSnapshot_again.
Qed.

(** X12: the publisher goroutine on a store whose invariants hold.  With
    [tickMs] not positive it returns at once, so that what [buildApp]
    published stays for good.  Otherwise it starts a ticker of [tickMs]
    milliseconds, an [int64] of nanoseconds, and panics in [NewTicker]
    when that product has wrapped to a value that is not positive.  Once
    the ticker runs nothing panics, and with no update in between any
    number of firings leaves the snapshot of one refresh. *)
Theorem StartSnapshotLoop_publishes (s : Store) (tickMs : Z) (ticks : nat) :
  StoreOK s →
  (tickMs ≤ 0 → StartSnapshotLoop s tickMs ticks = Some s) ∧
  (1 ≤ tickMs → int_mul tickMs Millisecond ≤ 0 →
   StartSnapshotLoop s tickMs ticks = None) ∧
  (1 ≤ tickMs → 0 < int_mul tickMs Millisecond →
   StartSnapshotLoop s tickMs ticks
     = (if decide (ticks = 0%nat) then Some s else RefreshSnapshot s) ∧
   is_Some (StartSnapshotLoop s tickMs ticks)).
Proof.
  intros Hok. unfold StartSnapshotLoop, NewTicker.
  destruct (refresh_total s Hok) as [s' Href].
  split; [|split].
  - intros Hms. rewrite (decide_True (P := tickMs ≤ 0)) by exact Hms. reflexivity.
  - intros Hms Hwrap. rewrite (decide_False (P := tickMs ≤ 0)) by lia.
    rewrite (decide_True (P := int_mul tickMs Millisecond ≤ 0)) by exact Hwrap.
    reflexivity.
  - intros Hms Hstart. rewrite (decide_False (P := tickMs ≤ 0)) by lia.
    rewrite (decide_False (P := int_mul tickMs Millisecond ≤ 0)) by lia.
    rewrite bind_Some.
    destruct ticks as [|ticks].
    { rewrite decide_True by reflexivity. split; [reflexivity|by eexists]. }
    rewrite decide_False by discriminate.
    rewrite (snapshotTicks_once ticks s s' Href), Href. split; [reflexivity|by eexists].
Qed.

(** X12 at the fixture: three firings a second apart, and a ticker of
    9223372036855 ms, whose duration in nanoseconds wraps below zero. *)
Lemma StartSnapshotLoop_publishes_witness :
  ∃ s, NewStore fixture = Some s ∧
       StartSnapshotLoop s 1000 3 = RefreshSnapshot s ∧
       StartSnapshotLoop s 9223372036855 3 = None.
Proof.
  destruct fixture_store as (s & Hs & _ & Hok & _).
  exists s. split; [exact Hs|].
  destruct (StartSnapshotLoop_publishes s 1000 3 Hok) as (_ & _ & Hrun).
  destruct Hrun as [H _]; [lia|reflexivity|].
  rewrite decide_False in H by discriminate.
  destruct (StartSnapshotLoop_publishes s 9223372036855 3 Hok) as (_ & Hpanic & _).
  split; [exact H|]. apply Hpanic; [lia|]. vm_compute. discriminate.
Defined.
(** ** The pages of the leaderboard *)

Lemma reachable_entries (s : Store) :
  reachable s →
  ∃ entries, mapM (entryOf s) (SnapshotIDs s) = Some entries ∧
             len (SnapshotIDs s) < maxUsers ∧
             (SnapshotIDs s = [] ∨ len (SnapshotIDs s) = totalUsers s).
Proof.
  intros Hs. pose proof (reachable_ok s Hs) as Hok.
  pose proof (bk_bound _ _ (proj1 Hok)) as [[HN0 _] HNmax].
  unfold SnapshotIDs.
  destruct (reachable_snapshot s Hs) as [Hnil|Hperm].
  - rewrite Hnil. exists []. split; [done|]. split; [unfold len, maxUsers; simpl; lia|by left].
  - destruct (snapshot_entries s Hok Hperm) as [entries Hentries].
    exists entries. split; [done|].
    assert (len (snapshot s) = totalUsers s) as ->; [|by split; [|right]].
    unfold len. rewrite Hperm, length_seqZ. lia.
Qed.

Lemma LeaderboardPage_defaults (s : Store) (page limit : Z) :
  LeaderboardPage s page limit
    = LeaderboardPage s (if decide (page ≤ 0) then 1 else page)
                        (if decide (limit ≤ 0) then 20 else limit).
Proof.
  unfold LeaderboardPage.
  destruct (decide (limit ≤ 0)), (decide (page ≤ 0));
    rewrite ?(decide_False (P := 20 ≤ 0)), ?(decide_False (P := 1 ≤ 0)),
            ?(decide_False (P := limit ≤ 0)), ?(decide_False (P := page ≤ 0)) by lia;
    reflexivity.
Qed.

(** A page is a window of the entries of the snapshot, empty when it lies
    beyond them. *)
Lemma LeaderboardPage_window (s : Store) (page limit : Z) (entries : list LeaderboardEntry) :
  mapM (entryOf s) (SnapshotIDs s) = Some entries →
  len (SnapshotIDs s) < maxUsers →
  1 ≤ limit → is_int limit → 1 ≤ page → (page - 1) * limit < 2 ^ 63 →
  LeaderboardPage s page limit
    = Some (take (Z.to_nat limit) (drop (Z.to_nat ((page - 1) * limit)) entries)).
Proof.
  intros Hentries Hmax Hlimit Hint Hpage Hoff.
  destruct (decide ((page - 1) * limit < len (SnapshotIDs s))) as [Hin|Hout].
  { by apply LeaderboardPage_chunk. }
  pose proof (length_mapM _ _ _ Hentries) as Hlen.
  rewrite drop_ge, take_nil by (unfold len in *; lia).
  unfold LeaderboardPage.
  rewrite (decide_False (P := limit ≤ 0)), (decide_False (P := page ≤ 0)) by lia.
  cbv zeta. case_decide; [done|].
  assert (Hoff0 : 0 ≤ (page - 1) * limit) by nia.
  assert (Hpg : page - 1 ≤ (page - 1) * limit) by nia.
  rewrite int_sub_id by (unfold is_int; lia).
  rewrite int_mul_id by (unfold is_int; lia).
  by rewrite decide_True by lia.
Qed.

(** X13: in every reachable state [LeaderboardPage] returns the window of
    the snapshot that the page and the limit name, with the live rating
    and rank of each user in it: a page of 0 or less is read as page 1, a
    limit of 0 or less as 20, a page beyond the last one is empty, and
    nothing panics as long as [(page - 1) * limit] fits an [int]. *)
Theorem LeaderboardPage_is_window (s : Store) (page limit : Z) :
  reachable s → is_int page → is_int limit →
  ((if decide (page ≤ 0) then 1 else page) - 1)
    * (if decide (limit ≤ 0) then 20 else limit) < 2 ^ 63 →
  ∃ entries,
    mapM (entryOf s) (SnapshotIDs s) = Some entries ∧
    LeaderboardPage s page limit
      = Some (take (Z.to_nat (if decide (limit ≤ 0) then 20 else limit))
                (drop (Z.to_nat (((if decide (page ≤ 0) then 1 else page) - 1)
                                 * (if decide (limit ≤ 0) then 20 else limit)))
                      entries)).
Proof.
  intros Hs Hpage Hlimit Hoff.
  destruct (reachable_entries s Hs) as (entries & Hentries & Hmax & _).
  exists entries. split; [done|].
  rewrite LeaderboardPage_defaults.
  apply LeaderboardPage_window; try done; unfold is_int in *; repeat case_decide; lia.
Qed.

Lemma LeaderboardPage_is_window_witness :
  ∃ s entries, NewStore fixture = Some s ∧
    mapM (entryOf s) (SnapshotIDs s) = Some entries ∧
    LeaderboardPage s 0 2 = Some (take 2 (drop 0 entries)).
Proof.
  destruct fixture_store as (s & Hs & Hreach & _).
  destruct (LeaderboardPage_is_window s 0 2 Hreach) as (entries & He & Hp).
  { unfold is_int. lia. } { unfold is_int. lia. } { simpl. lia. }
  exists s, entries. split; [exact Hs|]. split; [exact He|exact Hp].
Defined.

Lemma handler_limit (limit : Z) :
  let L := if decide ((if decide (limit ≤ 0) then 20 else limit) > 200) then 200
           else if decide (limit ≤ 0) then 20 else limit in
  1 ≤ L ≤ 200.
Proof. cbv zeta. repeat case_decide; lia. Qed.

Lemma leaderboardHandler_answers (s : Store) (page limit : Z) :
  reachable s →
  ∃ resp, leaderboardHandler s page limit = Some resp ∧
    LR_TotalUsers resp = UserCount s ∧
    1 ≤ LR_PageSize resp ≤ 200 ∧
    (1 ≤ UserCount s →
       1 ≤ LR_Page resp ≤ LR_TotalPages resp ∧
       (LR_TotalPages resp - 1) * LR_PageSize resp < UserCount s
         ≤ LR_TotalPages resp * LR_PageSize resp) ∧
    (UserCount s = 0 → LR_TotalPages resp = 0 ∧ LR_Entries resp = []) ∧
    len (LR_Entries resp) ≤ LR_PageSize resp ∧
    (SnapshotIDs s ≠ [] →
       len (LR_Entries resp)
         = Z.min (LR_PageSize resp)
                 (UserCount s - (LR_Page resp - 1) * LR_PageSize resp) ∧
       1 ≤ len (LR_Entries resp)).
Proof.
  intros Hs. pose proof (reachable_ok s Hs) as Hok.
  pose proof (bk_bound _ _ (proj1 Hok)) as [[HN0 _] HNmax].
  destruct (reachable_entries s Hs) as (entries & Hentries & Hmax & Hsnap).
  pose proof (length_mapM _ _ _ Hentries) as Hlen.
  unfold leaderboardHandler. cbv zeta.
  pose proof (handler_limit limit) as HL. cbv zeta in HL.
  set (L := if decide ((if decide (limit ≤ 0) then 20 else limit) > 200) then 200
            else if decide (limit ≤ 0) then 20 else limit) in *.
  unfold UserCount. set (N := totalUsers s) in *.
  destruct (decide (1 ≤ N)) as [HN1|HNz].
  - assert (Htp : calcTotalPages N L = (N + L - 1) `div` L).
    { apply calcTotalPages_ceil; unfold maxUsers in *; lia. }
    destruct (pages_cover N L HN1) as (Htp1 & Hlast & Hall); [lia|].
    cbv zeta in Htp1, Hlast, Hall. rewrite <- Htp in Htp1, Hlast, Hall.
    set (TP := calcTotalPages N L) in *.
    pose proof (clampPage_within page TP Htp1) as HP.
    set (P := clampPage page TP) in *.
    rewrite (LeaderboardPage_window s P L entries Hentries Hmax);
      [|lia|unfold is_int; lia|lia|unfold maxUsers in *; nia].
    rewrite bind_Some. eexists. split; [reflexivity|]. cbn.
    split; [done|]. split; [done|]. split; [done|]. split; [lia|].
    assert (Hle : len (take (Z.to_nat L) (drop (Z.to_nat ((P - 1) * L)) entries)) ≤ L).
    { unfold len. rewrite length_take. lia. }
    split; [done|]. intros Hne.
    destruct Hsnap as [Hnil|HlenN]; [done|].
    unfold len in *. rewrite length_take, length_drop. split; nia.
  - assert (HN : N = 0) by lia.
    assert (Htp : calcTotalPages N L = 0).
    { unfold calcTotalPages. by rewrite decide_True by lia. }
    assert (Hempty : SnapshotIDs s = []).
    { destruct Hsnap as [Hnil|HlenN]; [done|]. apply nil_length_inv.
      unfold len in HlenN. fold N in HlenN. lia. }
    assert (Hpage : LeaderboardPage s (clampPage page (calcTotalPages N L)) L = Some nilEntries).
    { unfold LeaderboardPage. cbv zeta. rewrite Hempty. by rewrite decide_True by done. }
    rewrite Hpage, bind_Some. eexists. split; [reflexivity|]. cbn.
    split; [done|]. split; [done|]. split; [lia|]. split; [done|].
    split; [unfold len; simpl; lia|]. done.
Qed.

(** X14: the [/leaderboard] handler answers every request in every
    reachable state.  The page size is within [[1, 200]]; the number of
    pages is the least that holds all users; with at least one user the
    page reported is within [[1, total_pages]]; once a snapshot is
    published the entries are that page of it, never empty and never more
    than the page size. *)
Theorem leaderboardHandler_responds (s : Store) (page limit : Z) :
  reachable s →
  ∃ resp, leaderboardHandler s page limit = Some resp ∧
    LR_TotalUsers resp = UserCount s ∧
    1 ≤ LR_PageSize resp ≤ 200 ∧
    (1 ≤ UserCount s →
       1 ≤ LR_Page resp ≤ LR_TotalPages resp ∧
       (LR_TotalPages resp - 1) * LR_PageSize resp < UserCount s
         ≤ LR_TotalPages resp * LR_PageSize resp) ∧
    (UserCount s = 0 → LR_TotalPages resp = 0 ∧ LR_Entries resp = []) ∧
    len (LR_Entries resp) ≤ LR_PageSize resp ∧
    (SnapshotIDs s ≠ [] →
       len (LR_Entries resp)
         = Z.min (LR_PageSize resp)
                 (UserCount s - (LR_Page resp - 1) * LR_PageSize resp) ∧
       1 ≤ len (LR_Entries resp)).
Proof. apply leaderboardHandler_answers. Qed.

Lemma leaderboardHandler_responds_witness :
  ∃ s resp, NewStore fixture = Some s ∧
    leaderboardHandler s 7 2 = Some resp ∧ 1 ≤ LR_PageSize resp ≤ 200.
Proof.
  destruct fixture_store as (s & Hs & Hreach & _).
  destruct (leaderboardHandler_responds s 7 2 Hreach) as (resp & Hr & _ & HL & _).
  exists s, resp. split; [exact Hs|]. split; [exact Hr|exact HL].
Defined.
(** ** What the entries of a page show *)

Lemma entryOf_spec (s : Store) (id : Z) :
  StoreOK s → 0 ≤ id < totalUsers s →
  ∃ u, at_ (users s) id = Some u ∧
       entryOf s id = Some {| Rank := 1 + countAbove s (ratingOf s id);
                              Username := User_Username u;
                              Rating := ratingOf s id |}.
Proof.
  intros [Hok Hix] Hid. unfold entryOf.
  destruct (ratingOf_range s id Hok Hid) as [Hr Hrange].
  destruct (at_is_Some (users s) id) as [u Hu]; [by rewrite (ix_users_len _ Hix)|].
  exists u. split; [done|].
  rewrite Hr, bind_Some, (rank_value s _) by (by eapply BucketsOK_counters).
  rewrite bind_Some, Hu, bind_Some, clampRating_id by done. done.
Qed.

Lemma slice_subseteq {A} (l ids : list A) (lo hi : Z) :
  slice l lo hi = Some ids → ids ⊆ l.
Proof.
  unfold slice. case_decide; [|done]. intros [= <-].
  etrans; [apply subseteq_take|apply subseteq_drop].
Qed.

Lemma entries_names (s s' : Store) (ids : list Z) :
  StoreOK s → StoreOK s' → users s' = users s → totalUsers s' = totalUsers s →
  Forall (λ id, 0 ≤ id < totalUsers s) ids →
  fmap (M := list) Username <$> mapM (entryOf s') ids = fmap (M := list) Username <$> mapM (entryOf s) ids.
Proof.
  intros Hok Hok' HU HT. induction 1 as [|id ids Hid _ IH]; [done|].
  destruct (entryOf_spec s id Hok Hid) as (u & Hu & He).
  destruct (entryOf_spec s' id Hok') as (u' & Hu' & He'); [by rewrite HT|].
  rewrite HU, Hu in Hu'. injection Hu' as <-.
  cbn [mapM]. rewrite He, He', !bind_Some.
  destruct (mapM (entryOf s') ids) as [es'|], (mapM (entryOf s) ids) as [es|];
    simpl in *; try congruence.
  injection IH as IH. unfold fmap in IH. by rewrite IH.
Qed.


Lemma LeaderboardPage_slice (s : Store) (page limit : Z) (entries : list LeaderboardEntry) :
  LeaderboardPage s page limit = Some entries →
  ∃ lo hi ids, slice (SnapshotIDs s) lo hi = Some ids ∧ mapM (entryOf s) ids = Some entries.
Proof.
  unfold LeaderboardPage. cbv zeta. intros H.
  assert (Hnil : slice (SnapshotIDs s) 0 0 = Some []).
  { unfold slice. rewrite decide_True by (unfold len; lia). reflexivity. }
  repeat case_decide;
    try (injection H as <-; exists 0, 0, []; split; [exact Hnil|reflexivity]).
  all: destruct (slice _ _ _) as [ids|] eqn:Hslice; [|discriminate H].
  all: eexists _, _, ids; split; [exact Hslice|exact H].
Qed.

Lemma entries_live (s : Store) (ids : list Z) (entries : list LeaderboardEntry) :
  StoreOK s → Forall (λ j, 0 ≤ j < totalUsers s) ids →
  mapM (entryOf s) ids = Some entries →
  Forall2 (λ j e, User_Username <$> at_ (users s) j = Some (Username e) ∧
                  Rating e = ratingOf s j ∧
                  rank s (ratingOf s j) = Some (Rank e)) ids entries.
Proof.
  intros Hok Hids Hentries. apply mapM_Some in Hentries.
  induction Hentries as [|j e ids entries Hje _ IH]; [constructor|].
  apply Forall_cons in Hids as [Hj Hids]. constructor; [|exact (IH Hids)].
  destruct (entryOf_spec s j Hok Hj) as (u & Hu & He).
  rewrite Hje in He. injection He as ->. cbn [Username Rating Rank].
  rewrite Hu. split; [reflexivity|]. split; [reflexivity|].
  rewrite rank_value by (eapply BucketsOK_counters, Hok).
  rewrite clampRating_id; [reflexivity|].
  apply ratingOf_range; [apply Hok|exact Hj].
Qed.

(** X15: a rating update does not reorder the leaderboard: until the next
    refresh every page lists the same users in the same places as before.
    A page is a run of consecutive ids of the snapshot taken before the
    update, and the entry in each place shows the name of the user with
    that id, with the rating that user has after the update and the rank
    of that rating after the update. *)
Theorem leaderboard_order_waits_for_refresh (s : Store) (id newRating : Z) (s' : Store) :
  reachable s → is_int newRating →
  updateUserRating s id newRating = Some s' →
  SnapshotIDs s' = SnapshotIDs s ∧
  (∀ page limit,
     fmap (M := list) Username <$> LeaderboardPage s' page limit
       = fmap (M := list) Username <$> LeaderboardPage s page limit) ∧
  (∀ page limit entries,
     LeaderboardPage s' page limit = Some entries →
     ∃ lo hi ids,
       slice (SnapshotIDs s) lo hi = Some ids ∧
       Forall2 (λ j e, User_Username <$> at_ (users s) j = Some (Username e) ∧
                       Rating e = ratingOf s' j ∧
                       rank s' (ratingOf s' j) = Some (Rank e)) ids entries).
Proof.
  intros Hs Hint Hup. pose proof (reachable_ok s Hs) as Hok.
  destruct (updateUserRating_changes s id newRating s' Hok Hint Hup)
    as (Hok' & _ & _ & HU & _ & _ & Hsnap & HT).
  assert (Hvalid : ∀ ids, ids ⊆ SnapshotIDs s → Forall (λ j, 0 ≤ j < totalUsers s) ids).
  { intros ids Hsub. apply Forall_forall. intros j Hj. apply Hsub in Hj.
    unfold SnapshotIDs in Hj.
    destruct (reachable_snapshot s Hs) as [Hnil|Hperm].
    - rewrite Hnil in Hj. by apply elem_of_nil in Hj.
    - rewrite Hperm in Hj. apply elem_of_seqZ in Hj. lia. }
  split; [done|]. split.
  - intros page limit. unfold LeaderboardPage, SnapshotIDs. rewrite Hsnap. cbv zeta.
    repeat case_decide; try done.
    all: destruct (slice _ _ _) as [ids|] eqn:Hslice; [|done].
    all: rewrite !bind_Some; apply entries_names; try done.
    all: apply Hvalid; by eapply slice_subseteq.
  - intros page limit entries Hpage.
    destruct (LeaderboardPage_slice _ _ _ _ Hpage) as (lo & hi & ids & Hslice & Hentries).
    unfold SnapshotIDs in Hslice. rewrite Hsnap in Hslice.
    exists lo, hi, ids. split; [exact Hslice|].
    rewrite <- HU. apply (entries_live s' ids entries Hok'); [|exact Hentries].
    rewrite HT. apply Hvalid. by eapply slice_subseteq.
Qed.

(** X15 at the fixture: user 1 moves from 1500 to 1700 after a refresh;
    page 1 of 3 keeps its names, and its entries are those of the first
    ids of the old snapshot with the ratings and ranks after the move. *)
Lemma leaderboard_order_waits_for_refresh_witness :
  ∃ s0 s s', NewStore fixture = Some s0 ∧ RefreshSnapshot s0 = Some s ∧
    updateUserRating s 1 1700 = Some s' ∧
    fmap (M := list) Username <$> LeaderboardPage s' 1 3
      = fmap (M := list) Username <$> LeaderboardPage s 1 3.
Proof.
  destruct fixture_store as (s0 & Hs0 & Hreach & Hok & Ht).
  destruct (refresh_total s0 Hok) as [s Href].
  destruct (RefreshSnapshot_ok s0 s Hok Href) as [Hoks Hts].
  destruct (updateUserRating_moves s 1 1700) as (s' & Hup & _).
  { apply Hoks. } { rewrite Hts, Ht. lia. } { unfold minRating, maxRating. lia. }
  exists s0, s, s'. split; [exact Hs0|]. split; [exact Href|]. split; [exact Hup|].
  destruct (leaderboard_order_waits_for_refresh s 1 1700 s') as (_ & Hnames & _).
  - exact (reach_refresh s0 s Hreach Href).
  - unfold is_int. lia.
  - exact Hup.
  - exact (Hnames 1 3).
Defined.

Lemma sorted_Forall2 {A B} (R : A → A → Prop) (R' : B → B → Prop) (P : A → B → Prop)
    (l : list A) (k : list B) :
  (∀ x y x' y', R x y → P x x' → P y y' → R' x' y') →
  StronglySorted R l → Forall2 P l k → StronglySorted R' k.
Proof.
  intros HR Hsorted Hall. induction Hall as [|x x' l k Hx Hall IH]; [constructor|].
  apply StronglySorted_inv in Hsorted as [Hsorted Hhd].
  constructor; [by apply IH|].
  clear IH Hsorted. induction Hall as [|y y' l k Hy Hall IH]; [constructor|].
  apply Forall_cons in Hhd as [Hxy Hhd]. constructor; [by eapply HR|by apply IH].
Qed.

Lemma filter_length_strict {A} (P Q : A → Prop) `{∀ x, Decision (P x)} `{∀ x, Decision (Q x)}
    (l : list A) (x : A) :
  (∀ y, P y → Q y) → x ∈ l → Q x → ¬ P x →
  (length (filter P l) < length (filter Q l))%nat.
Proof.
  intros HPQ Hx HQ HP.
  assert (filter P l = filter P (filter Q l)) as ->.
  { rewrite list_filter_filter. apply list_filter_iff. intros y. split; [|tauto].
    intros Hy. split; [done|by apply HPQ]. }
  apply (length_filter_lt P (filter Q l) x); [|done].
  by apply list_elem_of_filter.
Qed.

(** Over the users of a store whose invariants hold, a lower rating has a
    larger rank. *)
Lemma rank_strict (s : Store) (a b : Z) :
  BucketsOK (totalUsers s) s →
  0 ≤ a < totalUsers s → 0 ≤ b < totalUsers s → ratingOf s b < ratingOf s a →
  countAbove s (ratingOf s a) < countAbove s (ratingOf s b).
Proof.
  intros Hok Ha Hb Hlt.
  rewrite !countAbove_users by (done || by apply ratingOf_range).
  pose proof (filter_length_strict (λ id, ratingOf s a < ratingOf s id)
                (λ id, ratingOf s b < ratingOf s id) (seqZ 0 (totalUsers s)) a) as Hstrict.
  unfold len. apply inj_lt, Hstrict; [intros; lia|apply elem_of_seqZ; lia|done|lia].
Qed.

Lemma rank_position (s : Store) (snap : list Z) (i : nat) (id : Z) :
  BucketsOK (totalUsers s) s →
  Permutation snap (seqZ 0 (totalUsers s)) →
  StronglySorted (byRatingName s) snap →
  snap !! i = Some id →
  countAbove s (ratingOf s id) ≤ Z.of_nat i.
Proof.
  intros Hok Hperm Hsorted Hi.
  assert (Hid : 0 ≤ id < totalUsers s).
  { apply list_elem_of_lookup_2 in Hi. rewrite Hperm in Hi. apply elem_of_seqZ in Hi. lia. }
  rewrite countAbove_users by (done || by apply ratingOf_range).
  unfold len. rewrite <- Hperm, <- (take_drop i snap), filter_app, length_app.
  rewrite (filter_none _ (drop i snap)).
  - pose proof (length_filter (λ x, ratingOf s id < ratingOf s x) (take i snap)).
    rewrite length_take in *. simpl. lia.
  - apply Forall_forall. intros x Hx.
    apply list_elem_of_lookup in Hx as [j Hj]. rewrite lookup_drop in Hj.
    destruct j as [|j].
    + rewrite Nat.add_0_r, Hi in Hj. injection Hj as <-. lia.
    + pose proof (sorted_lookup _ _ _ _ _ _ Hsorted Hi Hj ltac:(lia)) as Hle.
      unfold byRatingName in Hle. lia.
Qed.

(** X16: right after a refresh the leaderboard is in order.  Down the
    list of all entries the ratings never rise; two entries with the same
    rating show the same rank and a lower rating shows a strictly larger
    rank; the first entry has rank 1, and the entry in place [i] (from 0)
    has a rank of [i + 1] at most. *)
Theorem fresh_leaderboard_is_ranked (s0 s : Store) :
  reachable s0 → RefreshSnapshot s0 = Some s →
  ∃ entries,
    mapM (entryOf s) (SnapshotIDs s) = Some entries ∧
    len entries = UserCount s ∧
    StronglySorted (λ e1 e2, (Rating e1 = Rating e2 ∧ Rank e1 = Rank e2) ∨
                             (Rating e2 < Rating e1 ∧ Rank e1 < Rank e2)) entries ∧
    (∀ i e, at_ entries i = Some e → 1 ≤ Rank e ≤ i + 1).
Proof.
  intros Hreach Href.
  assert (Hs : reachable s) by exact (reach_refresh s0 s Hreach Href).
  pose proof (reachable_ok s Hs) as Hok. pose proof Hok as [Hbk _].
  destruct (buildSnapshot_spec s0 (reachable_ok _ Hreach)) as (snap & Hsnap & Hperm & Hsorted).
  destruct (RefreshSnapshot_fields _ _ Href) as (_ & HR & HL & _ & _ & HT & _ & _ & Hsnap').
  rewrite Hsnap in Hsnap'. injection Hsnap' as Hsnap'. rewrite <- HT in Hperm.
  assert (Hsorted' : StronglySorted (byRatingName s) snap).
  { eapply sorted_weaken; [|exact Hsorted]. intros a b.
    unfold byRatingName, ratingOf, nameOf. by rewrite HR, HL. }
  unfold SnapshotIDs. rewrite <- Hsnap'. clear Hsnap Href Hsnap' Hsorted.
  assert (Hvalid : ∀ id, id ∈ snap → 0 ≤ id < totalUsers s).
  { intros id Hid. rewrite Hperm in Hid. apply elem_of_seqZ in Hid. lia. }
  destruct (mapM (entryOf s) snap) as [entries|] eqn:Hentries.
  2:{ exfalso. apply eq_None_not_Some in Hentries. apply Hentries.
      apply mapM_is_Some, Forall_forall. intros id Hid.
      apply entryOf_total; [done|by apply Hvalid]. }
  exists entries. split; [done|].
  pose proof (bk_bound _ _ Hbk) as [[HN0 _] _].
  pose proof (length_mapM _ _ _ Hentries) as Hlen.
  assert (HlenN : length snap = Z.to_nat (totalUsers s)).
  { by rewrite Hperm, length_seqZ. }
  split; [unfold len, UserCount; lia|].
  apply mapM_Some in Hentries.
  assert (Hent : ∀ id e, id ∈ snap → entryOf s id = Some e →
            Rating e = ratingOf s id ∧ Rank e = 1 + countAbove s (ratingOf s id)).
  { intros id e Hid He. destruct (entryOf_spec s id Hok (Hvalid id Hid)) as (u & _ & He').
    rewrite He in He'. by injection He' as ->. }
  split.
  - assert (Hall : Forall2 (λ id e, id ∈ snap ∧ entryOf s id = Some e) snap entries).
    { apply Forall2_same_length_lookup_2; [by eapply Forall2_length|].
      intros i id e Hi He. split; [by eapply list_elem_of_lookup_2|].
      exact (Forall2_lookup_lr (λ x y, entryOf s x = Some y) _ _ _ _ _ Hentries Hi He). }
    apply (sorted_Forall2 (byRatingName s) _ (λ id e, id ∈ snap ∧ entryOf s id = Some e)
             snap entries); [|done|exact Hall].
    intros a b ea eb Hab [Ha Hea] [Hb Heb].
    destruct (Hent a ea Ha Hea) as [-> ->]. destruct (Hent b eb Hb Heb) as [-> ->].
    destruct (decide (ratingOf s a = ratingOf s b)) as [Heq|Hne].
    + left. by rewrite Heq.
    + right. assert (ratingOf s b < ratingOf s a) by (unfold byRatingName in Hab; lia).
      split; [done|]. pose proof (rank_strict s a b Hbk (Hvalid a Ha) (Hvalid b Hb)). lia.
  - intros i e Hi. apply at_Some in Hi as [Hi0 Hi].
    destruct (Forall2_lookup_r _ _ _ _ _ Hentries Hi) as (id & Hid & He).
    destruct (Hent id e (list_elem_of_lookup_2 _ _ _ Hid) He) as [_ ->].
    pose proof (rank_position s snap _ id Hbk Hperm Hsorted' Hid).
    assert (0 ≤ countAbove s (ratingOf s id)); [|lia].
    rewrite countAbove_users; [unfold len; lia|done|].
    apply ratingOf_range; [done|]. apply Hvalid. by eapply list_elem_of_lookup_2.
Qed.

Lemma fresh_leaderboard_is_ranked_witness :
  ∃ s0 s entries, NewStore fixture = Some s0 ∧ RefreshSnapshot s0 = Some s ∧
    mapM (entryOf s) (SnapshotIDs s) = Some entries ∧ len entries = UserCount s.
Proof.
  destruct fixture_store as (s0 & Hs0 & Hreach & Hok & _).
  destruct (refresh_total s0 Hok) as [s Href].
  destruct (fresh_leaderboard_is_ranked s0 s Hreach Href) as (entries & He & Hlen & _).
  exists s0, s, entries. split; [exact Hs0|]. split; [exact Href|]. split; [exact He|exact Hlen].
Defined.
(** ** The pages of a search *)

Lemma mapM_Forall2_ext {A A' B} (f : A → option B) (g : A' → option B)
    (l : list A) (k : list A') :
  Forall2 (λ x y, f x = g y) l k → mapM f l = mapM g k.
Proof. induction 1 as [|???? Hfg ? IH]; simpl; [done|]. by rewrite Hfg, IH. Qed.

Lemma indexEntries_window (s : Store) (a n : Z) :
  0 ≤ a → 0 ≤ n → a + n ≤ len (usernameIndex s) →
  mapM (indexEntry s) (seqZ a n)
    = mapM (λ e, entryOf s (ID e))
           (take (Z.to_nat n) (drop (Z.to_nat a) (usernameIndex s))).
Proof.
  intros Ha Hn Hlen. apply mapM_Forall2_ext.
  apply Forall2_same_length_lookup_2.
  - rewrite length_seqZ, length_take, length_drop.
    unfold len in Hlen. lia.
  - intros i x e Hx He. apply lookup_seqZ in Hx as [-> Hi].
    rewrite lookup_take_lt, lookup_drop in He by lia.
    unfold indexEntry, at_. rewrite decide_True by lia.
    replace (Z.to_nat (a + Z.of_nat i)) with (Z.to_nat a + i)%nat by lia.
    by rewrite He.
Qed.

(** [searchPrefix] in closed form, on the range the two binary searches
    return. *)
Lemma searchPrefix_closed (s : Store) (prefix : string) (page limit lo hi : Z) :
  StoreOK s → 1 ≤ limit ≤ maxCap →
  prefix ≠ EmptyString →
  prefixRange s prefix = (lo, hi) →
  let totalPages := calcTotalPages (hi - lo) limit in
  let pageOut := clampPage page totalPages in
  searchPrefix s prefix page limit =
    (results ← mapM (λ e, entryOf s (ID e))
                 (take (Z.to_nat limit)
                    (drop (Z.to_nat ((pageOut - 1) * limit))
                       (take (Z.to_nat (hi - lo)) (drop (Z.to_nat lo) (usernameIndex s)))));
     Some (results, hi - lo, pageOut, totalPages)) ∧
  (1 ≤ hi - lo → 1 ≤ pageOut ≤ totalPages ∧ (pageOut - 1) * limit < hi - lo
                 ∧ (totalPages - 1) * limit < hi - lo ≤ totalPages * limit).
Proof.
  intros Hok HL Hquery Hrange.
  pose proof Hok as [Hb Hix].
  pose proof (bk_bound _ _ Hb) as [[Hn0 _] Hnmax].
  unfold searchPrefix.
  cbv zeta. rewrite decide_False by done.
  pose proof (prefixRange_bounds s prefix Hix) as (Hlo & Hle & Hhi).
  rewrite Hrange in *. cbn [fst snd] in *.
  pose proof Hhi as Hhi'. rewrite (index_len s Hix) in Hhi'.
  unfold maxUsers, maxCap in *.
  rewrite int_sub_id by (unfold is_int; lia).
  case_decide as Htotal.
  { split; [|lia]. rewrite Htotal. change (Z.to_nat 0) with 0%nat.
    rewrite take_0, drop_nil, take_nil. done. }
  rewrite calcTotalPages_ceil by lia.
  pose proof (pages_cover (hi - lo) limit) as Hcover.
  cbv zeta in Hcover. destruct Hcover as (Htp & Hlast & Hall); [lia..|].
  set (tp := (hi - lo + limit - 1) `div` limit) in *.
  pose proof (clampPage_within page tp Htp) as Hpage.
  set (page' := clampPage page tp) in *.
  assert (Hoff : 0 ≤ (page' - 1) * limit ≤ (tp - 1) * limit) by nia.
  split; [|intros _; lia].
  rewrite (int_sub_id page') by (unfold is_int; lia).
  rewrite int_mul_id by (unfold is_int; lia).
  rewrite (int_add_id lo) by (unfold is_int; lia).
  rewrite decide_False by lia.
  rewrite int_add_id by (unfold is_int; lia).
  set (startIdx := lo + (page' - 1) * limit) in *.
  set (endIdx := if decide (startIdx + limit > hi) then hi else startIdx + limit).
  assert (Hend : startIdx < endIdx ∧ endIdx ≤ hi ∧ endIdx - startIdx ≤ limit)
    by (unfold endIdx; case_decide; lia).
  rewrite int_sub_id by (unfold is_int; lia).
  unfold makeEntries. rewrite decide_False by (unfold maxAlloc, entrySize; lia).
  rewrite bind_Some.
  rewrite indexEntries_window by lia.
  assert (Hwin : take (Z.to_nat (endIdx - startIdx)) (drop (Z.to_nat startIdx) (usernameIndex s))
               = take (Z.to_nat limit)
                   (drop (Z.to_nat ((page' - 1) * limit))
                      (take (Z.to_nat (hi - lo)) (drop (Z.to_nat lo) (usernameIndex s))))).
  { replace (Z.to_nat (hi - lo))
      with (Z.to_nat ((page' - 1) * limit)
            + (Z.to_nat (hi - lo) - Z.to_nat ((page' - 1) * limit)))%nat
      by lia.
    rewrite <- take_drop_commute, take_take, drop_drop.
    f_equal; [|f_equal; unfold startIdx; lia].
    unfold endIdx, startIdx. case_decide; lia. }
  by rewrite Hwin.
Qed.

Lemma matching_ids (s : Store) (p : string) :
  IndexOK s →
  NoDup (ID <$> matching p (usernameIndex s)) ∧
  ∀ id, id ∈ ID <$> matching p (usernameIndex s) ↔
        0 ≤ id < totalUsers s ∧ String.prefix p (nameOf s id) = true.
Proof.
  intros Hix. split.
  - apply (sublist_NoDup _ (ID <$> usernameIndex s)).
    + rewrite (ix_perm _ Hix), indexOf_ids.
      apply NoDup_fmap_2; [apply Nat2Z.inj'|apply NoDup_seq].
    + apply fmap_sublist, sublist_filter.
  - intros id. rewrite list_elem_of_fmap. split.
    + intros (e & -> & He). apply (matching_elem s p e Hix) in He as [Hname Hp].
      pose proof (at_lt _ _ _ Hname) as Hid. rewrite (ix_lower_len _ Hix) in Hid.
      split; [done|]. unfold nameOf. by rewrite Hname.
    + intros [Hid Hp].
      destruct (at_is_Some (usernameLower s) id) as [name Hname];
        [by rewrite (ix_lower_len _ Hix)|].
      unfold nameOf in Hp. rewrite Hname in Hp. simpl in Hp.
      exists {| UsernameLower := name; ID := id |}. split; [done|].
      by apply (matching_elem s p _ Hix).
Qed.

Lemma found_entries (s : Store) (p : string) (l : list UsernameIndex) :
  StoreOK s → l ⊆ usernameIndex s →
  is_Some (mapM (λ e, entryOf s (ID e)) l).
Proof.
  intros Hok Hsub. apply mapM_is_Some, Forall_forall. intros e He. cbn.
  apply Hsub, list_elem_of_lookup in He as [i Hi].
  apply entryOf_total; [done|].
  apply (index_ids_valid s (Z.of_nat i) e); [apply Hok|].
  apply at_Some. rewrite Nat2Z.id. split; [lia|done].
Qed.

(** A page of a search is a window of the matching entries of the index. *)
Lemma searchPrefix_window (s : Store) (prefix : string) (page limit : Z) :
  StoreOK s → Forall noFF (usernameLower s) → 1 ≤ limit ≤ maxCap →
  prefix ≠ EmptyString →
  let found := matching prefix (usernameIndex s) in
  let totalPages := calcTotalPages (len found) limit in
  let pageOut := clampPage page totalPages in
  ∃ results,
    searchPrefix s prefix page limit = Some (results, len found, pageOut, totalPages) ∧
    mapM (λ e, entryOf s (ID e))
         (take (Z.to_nat limit) (drop (Z.to_nat ((pageOut - 1) * limit)) found))
      = Some results ∧
    (1 ≤ len found →
       1 ≤ pageOut ≤ totalPages ∧ 1 ≤ len results ∧
       (totalPages - 1) * limit < len found ≤ totalPages * limit).
Proof.
  intros Hok Hff Hlimit Hquery. cbv zeta.
  destruct (prefixRange_spec s prefix (proj2 Hok) Hff)
    as (lo & hi & Hrange & Hlo & Hle & Hhi & Hslice & Htotal).
  destruct (searchPrefix_closed s prefix page limit lo hi Hok Hlimit Hquery Hrange)
    as [Hpage Hbounds].
  cbv zeta in Hpage, Hbounds.
  unfold slice in Hslice. rewrite decide_True in Hslice by lia.
  injection Hslice as Hfound. rewrite Hfound, Htotal in Hpage. rewrite Htotal in Hbounds.
  set (found := matching prefix (usernameIndex s)) in *.
  set (tp := calcTotalPages (len found) limit) in *.
  set (P := clampPage page tp) in *.
  destruct (found_entries s prefix
              (take (Z.to_nat limit) (drop (Z.to_nat ((P - 1) * limit)) found)) Hok)
    as [results Hres].
  { etrans; [apply subseteq_take|]. etrans; [apply subseteq_drop|].
    apply sublist_subseteq, sublist_filter. }
  exists results. rewrite Hres, bind_Some in Hpage. split; [done|]. split; [done|].
  intros Hsome. destruct (Hbounds Hsome) as (HP & Hoff & Htp).
  split; [done|]. split; [|done].
  apply length_mapM in Hres. rewrite length_take, length_drop in Hres.
  unfold len in *. nia.
Qed.

(** X17: [SearchPage] from the normalised prefix on, for a prefix that is
    not empty and a limit that [make] accepts, in a store whose invariants
    hold and whose names are free of the byte [0xff].  It returns the
    window of the matching index entries that the page and the limit
    name, with the live rating and rank of each user in it.  The total is
    the number of matching entries, the number of pages the least that
    holds them, and the page is brought into [[1, totalPages]]: a search
    that matches anything never returns an empty page. *)
Theorem SearchPage_is_window (s : Store) (prefix : string) (page limit : Z) :
  StoreOK s → Forall noFF (usernameLower s) → 1 ≤ limit ≤ maxCap →
  prefix ≠ EmptyString →
  let found := matching prefix (usernameIndex s) in
  let totalPages := calcTotalPages (len found) limit in
  let pageOut := clampPage page totalPages in
  ∃ results,
    searchPrefix s prefix page limit = Some (results, len found, pageOut, totalPages) ∧
    mapM (λ e, entryOf s (ID e))
         (take (Z.to_nat limit) (drop (Z.to_nat ((pageOut - 1) * limit)) found))
      = Some results ∧
    (1 ≤ len found →
       1 ≤ pageOut ≤ totalPages ∧ 1 ≤ len results ∧
       (totalPages - 1) * limit < len found ≤ totalPages * limit).
Proof. apply searchPrefix_window. Qed.

Lemma fixture_search_store :
  ∃ s, NewStore fixture = Some s ∧ reachable s ∧ StoreOK s ∧
       Forall noFF (usernameLower s).
Proof.
  destruct fixture_store as (s & Hs & Hreach & Hok & _).
  exists s. split; [exact Hs|]. split; [exact Hreach|]. split; [exact Hok|].
  exact (NewStore_noFF fixture s Hs fixture_names_noFF).
Qed.

(** X17 at the fixture: the query [" A"], normalised to ["a"], asked
    for page 9 with 2 results a page. *)
Lemma SearchPage_is_window_witness :
  ∃ s results, NewStore fixture = Some s ∧
    SearchPage s " A" 9 2
      = Some (results, len (matching "a" (usernameIndex s)),
              clampPage 9 (calcTotalPages (len (matching "a" (usernameIndex s))) 2),
              calcTotalPages (len (matching "a" (usernameIndex s))) 2).
Proof.
  destruct fixture_search_store as (s & Hs & _ & Hok & Hff).
  destruct (SearchPage_is_window s "a" 9 2 Hok Hff) as (results & Hpage & _).
  { unfold maxCap. lia. } { discriminate. }
  exists s, results. split; [exact Hs|exact Hpage].
Defined.

Lemma search_pages (s : Store) (prefix : string) (L : Z) :
  StoreOK s → Forall noFF (usernameLower s) → 1 ≤ L ≤ maxCap →
  prefix ≠ EmptyString →
  let found := matching prefix (usernameIndex s) in
  ∃ all pages,
    mapM (λ e, entryOf s (ID e)) found = Some all ∧
    mapM (λ page, (λ r, r.1.1.1) <$> searchPrefix s prefix page L)
         (seqZ 1 (calcTotalPages (len found) L)) = Some pages ∧
    concat pages = all.
Proof.
  intros Hok Hff HL Hquery found.
  destruct (found_entries s prefix found Hok) as [all Hall].
  { apply sublist_subseteq, sublist_filter. }
  pose proof (length_mapM _ _ _ Hall) as Hlen.
  pose proof (bk_bound _ _ (proj1 Hok)) as [[HN0 _] HNmax].
  assert (Hfound : len found ≤ totalUsers s).
  { rewrite <- (index_len s (proj2 Hok)). unfold len, found, matching.
    pose proof (length_filter (λ e : UsernameIndex,
      String.prefix prefix (UsernameLower e) = true) (usernameIndex s)).
    lia. }
  set (tp := calcTotalPages (len found) L).
  exists all, ((λ i, take (Z.to_nat L) (drop (i * Z.to_nat L) all)) <$> seq 0 (Z.to_nat tp)).
  split; [done|].
  assert (Hpages : ∀ i : nat, (i < Z.to_nat tp)%nat →
            (λ r, r.1.1.1) <$> searchPrefix s prefix (Z.of_nat i + 1) L
              = Some (take (Z.to_nat L) (drop (i * Z.to_nat L) all))).
  { intros i Hi.
    destruct (searchPrefix_window s prefix (Z.of_nat i + 1) L Hok Hff)
      as (results & Hpage & Hres & Hb); [lia|done|].
    cbv zeta in Hpage, Hres, Hb. fold found in Hpage, Hres, Hb.
    fold tp in Hpage, Hres, Hb.
    assert (Hclamp : clampPage (Z.of_nat i + 1) tp = Z.of_nat i + 1).
    { unfold clampPage. repeat case_decide; lia. }
    rewrite Hclamp in Hpage, Hres. rewrite Hpage. cbn. f_equal.
    rewrite (mapM_take_drop _ _ _ _ _ Hall) in Hres. injection Hres as <-.
    do 2 f_equal. lia. }
  split.
  - apply mapM_Some. unfold seqZ.
    apply Forall2_fmap, Forall_Forall2_diag, Forall_forall.
    intros i Hi%elem_of_seq. cbv beta.
    replace (1 + Z.of_nat i) with (Z.of_nat i + 1) by lia. apply Hpages. lia.
  - rewrite concat_chunks. apply take_ge.
    destruct (decide (1 ≤ len found)) as [Hsome|Hnone].
    + unfold tp. rewrite calcTotalPages_ceil by (unfold maxUsers, maxCap in *; lia).
      destruct (pages_cover (len found) L Hsome) as (Htp1 & _ & Hcover); [lia|].
      cbv zeta in Htp1, Hcover. unfold len in *. nia.
    + unfold len in *. lia.
Qed.

(** X18: the pages of a search put end to end are the entries of all
    matching users, each user once, in index order.  For a normalised
    prefix that is not empty and a limit from 1 up to what [make]
    accepts, pages 1 to [totalPages] neither drop nor repeat a user, and
    the users found are exactly those whose stored lower-case name starts
    with the prefix. *)
Theorem search_pages_round_trip (s : Store) (prefix : string) (L : Z) :
  StoreOK s → Forall noFF (usernameLower s) → 1 ≤ L ≤ maxCap →
  prefix ≠ EmptyString →
  let found := matching prefix (usernameIndex s) in
  ∃ all pages,
    mapM (entryOf s) (ID <$> found) = Some all ∧
    mapM (λ page, (λ r, r.1.1.1) <$> searchPrefix s prefix page L)
         (seqZ 1 (calcTotalPages (len found) L)) = Some pages ∧
    concat pages = all ∧
    NoDup (ID <$> found) ∧
    (∀ id, id ∈ ID <$> found ↔
           0 ≤ id < totalUsers s ∧ String.prefix prefix (nameOf s id) = true).
Proof.
  intros Hok Hff HL Hquery found.
  destruct (search_pages s prefix L Hok Hff HL Hquery) as (all & pages & Hall & Hpages & Hcat).
  destruct (matching_ids s prefix (proj2 Hok)) as [Hnodup Hids].
  exists all, pages. split; [|done].
  rewrite <- Hall. symmetry. apply mapM_Forall2_ext.
  apply Forall2_fmap_r, Forall_Forall2_diag, Forall_forall. done.
Qed.

(** X18 at the fixture: the query ["A"], normalised to ["a"], read one
    result a page. *)
Lemma search_pages_round_trip_witness :
  ∃ s all pages, NewStore fixture = Some s ∧
    mapM (entryOf s) (ID <$> matching "a" (usernameIndex s)) = Some all ∧
    mapM (λ page, (λ r, r.1.1.1) <$> SearchPage s "A" page 1)
         (seqZ 1 (calcTotalPages (len (matching "a" (usernameIndex s))) 1)) = Some pages ∧
    concat pages = all.
Proof.
  destruct fixture_search_store as (s & Hs & _ & Hok & Hff).
  destruct (search_pages_round_trip s "a" 1 Hok Hff) as (all & pages & Hall & Hpages & Hcat & _).
  { unfold maxCap. lia. } { discriminate. }
  exists s, all, pages. split; [exact Hs|]. split; [exact Hall|]. split; [|exact Hcat].
  rewrite <- Hpages. apply mapM_Forall2_ext, Forall_Forall2_diag, Forall_forall.
  intros page Hpage%elem_of_seqZ. unfold SearchPage.
  rewrite (decide_False (P := 1 ≤ 0)) by lia.
  rewrite (decide_False (P := page ≤ 0)) by lia. reflexivity.
Defined.

Lemma searchPrefix_results (s : Store) (prefix : string) (page limit : Z)
    (results : list LeaderboardEntry) (total pageOut totalPages : Z) :
  StoreOK s → Forall noFF (usernameLower s) → 1 ≤ limit ≤ maxCap →
  searchPrefix s prefix page limit = Some (results, total, pageOut, totalPages) →
  ∃ l, l ⊆ matching prefix (usernameIndex s) ∧
       mapM (λ e, entryOf s (ID e)) l = Some results.
Proof.
  intros Hok Hff Hlimit Hpage.
  destruct (decide (prefix = EmptyString)) as [Hblank|Hquery].
  - unfold searchPrefix in Hpage. rewrite decide_True in Hpage by done.
    injection Hpage as <- _ _ _. exists []. split; [apply list_subseteq_nil|done].
  - destruct (searchPrefix_window s prefix page limit Hok Hff Hlimit Hquery)
      as (results' & Hpage' & Hres & _).
    rewrite Hpage in Hpage'. injection Hpage' as <-.
    eexists. split; [|exact Hres].
    etrans; [apply subseteq_take|apply subseteq_drop].
Qed.

(** X19: every result of a search is the live entry of a user whose
    stored lower-case name starts with the normalised prefix: for a limit
    from 1 up to what [make] accepts, a search never returns a user that
    does not match, whatever the prefix and the page. *)
Theorem search_results_match_query (s : Store) (prefix : string) (page limit : Z)
    (results : list LeaderboardEntry) (total pageOut totalPages : Z) :
  StoreOK s → Forall noFF (usernameLower s) → 1 ≤ limit ≤ maxCap →
  searchPrefix s prefix page limit = Some (results, total, pageOut, totalPages) →
  Forall (λ e, ∃ id, 0 ≤ id < totalUsers s ∧
                     String.prefix prefix (nameOf s id) = true ∧
                     entryOf s id = Some e ∧
                     User_Username <$> at_ (users s) id = Some (Username e) ∧
                     Rating e = ratingOf s id) results.
Proof.
  intros Hok Hff Hlimit Hpage.
  destruct (searchPrefix_results _ _ _ _ _ _ _ _ Hok Hff Hlimit Hpage) as (l & Hsub & Hres).
  apply Forall_forall. intros e He.
  apply mapM_Some in Hres. apply list_elem_of_lookup in He as [i Hi].
  destruct (Forall2_lookup_r _ _ _ _ _ Hres Hi) as (ie & Hie & Hentry).
  apply list_elem_of_lookup_2, Hsub in Hie.
  apply (matching_elem s _ ie (proj2 Hok)) in Hie as [Hname Hp].
  pose proof (at_lt _ _ _ Hname) as Hid. rewrite (ix_lower_len _ (proj2 Hok)) in Hid.
  destruct (entryOf_spec s (ID ie) Hok Hid) as (u & Hu & Hentry').
  exists (ID ie). split; [exact Hid|]. split.
  { unfold nameOf. rewrite Hname. exact Hp. }
  split; [exact Hentry|].
  rewrite Hentry in Hentry'. injection Hentry' as ->. cbn [Username Rating].
  rewrite Hu. split; reflexivity.
Qed.

(** X19 at the fixture: the query ["A"], normalised to ["a"]. *)
Lemma search_results_match_query_witness :
  ∃ s results total pageOut totalPages, NewStore fixture = Some s ∧
    SearchPage s "A" 1 10 = Some (results, total, pageOut, totalPages) ∧
    Forall (λ e, ∃ id, String.prefix "a" (nameOf s id) = true ∧ entryOf s id = Some e) results.
Proof.
  destruct fixture_search_store as (s & Hs & Hreach & Hok & Hff).
  destruct (SearchPage_returns s "A" 1 10 Hok)
    as (results & total & pageOut & totalPages & Hpage & _).
  { unfold maxCap. lia. }
  exists s, results, total, pageOut, totalPages. split; [exact Hs|]. split; [exact Hpage|].
  eapply Forall_impl.
  - apply (search_results_match_query s "a" 1 10 results total pageOut totalPages Hok Hff).
    + unfold maxCap. lia.
    + exact Hpage.
  - intros e (id & _ & Hp & He & _). exists id. split; [exact Hp|exact He].
Defined.
(** ** The number of pages *)

Lemma calcTotalPages_exact (total limit : Z) :
  1 ≤ total → 1 ≤ limit → total + limit ≤ 2 ^ 63 →
  calcTotalPages total limit = (total + limit - 1) `div` limit.
Proof.
  intros Ht Hl Hb. unfold calcTotalPages. rewrite decide_False by lia.
  assert (Hsum : int_sub (int_add total limit) 1 = total + limit - 1).
  { unfold int_sub, int_add, wrap64. Z.to_euclidean_division_equations. lia. }
  rewrite Hsum. unfold int_quot. rewrite Z.quot_div_nonneg by lia.
  apply wrap64_id.
  assert (0 ≤ (total + limit - 1) `div` limit ≤ total + limit - 1).
  { split; [apply Z.div_pos; lia|]. apply Z.div_le_upper_bound; [lia|]. nia. }
  lia.
Qed.

(** X20: [calcTotalPages] is the least number of pages of [limit] items
    that hold [total] items, as long as [total + limit] does not exceed
    [2^63]; it is 0 when there is nothing to page or the limit is not
    positive. *)
Theorem calcTotalPages_least_cover (total limit : Z) :
  (total ≤ 0 ∨ limit ≤ 0 → calcTotalPages total limit = 0) ∧
  (1 ≤ total → 1 ≤ limit → total + limit ≤ 2 ^ 63 →
     1 ≤ calcTotalPages total limit ∧
     total ≤ calcTotalPages total limit * limit ∧
     ∀ pages, total ≤ pages * limit → calcTotalPages total limit ≤ pages).
Proof.
  split.
  - intros Hz. unfold calcTotalPages. by rewrite decide_True.
  - intros Ht Hl Hb. rewrite calcTotalPages_exact by done.
    destruct (pages_cover total limit Ht Hl) as (H1 & Hlast & Hall).
    cbv zeta in H1, Hlast, Hall. split; [done|]. split; [done|].
    intros pages Hp. nia.
Qed.
(** ** The seed generator *)

Lemma Intn_Some (src : Z → Z) (pos n : Z) :
  1 ≤ n → Intn src pos n = Some (src pos `mod` n, pos + 1).
Proof. intros Hn. unfold Intn. by rewrite decide_False by lia. Qed.

Lemma plainName_app (a b : string) :
  plainName (a ++ b) = plainName a && plainName b.
Proof.
  induction a as [|c a IH]; [done|].
  change (plainName (String c a ++ b)) with (plainByte c && plainName (a ++ b)).
  rewrite IH. cbn [plainName]. by rewrite andb_assoc.
Qed.

Lemma plainByte_digit (d : Z) : 0 ≤ d < 10 → plainByte (digitChar d) = true.
Proof.
  intros Hd.
  assert (d = 0 ∨ d = 1 ∨ d = 2 ∨ d = 3 ∨ d = 4 ∨ d = 5 ∨ d = 6 ∨ d = 7 ∨ d = 8 ∨ d = 9)
    as Hcases by lia.
  repeat destruct Hcases as [->|Hcases]; try reflexivity. by subst d.
Qed.

Lemma fmtDigits_plain (fuel : nat) : ∀ (u : Z) (buf : string),
  0 ≤ u → plainName buf = true → plainName (fmtDigits fuel u buf) = true.
Proof.
  induction fuel as [|fuel IH]; intros u buf Hu Hbuf; [done|].
  cbn [fmtDigits]. case_decide as Hten.
  - apply IH; [apply Z.div_pos; lia|].
    cbn [plainName]. rewrite plainByte_digit, Hbuf; [done|].
    apply Z.mod_pos_bound. lia.
  - cbn [plainName]. rewrite plainByte_digit, Hbuf; [done|lia].
Qed.

Lemma zeros_plain (n : nat) (buf : string) :
  plainName buf = true → plainName (zeros n buf) = true.
Proof. intros Hbuf. induction n as [|n IH]; [done|]. cbn [zeros plainName]. by rewrite IH. Qed.

Lemma fmtInt_plain (width : nat) (u : Z) : 0 ≤ u → plainName (fmtInt width u) = true.
Proof. intros Hu. unfold fmtInt. by apply zeros_plain, fmtDigits_plain. Qed.

Lemma plainByte_lower (c : ascii) : plainByte c = true → lowerByte c = c ∧ c ≠ byteFF.
Proof.
  intros Hc. split.
  - unfold lowerByte, plainByte in *.
    destruct (N.leb_spec 65 (N_of_ascii c)), (N.leb_spec (N_of_ascii c) 90); try done.
    exfalso.
    destruct (N.leb_spec 97 (N_of_ascii c)), (N.leb_spec (N_of_ascii c) 122),
      (N.leb_spec 48 (N_of_ascii c)), (N.leb_spec (N_of_ascii c) 57),
      (N.eqb_spec (N_of_ascii c) 95); simpl in Hc; try done; lia.
  - intros ->. done.
Qed.

Lemma plain_lower (s : string) : plainName s = true → ToLower s = s.
Proof.
  induction s as [|c s IH]; [done|]. cbn [plainName ToLower].
  intros [Hc Hs]%andb_true_iff. rewrite IH by done.
  by destruct (plainByte_lower c Hc) as [-> _].
Qed.

Lemma plain_noFF (s : string) : plainName s = true → noFF s.
Proof.
  induction s as [|c s IH]; [done|]. cbn [plainName noFF].
  intros [Hc Hs]%andb_true_iff. split; [|by apply IH].
  by destruct (plainByte_lower c Hc).
Qed.

(** *** The closures *)

Lemma seenName_insert (st : GenState) (u name : string) :
  default false (<[u := true]> (gen_seen st) !! name) = true ↔
  name = u ∨ seenName st name = true.
Proof.
  unfold seenName. destruct (decide (name = u)) as [->|Hne].
  - rewrite lookup_insert_eq. simpl. tauto.
  - rewrite lookup_insert_ne by done. split; [tauto|]. by intros [?|?].
Qed.

Lemma GenOK_add (st : GenState) (u : string) (r pos : Z) :
  GenOK st → seenName st u = false → plainName u = true →
  minRating ≤ r ≤ maxRating →
  GenOK {| gen_seen := <[u := true]> (gen_seen st);
           gen_users := gen_users st ++ [{| Seed_Username := u; Seed_Rating := r |}];
           gen_pos := pos |}.
Proof.
  intros [Hseen Hnodup Hratings Hplain] Hfresh Hu Hr.
  assert (Hnew : u ∉ Seed_Username <$> gen_users st).
  { intros Hin. apply Hseen in Hin. congruence. }
  split; cbn [gen_seen gen_users gen_pos].
  - intros name. unfold seenName at 1. cbn [gen_seen].
    rewrite seenName_insert, fmap_app, elem_of_app, Hseen.
    cbn. rewrite list_elem_of_singleton. tauto.
  - rewrite fmap_app. apply NoDup_app. split; [done|]. split.
    + intros x Hx Hx'. cbn in Hx'. apply list_elem_of_singleton in Hx'. by subst.
    + cbn. apply NoDup_singleton.
  - apply Forall_app. split; [done|]. by apply Forall_singleton.
  - apply Forall_app. split; [done|]. by apply Forall_singleton.
Qed.

Lemma GenOK_pos (st : GenState) (pos : Z) :
  GenOK st →
  GenOK {| gen_seen := gen_seen st; gen_users := gen_users st; gen_pos := pos |}.
Proof. intros [Hseen Hnodup Hratings Hplain]. by split. Qed.

Lemma addUser_seen (src : Z → Z) (st : GenState) (u : string) :
  seenName st u = true → addUser src st u = Some st.
Proof. intros Hu. unfold addUser. by rewrite Hu. Qed.

Lemma addUser_fresh (src : Z → Z) (st : GenState) (u : string) :
  GenOK st → seenName st u = false → plainName u = true →
  ∃ st', addUser src st u = Some st' ∧ GenOK st' ∧
         gen_users st' = gen_users st
           ++ [{| Seed_Username := u;
                  Seed_Rating := src (gen_pos st) `mod` 4901 + minRating |}] ∧
         gen_pos st' = gen_pos st + 1.
Proof.
  intros Hok Hfresh Hu. unfold addUser. rewrite Hfresh.
  rewrite Intn_Some by (unfold maxRating, minRating; lia). rewrite bind_Some. cbv beta iota.
  change (maxRating - minRating + 1) with 4901.
  pose proof (Z.mod_pos_bound (src (gen_pos st)) 4901).
  rewrite int_add_id by (unfold is_int, minRating; lia).
  eexists. split; [done|]. split; [|done].
  apply GenOK_add; try done. unfold minRating, maxRating. lia.
Qed.

Lemma addUserWithRating_fresh (st : GenState) (item : string * Z) :
  GenOK st → seenName st item.1 = false → plainName item.1 = true →
  ∃ st', addUserWithRating st item = Some st' ∧ GenOK st' ∧
         gen_users st' = gen_users st
           ++ [{| Seed_Username := item.1; Seed_Rating := clampRating item.2 |}] ∧
         gen_pos st' = gen_pos st.
Proof.
  intros Hok Hfresh Hu. unfold addUserWithRating. rewrite Hfresh.
  eexists. split; [done|]. split; [|done].
  apply GenOK_add; try done. apply clampRating_range.
Qed.

Lemma usernames_snoc (l : list SeedUser) (u : string) (r : Z) :
  Seed_Username <$> (l ++ [{| Seed_Username := u; Seed_Rating := r |}])
    = (Seed_Username <$> l) ++ [u].
Proof. by rewrite fmap_app. Qed.

(** A [for] loop over fresh names adds them all, in order. *)
Lemma forEach_fresh {A} (body : GenState → A → option GenState) (f : A → string)
    (step : Z) (l : list A) :
  (∀ st x, GenOK st → seenName st (f x) = false → plainName (f x) = true →
     ∃ st', body st x = Some st' ∧ GenOK st' ∧
            (∃ r, gen_users st' = gen_users st ++ [{| Seed_Username := f x; Seed_Rating := r |}]) ∧
            gen_pos st' = gen_pos st + step) →
  ∀ st, GenOK st →
    NoDup ((Seed_Username <$> gen_users st) ++ (f <$> l)) →
    Forall (λ x, plainName (f x) = true) l →
    ∃ st', forEach body st l = Some st' ∧ GenOK st' ∧
           Seed_Username <$> gen_users st' = (Seed_Username <$> gen_users st) ++ (f <$> l) ∧
           gen_users st `prefix_of` gen_users st' ∧
           gen_pos st' = gen_pos st + step * len l.
Proof.
  intros Hbody. induction l as [|x l IH]; intros st Hok Hnodup Hplain.
  - exists st. split; [done|]. split; [done|]. cbn. rewrite app_nil_r.
    split; [done|]. split; [done|]. unfold len. simpl. lia.
  - apply Forall_cons in Hplain as [Hx Hplain].
    assert (Hfresh : seenName st (f x) = false).
    { destruct (seenName st (f x)) eqn:Hseen; [|done]. exfalso.
      apply (gn_seen _ Hok) in Hseen. apply NoDup_app in Hnodup as (_ & Hdisj & _).
      apply (Hdisj _ Hseen). cbn. left. }
    destruct (Hbody st x Hok Hfresh Hx) as (st1 & H1 & Hok1 & [r Hu1] & Hp1).
    destruct (IH st1 Hok1) as (st' & H' & Hok' & Hu' & Hpre & Hp'); [|done|].
    { rewrite Hu1, usernames_snoc, <- app_assoc. exact Hnodup. }
    exists st'. cbn [forEach]. rewrite H1, bind_Some. split; [done|]. split; [done|].
    split; [rewrite Hu', Hu1, usernames_snoc, <- app_assoc; done|].
    split.
    + etrans; [|exact Hpre]. rewrite Hu1. by apply prefix_app_r.
    + rewrite Hp', Hp1. unfold len. cbn [length]. lia.
Qed.

(** *** The users added before the last loop *)

Lemma fixedNames_facts :
  NoDup fixedNames ∧ Forall (λ name, plainName name = true) fixedNames ∧
  length fixedNames = 206%nat.
Proof.
  split; [|split].
  - apply (bool_decide_unpack _). vm_compute. exact I.
  - apply (bool_decide_unpack _). vm_compute. exact I.
  - vm_compute. reflexivity.
Qed.

Lemma GenOK_empty : GenOK {| gen_seen := ∅; gen_users := []; gen_pos := 0 |}.
Proof.
  split; cbn.
  - intros name. unfold seenName. cbn. rewrite lookup_empty. cbn.
    split; [done|]. intros H. by apply elem_of_nil in H.
  - apply NoDup_nil_2.
  - done.
  - done.
Qed.

Lemma seenName_fresh (st : GenState) (u : string) :
  GenOK st → u ∉ Seed_Username <$> gen_users st → seenName st u = false.
Proof.
  intros Hok Hu. destruct (seenName st u) eqn:Hseen; [|done].
  exfalso. by apply Hu, (gn_seen _ Hok).
Qed.

Lemma fixedUsers_spec (src : Z → Z) :
  ∃ st, fixedUsers src = Some st ∧ GenOK st ∧
        Seed_Username <$> gen_users st = fixedNames ∧
        take 4 (gen_users st) =
          [ {| Seed_Username := "rahul"; Seed_Rating := 4600 |};
            {| Seed_Username := "rahul_burman"; Seed_Rating := 3900 |};
            {| Seed_Username := "rahul_mathur"; Seed_Rating := 3900 |};
            {| Seed_Username := "rahul_kumar"; Seed_Rating := 1234 |} ] ∧
        gen_pos st = 202.
Proof.
  destruct fixedNames_facts as (Hnodup & Hplain & _).
  unfold fixedUsers, specials. cbn [forEach].
  (* the four special users *)
  destruct (addUserWithRating_fresh _ ("rahul"%string, 4600) GenOK_empty)
    as (st1 & -> & Hok1 & Hu1 & Hp1); [done|done|]. rewrite bind_Some.
  cbn [fst snd gen_users gen_pos app] in Hu1, Hp1.
  destruct (addUserWithRating_fresh st1 ("rahul_burman"%string, 3900) Hok1)
    as (st2 & -> & Hok2 & Hu2 & Hp2); [|done|].
  { apply seenName_fresh; [done|]. rewrite Hu1. cbn. by intros ?%list_elem_of_singleton. }
  rewrite bind_Some. rewrite Hu1 in Hu2. cbn [fst snd app] in Hu2.
  destruct (addUserWithRating_fresh st2 ("rahul_mathur"%string, 3900) Hok2)
    as (st3 & -> & Hok3 & Hu3 & Hp3); [|done|].
  { apply seenName_fresh; [done|]. rewrite Hu2. cbn.
    intros H. repeat (apply elem_of_cons in H as [H|H]; [done|]). by apply elem_of_nil in H. }
  rewrite bind_Some. rewrite Hu2 in Hu3. cbn [fst snd app] in Hu3.
  destruct (addUserWithRating_fresh st3 ("rahul_kumar"%string, 1234) Hok3)
    as (st4 & -> & Hok4 & Hu4 & Hp4); [|done|].
  { apply seenName_fresh; [done|]. rewrite Hu3. cbn.
    intros H. repeat (apply elem_of_cons in H as [H|H]; [done|]). by apply elem_of_nil in H. }
  rewrite !bind_Some. rewrite Hu3 in Hu4. cbn [fst snd app] in Hu4.
  change (clampRating 4600) with 4600 in Hu4. change (clampRating 3900) with 3900 in Hu4.
  change (clampRating 1234) with 1234 in Hu4.
  (* rahul_jain and rahul_sen *)
  destruct (addUser_fresh src st4 "rahul_jain" Hok4) as (st5 & -> & Hok5 & Hu5 & Hp5); [|done|].
  { apply seenName_fresh; [done|]. rewrite Hu4. cbn.
    intros H. repeat (apply elem_of_cons in H as [H|H]; [done|]). by apply elem_of_nil in H. }
  rewrite bind_Some. rewrite Hu4 in Hu5. cbn [app] in Hu5.
  destruct (addUser_fresh src st5 "rahul_sen" Hok5) as (st6 & -> & Hok6 & Hu6 & Hp6); [|done|].
  { apply seenName_fresh; [done|]. rewrite Hu5. cbn.
    intros H. repeat (apply elem_of_cons in H as [H|H]; [done|]). by apply elem_of_nil in H. }
  rewrite bind_Some. rewrite Hu5 in Hu6. cbn [app] in Hu6.
  (* rahul_001 to rahul_200 *)
  destruct (forEach_fresh (λ st i, addUser src st ("rahul_" ++ fmtInt 3 i)%string)
              (λ i, ("rahul_" ++ fmtInt 3 i)%string) 1 (seqZ 1 200)) with (st := st6)
    as (st & Hst & Hok & Hu & Hpre & Hp).
  - intros st x Hst Hfresh Hx.
    destruct (addUser_fresh src st _ Hst Hfresh Hx) as (st' & H' & Hok' & Hu' & Hp').
    exists st'. split; [done|]. split; [done|]. split; [by eexists|done].
  - done.
  - rewrite Hu6. exact Hnodup.
  - apply Forall_forall. intros i Hi. apply elem_of_seqZ in Hi.
    rewrite plainName_app, fmtInt_plain by lia. done.
  - exists st. split; [done|]. split; [done|].
    split; [rewrite Hu, Hu6; reflexivity|].
    split.
    + destruct Hpre as [rest ->]. rewrite Hu6. reflexivity.
    + rewrite Hp, Hp6, Hp5, Hp4, Hp3, Hp2, Hp1. unfold len. rewrite length_seqZ. lia.
Qed.

(** *** The last loop *)

Lemma tables_plain :
  Forall (λ name, plainName name = true) names ∧
  Forall (λ noun, plainName noun = true) nouns.
Proof. split; apply (bool_decide_unpack _); vm_compute; exact I. Qed.

Lemma table_at (table : list string) (i : Z) :
  0 ≤ i < len table →
  at_ table i = Some (default EmptyString (table !! Z.to_nat i)) ∧
  default EmptyString (table !! Z.to_nat i) ∈ table.
Proof.
  intros Hi. destruct (at_is_Some table i Hi) as [x Hx].
  pose proof Hx as Hx'. apply at_Some in Hx' as [_ Hx']. rewrite Hx'. cbn.
  split; [done|]. by eapply list_elem_of_lookup_2.
Qed.

Lemma addUser_total (src : Z → Z) (st : GenState) (u : string) : is_Some (addUser src st u).
Proof.
  unfold addUser. destruct (seenName st u); [by eexists|].
  rewrite Intn_Some by (unfold maxRating, minRating; lia). by eexists.
Qed.

Lemma drawUser_addUser (src : Z → Z) (st : GenState) :
  drawUser src st
    = addUser src {| gen_seen := gen_seen st; gen_users := gen_users st;
                     gen_pos := gen_pos st + 1 + 1 + 1 |}
              (drawnName src (gen_pos st)) ∧
  drawnName src (gen_pos st) ∈ drawableNames ∧
  plainName (drawnName src (gen_pos st)) = true.
Proof.
  pose proof (Z.mod_pos_bound (src (gen_pos st)) 20) as Hi.
  pose proof (Z.mod_pos_bound (src (gen_pos st + 1)) 10) as Hj.
  pose proof (Z.mod_pos_bound (src (gen_pos st + 1 + 1)) 9999) as Hk.
  destruct (table_at names (src (gen_pos st) `mod` 20)) as [Hname Hname_in];
    [change (len names) with 20; lia|].
  destruct (table_at nouns (src (gen_pos st + 1) `mod` 10)) as [Hnoun Hnoun_in];
    [change (len nouns) with 10; lia|].
  destruct tables_plain as [Hnames Hnouns]. rewrite Forall_forall in Hnames, Hnouns.
  unfold drawnName. replace (gen_pos st + 2) with (gen_pos st + 1 + 1) by lia.
  split; [|split].
  - unfold drawUser. change (len names) with 20. change (len nouns) with 10.
    rewrite Intn_Some by lia. rewrite bind_Some. cbv beta iota. rewrite Hname, bind_Some.
    rewrite Intn_Some by lia. rewrite bind_Some. cbv beta iota. rewrite Hnoun, bind_Some.
    rewrite Intn_Some by lia. rewrite bind_Some. cbv beta iota zeta. reflexivity.
  - unfold drawableNames. apply list_elem_of_bind. eexists. split; [|exact Hname_in].
    apply list_elem_of_bind. eexists. split; [|exact Hnoun_in].
    apply list_elem_of_fmap. eexists. split; [reflexivity|]. apply elem_of_seqZ. lia.
  - rewrite !plainName_app, (Hnames _ Hname_in), (Hnouns _ Hnoun_in), fmtInt_plain by lia.
    reflexivity.
Qed.

Lemma drawUser_total (src : Z → Z) (st : GenState) : is_Some (drawUser src st).
Proof. destruct (drawUser_addUser src st) as [-> _]. apply addUser_total. Qed.

Lemma drawUser_spec (src : Z → Z) (st : GenState) :
  GenOK st →
  ∃ st', drawUser src st = Some st' ∧ GenOK st' ∧
    ((seenName st (drawnName src (gen_pos st)) = true ∧ gen_users st' = gen_users st) ∨
     (seenName st (drawnName src (gen_pos st)) = false ∧
      (∃ r, gen_users st' = gen_users st
              ++ [{| Seed_Username := drawnName src (gen_pos st); Seed_Rating := r |}]) ∧
      gen_pos st' = gen_pos st + 4)).
Proof.
  intros Hok. destruct (drawUser_addUser src st) as (-> & _ & Hplain).
  set (u := drawnName src (gen_pos st)) in *.
  pose proof (GenOK_pos st (gen_pos st + 1 + 1 + 1) Hok) as Hok3.
  destruct (seenName st u) eqn:Hseen.
  - eexists. split; [by apply addUser_seen|]. split; [done|]. by left.
  - destruct (addUser_fresh src _ u Hok3 Hseen Hplain) as (st' & -> & Hok' & Hu' & Hp').
    exists st'. split; [done|]. split; [done|]. right.
    split; [done|]. split; [by eexists|]. cbn in Hp'. lia.
Qed.

Lemma fillUsers_eq (src : Z → Z) (fuel : nat) (target : Z) (st : GenState) :
  fillUsers src fuel target st =
    if decide (len (gen_users st) < target) then
      match fuel with
      | O => None
      | S fuel' => st' ← drawUser src st; fillUsers src fuel' target st'
      end
    else Some st.
Proof. by destruct fuel. Qed.

(** The names a run of the generator can hold. *)
Lemma fillUsers_inv (src : Z → Z) (target : Z) (fuel : nat) : ∀ (st st' : GenState),
  GenOK st →
  Forall (λ u, Seed_Username u ∈ fixedNames ++ drawableNames) (gen_users st) →
  fillUsers src fuel target st = Some st' →
  GenOK st' ∧
  Forall (λ u, Seed_Username u ∈ fixedNames ++ drawableNames) (gen_users st') ∧
  gen_users st `prefix_of` gen_users st' ∧
  (len (gen_users st) ≤ target → len (gen_users st') = target).
Proof.
  induction fuel as [|fuel IH]; intros st st' Hok Hcand Hfill;
    rewrite fillUsers_eq in Hfill; case_decide as Hlt; try done.
  - injection Hfill as <-. split; [done|]. split; [done|]. split; [done|]. lia.
  - destruct (drawUser_spec src st Hok) as (st1 & H1 & Hok1 & Hcase).
    destruct (drawUser_addUser src st) as (_ & Hin & _).
    rewrite H1, bind_Some in Hfill.
    assert (Hcand1 : Forall (λ u, Seed_Username u ∈ fixedNames ++ drawableNames) (gen_users st1)).
    { destruct Hcase as [[_ ->]|(_ & [r ->] & _)]; [exact Hcand|].
      apply Forall_app. split; [exact Hcand|]. apply Forall_singleton. cbn [Seed_Username].
      apply elem_of_app. right. exact Hin. }
    destruct (IH st1 st' Hok1 Hcand1 Hfill) as (Hok' & Hcand' & Hpre & Hlen).
    split; [done|]. split; [done|]. split.
    + etrans; [|exact Hpre].
      destruct Hcase as [[_ ->]|(_ & [r ->] & _)]; [done|]. by apply prefix_app_r.
    + intros _. apply Hlen.
      destruct Hcase as [[_ ->]|(_ & [r ->] & _)]; [lia|].
      rewrite len_app. unfold len in *. simpl. lia.
  - injection Hfill as <-. split; [done|]. split; [done|]. split; [done|]. lia.
Qed.

Lemma draws_cons (h : Z → string) (k : nat) :
  h <$> seqZ 0 (Z.of_nat (S k)) = h 0 :: ((λ j, h (1 + j)) <$> seqZ 0 (Z.of_nat k)).
Proof.
  rewrite seqZ_cons by lia. rewrite fmap_cons. f_equal.
  replace (Z.pred (Z.of_nat (S k))) with (Z.of_nat k) by lia.
  change (Z.succ 0) with (1 + 0). rewrite <- fmap_add_seqZ, <- list_fmap_compose. done.
Qed.

(** The last loop ends when the source brings new names: [k] rounds that
    draw [k] names not seen before add [k] users. *)
Lemma fillUsers_fresh (src : Z → Z) (k : nat) : ∀ (st : GenState) (fuel : nat) (target : Z),
  GenOK st → target = len (gen_users st) + Z.of_nat k → (k ≤ fuel)%nat →
  NoDup ((Seed_Username <$> gen_users st)
         ++ ((λ j, drawnName src (gen_pos st + 4 * j)) <$> seqZ 0 (Z.of_nat k))) →
  ∃ st', fillUsers src fuel target st = Some st' ∧
         Seed_Username <$> gen_users st'
           = (Seed_Username <$> gen_users st)
             ++ ((λ j, drawnName src (gen_pos st + 4 * j)) <$> seqZ 0 (Z.of_nat k)).
Proof.
  induction k as [|k IH]; intros st fuel target Hok Htarget Hfuel Hnodup;
    rewrite fillUsers_eq.
  - rewrite decide_False by lia. exists st. split; [done|]. cbn. by rewrite app_nil_r.
  - rewrite decide_True by lia. destruct fuel as [|fuel]; [lia|].
    rewrite (draws_cons (λ j, drawnName src (gen_pos st + 4 * j))) in Hnodup |- *.
    replace (gen_pos st + 4 * 0) with (gen_pos st) in * by lia.
    destruct (drawUser_spec src st Hok) as (st1 & H1 & Hok1 & Hcase).
    destruct Hcase as [[Hseen _]|(_ & [r Hu1] & Hp1)].
    { exfalso. apply (gn_seen _ Hok) in Hseen.
      apply NoDup_app in Hnodup as (_ & Hdisj & _). apply (Hdisj _ Hseen). left. }
    rewrite H1, bind_Some.
    assert (Hdraws : (λ j, drawnName src (gen_pos st + 4 * (1 + j))) <$> seqZ 0 (Z.of_nat k)
                   = (λ j, drawnName src (gen_pos st1 + 4 * j)) <$> seqZ 0 (Z.of_nat k)).
    { apply list_fmap_ext. intros i j _. f_equal. lia. }
    rewrite Hdraws in *.
    destruct (IH st1 fuel target Hok1) as (st' & H' & Hu'); [| lia |  | ].
    + rewrite Htarget, Hu1, len_app. unfold len. simpl. lia.
    + rewrite Hu1, usernames_snoc, <- app_assoc. exact Hnodup.
    + exists st'. split; [done|]. rewrite Hu', Hu1, usernames_snoc, <- app_assoc. done.
Qed.

(** *** What [generateUsers] returns *)

Lemma fixedUsers_candidates (st : GenState) :
  Seed_Username <$> gen_users st = fixedNames →
  Forall (λ u, Seed_Username u ∈ fixedNames ++ drawableNames) (gen_users st).
Proof.
  intros Hnames. apply Forall_forall. intros u Hu.
  apply elem_of_app. left. rewrite <- Hnames. apply list_elem_of_fmap. by exists u.
Qed.

Lemma generateUsers_run (src : Z → Z) (fuel : nat) (count : Z) (seeds : list SeedUser) :
  count < 2 ^ 62 → generateUsers src fuel count = Some seeds →
  ∃ st st', fixedUsers src = Some st ∧ GenOK st ∧
    Seed_Username <$> gen_users st = fixedNames ∧
    take 4 (gen_users st) =
      [ {| Seed_Username := "rahul"; Seed_Rating := 4600 |};
        {| Seed_Username := "rahul_burman"; Seed_Rating := 3900 |};
        {| Seed_Username := "rahul_mathur"; Seed_Rating := 3900 |};
        {| Seed_Username := "rahul_kumar"; Seed_Rating := 1234 |} ] ∧
    seeds = gen_users st' ∧ GenOK st' ∧
    Forall (λ u, Seed_Username u ∈ fixedNames ++ drawableNames) seeds ∧
    gen_users st `prefix_of` seeds ∧
    len seeds = Z.max count 10000 + 206.
Proof.
  intros Hcount Hgen. unfold generateUsers in Hgen. cbv zeta in Hgen.
  destruct (fixedUsers_spec src) as (st & Hst & Hok & Hnames & Hspecials & Hpos).
  rewrite Hst, bind_Some in Hgen.
  assert (Hlen : len (gen_users st) = 206).
  { destruct fixedNames_facts as (_ & _ & H206).
    unfold len. rewrite <- (length_fmap Seed_Username), Hnames, H206. done. }
  rewrite Hlen in Hgen.
  set (target := int_add (if decide (count < 10000) then 10000 else count) 206) in Hgen.
  assert (Htarget : target = Z.max count 10000 + 206).
  { unfold target. rewrite int_add_id by (unfold is_int; case_decide; lia). case_decide; lia. }
  destruct (fillUsers src fuel target st) as [st'|] eqn:Hfill; [|discriminate Hgen].
  rewrite bind_Some in Hgen. injection Hgen as <-.
  destruct (fillUsers_inv src target fuel st st' Hok (fixedUsers_candidates st Hnames) Hfill)
    as (Hok' & Hcand & Hpre & Hfull).
  exists st, st'. split; [exact Hst|]. split; [exact Hok|]. split; [exact Hnames|].
  split; [exact Hspecials|]. split; [reflexivity|]. split; [exact Hok'|].
  split; [exact Hcand|]. split; [exact Hpre|].
  rewrite Hfull; [exact Htarget|]. rewrite Hlen, Htarget. lia.
Qed.

(** X21: whatever the source draws, the seeds [generateUsers] returns
    have distinct names made of lower-case letters, digits and
    underscores, ratings within [[100, 5000]], and are
    [max(count, 10000) + 206] in number.  The first 206 are the fixed
    ones, in the order of the code, led by the four special users with
    their ratings. *)
Theorem generateUsers_seeds (src : Z → Z) (fuel : nat) (count : Z) (seeds : list SeedUser) :
  count < 2 ^ 62 → generateUsers src fuel count = Some seeds →
  len seeds = Z.max count 10000 + 206 ∧
  NoDup (Seed_Username <$> seeds) ∧
  Forall (λ u, minRating ≤ Seed_Rating u ≤ maxRating ∧
               plainName (Seed_Username u) = true) seeds ∧
  take 206 (Seed_Username <$> seeds) = fixedNames ∧
  take 4 seeds =
    [ {| Seed_Username := "rahul"; Seed_Rating := 4600 |};
      {| Seed_Username := "rahul_burman"; Seed_Rating := 3900 |};
      {| Seed_Username := "rahul_mathur"; Seed_Rating := 3900 |};
      {| Seed_Username := "rahul_kumar"; Seed_Rating := 1234 |} ].
Proof.
  intros Hcount Hgen.
  destruct (generateUsers_run src fuel count seeds Hcount Hgen)
    as (st & st' & _ & _ & Hnames & Hspecials & -> & Hok' & _ & [rest Hrest] & Hlen).
  destruct fixedNames_facts as (_ & _ & H206).
  split; [done|]. split; [apply (gn_nodup _ Hok')|]. split.
  - pose proof (gn_ratings _ Hok') as Hr. pose proof (gn_plain _ Hok') as Hp.
    rewrite Forall_forall in Hr, Hp. apply Forall_forall. intros u Hu. split; auto.
  - rewrite Hrest. split.
    + rewrite fmap_app, Hnames, <- H206. apply take_app_length.
    + rewrite take_app_le; [done|].
      rewrite <- (length_fmap Seed_Username), Hnames, H206. lia.
Qed.

Lemma len_bind_const {A B} (f : A → list B) (l : list A) (n : Z) :
  (∀ x, x ∈ l → len (f x) = n) → len (l ≫= f) = len l * n.
Proof.
  induction l as [|x l IH]; intros Hf; [unfold len; simpl; lia|].
  rewrite bind_cons, len_app, IH, Hf; [unfold len; cbn [length]; lia|left|].
  intros y Hy. apply Hf. by right.
Qed.

Lemma drawableNames_len : len drawableNames = 1999800.
Proof.
  unfold drawableNames.
  rewrite (len_bind_const _ names (10 * 9999)); [reflexivity|].
  intros name _. rewrite (len_bind_const _ nouns 9999); [reflexivity|].
  intros noun _. unfold len. rewrite length_fmap, length_seqZ. lia.
Qed.



Lemma generateUsers_fresh_draws (src : Z → Z) (count : Z) :
  count < 2 ^ 62 →
  NoDup (fixedNames
         ++ ((λ j, drawnName src (202 + 4 * j)) <$> seqZ 0 (Z.max count 10000))) →
  ∃ seeds,
    generateUsers src (Z.to_nat (Z.max count 10000)) count = Some seeds ∧
    Seed_Username <$> seeds
      = fixedNames ++ ((λ j, drawnName src (202 + 4 * j)) <$> seqZ 0 (Z.max count 10000)).
Proof.
  intros Hcount Hnodup. unfold generateUsers. cbv zeta.
  destruct (fixedUsers_spec src) as (st & Hst & Hok & Hnames & Hspecials & Hpos).
  rewrite Hst, bind_Some.
  assert (Hlen : len (gen_users st) = 206).
  { destruct fixedNames_facts as (_ & _ & H206).
    unfold len. rewrite <- (length_fmap Seed_Username), Hnames, H206. done. }
  set (k := Z.max count 10000) in *.
  assert (Hk : (if decide (count < 10000) then 10000 else count) = k)
    by (unfold k; case_decide; lia).
  rewrite Hk, Hlen, int_add_id by (unfold is_int; lia).
  destruct (fillUsers_fresh src (Z.to_nat k) st (Z.to_nat k) (k + 206) Hok)
    as (st' & Hfill & Hnames'); [lia|lia| |].
  - rewrite Hnames, Hpos, Z2Nat.id by lia. exact Hnodup.
  - rewrite Hfill, bind_Some. exists (gen_users st'). split; [done|].
    rewrite Hnames', Hnames, Hpos, Z2Nat.id by lia. done.
Qed.

(** *** A run that returns *)

Lemma digitValue_digit (d : Z) : 0 ≤ d < 10 → digitValue (digitChar d) = d.
Proof.
  intros Hd.
  assert (d = 0 ∨ d = 1 ∨ d = 2 ∨ d = 3 ∨ d = 4 ∨ d = 5 ∨ d = 6 ∨ d = 7 ∨ d = 8 ∨ d = 9)
    as Hcases by lia.
  repeat destruct Hcases as [->|Hcases]; try reflexivity. by subst d.
Qed.

Lemma decimalValue_cons (c : ascii) (s : string) :
  decimalValue (String c s)
    = digitValue c * 10 ^ Z.of_nat (String.length s) + decimalValue s.
Proof. reflexivity. Qed.

Lemma decimalValue_fmtDigits (fuel : nat) : ∀ (u : Z) (buf : string),
  0 ≤ u < 10 ^ Z.of_nat fuel →
  decimalValue (fmtDigits fuel u buf)
    = u * 10 ^ Z.of_nat (String.length buf) + decimalValue buf.
Proof.
  induction fuel as [|fuel IH]; intros u buf Hu.
  - cbn [fmtDigits]. change (10 ^ Z.of_nat 0) with 1 in Hu. replace u with 0 by lia. lia.
  - cbn [fmtDigits]. rewrite Nat2Z.inj_succ, Z.pow_succ_r in Hu by lia.
    case_decide as Hten.
    + rewrite IH.
      2:{ split; [apply Z.div_pos; lia|]. apply Z.div_lt_upper_bound; lia. }
      rewrite decimalValue_cons.
      rewrite digitValue_digit by (apply Z.mod_pos_bound; lia).
      cbn [String.length]. rewrite Nat2Z.inj_succ, Z.pow_succ_r by lia.
      pose proof (Z.div_mod u 10 ltac:(lia)) as Hdm.
      set (P := 10 ^ Z.of_nat (String.length buf)). nia.
    + rewrite decimalValue_cons, digitValue_digit by lia. done.
Qed.

Lemma decimalValue_zeros (n : nat) (buf : string) : decimalValue (zeros n buf) = decimalValue buf.
Proof.
  induction n as [|n IH]; [done|]. cbn [zeros]. rewrite decimalValue_cons, IH.
  change (digitValue "0") with 0. lia.
Qed.

(** The decimal digits [fmt] writes stand for the number formatted. *)
Lemma decimalValue_fmtInt (width : nat) (u : Z) :
  0 ≤ u < 10 ^ 20 → decimalValue (fmtInt width u) = u.
Proof.
  intros Hu. unfold fmtInt. rewrite decimalValue_zeros, decimalValue_fmtDigits by done.
  cbn [String.length decimalValue]. change (10 ^ Z.of_nat 0) with 1. lia.
Qed.

Lemma append_inj_r (p a b : string) : (p ++ a)%string = (p ++ b)%string → a = b.
Proof.
  induction p as [|c p IH]; [done|]. intros H.
  change (String c (p ++ a) = String c (p ++ b)) in H. injection H as H. by apply IH.
Qed.

Lemma prefix_append (p s : string) : String.prefix p (p ++ s) = true.
Proof.
  induction p as [|c p IH]; [by destruct s|].
  change (String.prefix (String c p) (String c (p ++ s)) = true).
  cbn [String.prefix]. by destruct (ascii_dec c c).
Qed.

Lemma sampleSource_draws (j : Z) :
  0 ≤ j < 10000 →
  drawnName sampleSource (202 + 4 * j) =
    if decide (j < 9999) then ("rahul_nova_" ++ fmtInt 4 j)%string
    else "rahul_atlas_0000"%string.
Proof.
  intros Hj. unfold drawnName.
  assert (H0 : sampleSource (202 + 4 * j) = 0).
  { unfold sampleSource. cbv zeta. repeat case_decide; try done; exfalso;
      Z.to_euclidean_division_equations; lia. }
  assert (H1 : sampleSource (202 + 4 * j + 1) = if decide (j < 9999) then 0 else 1).
  { unfold sampleSource. cbv zeta.
    rewrite (decide_False (P := 202 + 4 * j + 1 - 202 < 0)) by lia.
    rewrite (decide_True (P := (202 + 4 * j + 1 - 202) `mod` 4 = 1))
      by (Z.to_euclidean_division_equations; lia).
    case_decide; Z.to_euclidean_division_equations; lia. }
  assert (H2 : sampleSource (202 + 4 * j + 2) = if decide (j < 9999) then j else 0).
  { unfold sampleSource. cbv zeta.
    rewrite (decide_False (P := 202 + 4 * j + 2 - 202 < 0)) by lia.
    rewrite (decide_False (P := (202 + 4 * j + 2 - 202) `mod` 4 = 1))
      by (Z.to_euclidean_division_equations; lia).
    rewrite (decide_True (P := (202 + 4 * j + 2 - 202) `mod` 4 = 2))
      by (Z.to_euclidean_division_equations; lia).
    case_decide; Z.to_euclidean_division_equations; lia. }
  rewrite H0, H1, H2. case_decide.
  - rewrite (Z.mod_small j 9999) by lia. reflexivity.
  - reflexivity.
Qed.

Lemma fixedNames_apart :
  Forall (λ name, String.prefix "rahul_nova_" name = false ∧
                  name ≠ "rahul_atlas_0000"%string) fixedNames.
Proof. apply (bool_decide_unpack _). vm_compute. exact I. Qed.

Lemma sampleSource_fresh :
  NoDup (fixedNames
         ++ ((λ j, drawnName sampleSource (202 + 4 * j)) <$> seqZ 0 (Z.max 0 10000))).
Proof.
  change (Z.max 0 10000) with (9999 + 1).
  assert (Hdraws : (λ j, drawnName sampleSource (202 + 4 * j)) <$> seqZ 0 (9999 + 1)
                 = ((λ j, "rahul_nova_" ++ fmtInt 4 j)%string <$> seqZ 0 9999)
                   ++ ["rahul_atlas_0000"%string]).
  { rewrite seqZ_app, fmap_app by lia.
    assert (Hfirst : (λ j, drawnName sampleSource (202 + 4 * j)) <$> seqZ 0 9999
                   = (λ j, "rahul_nova_" ++ fmtInt 4 j)%string <$> seqZ 0 9999).
    { apply list_fmap_ext. intros i j Hj%lookup_seqZ.
      rewrite sampleSource_draws by lia. by rewrite decide_True by lia. }
    rewrite Hfirst. apply (f_equal (app _)).
    change (seqZ (0 + 9999) 1) with [9999]. cbn [fmap list_fmap].
    rewrite sampleSource_draws by lia. reflexivity. }
  rewrite Hdraws. clear Hdraws.
  destruct fixedNames_facts as (Hnodup & _ & _).
  pose proof fixedNames_apart as Hapart. rewrite Forall_forall in Hapart.
  apply NoDup_app. split; [done|]. split.
  - intros name Hfixed Hdrawn. destruct (Hapart name Hfixed) as [Hprefix Hne].
    apply elem_of_app in Hdrawn as [Hdrawn|Hdrawn].
    + apply list_elem_of_fmap in Hdrawn as (j & -> & _).
      by rewrite prefix_append in Hprefix.
    + by apply list_elem_of_singleton in Hdrawn.
  - apply NoDup_app. split; [|split].
    + apply NoDup_fmap_2_strong; [|apply NoDup_seqZ].
      intros x y Hx%elem_of_seqZ Hy%elem_of_seqZ Heq. apply append_inj_r in Heq.
      rewrite <- (decimalValue_fmtInt 4 x), <- (decimalValue_fmtInt 4 y), Heq by lia. done.
    + intros name (j & -> & _)%list_elem_of_fmap Hlast%list_elem_of_singleton.
      pose proof (prefix_append "rahul_nova_" (fmtInt 4 j)) as Hp.
      rewrite Hlast in Hp. done.
    + apply NoDup_singleton.
Qed.

(** X23: the last loop ends as soon as the source has brought enough new
    names: when the first [max(count, 10000)] rounds draw names that are
    new and distinct, [generateUsers] returns after these rounds, with
    the fixed users followed by the users drawn, in the order drawn. *)
Theorem generateUsers_returns (src : Z → Z) (count : Z) :
  count < 2 ^ 62 →
  NoDup (fixedNames
         ++ ((λ j, drawnName src (202 + 4 * j)) <$> seqZ 0 (Z.max count 10000))) →
  ∃ seeds,
    generateUsers src (Z.to_nat (Z.max count 10000)) count = Some seeds ∧
    Seed_Username <$> seeds
      = fixedNames ++ ((λ j, drawnName src (202 + 4 * j)) <$> seqZ 0 (Z.max count 10000)).
Proof. apply generateUsers_fresh_draws. Qed.

Lemma generateUsers_returns_witness :
  ∃ seeds, generateUsers sampleSource (Z.to_nat (Z.max 0 10000)) 0 = Some seeds ∧
    Seed_Username <$> seeds
      = fixedNames
        ++ ((λ j, drawnName sampleSource (202 + 4 * j)) <$> seqZ 0 (Z.max 0 10000)).
Proof.
  apply (generateUsers_returns sampleSource 0); [lia|exact sampleSource_fresh].
Defined.

Lemma generateUsers_sample :
  ∃ seeds, generateUsers sampleSource (Z.to_nat 10000) 0 = Some seeds.
Proof.
  destruct (generateUsers_fresh_draws sampleSource 0) as (seeds & Hgen & _);
    [lia|exact sampleSource_fresh|].
  exists seeds. exact Hgen.
Qed.

Lemma generateUsers_seeds_witness :
  ∃ seeds, generateUsers sampleSource (Z.to_nat 10000) 0 = Some seeds ∧
           len seeds = Z.max 0 10000 + 206 ∧ NoDup (Seed_Username <$> seeds).
Proof.
  destruct generateUsers_sample as (seeds & Hgen).
  destruct (generateUsers_seeds sampleSource (Z.to_nat 10000) 0 seeds) as (Hlen & Hnodup & _).
  - lia.
  - exact Hgen.
  - exists seeds. split; [exact Hgen|]. split; [exact Hlen|exact Hnodup].
Defined.
(** * Start-up and the running server *)

Lemma byRatingNameID_ext (s s' : Store) (l : list Z) :
  ratings s' = ratings s → usernameLower s' = usernameLower s →
  StronglySorted (byRatingNameID s) l → StronglySorted (byRatingNameID s') l.
Proof.
  intros Hr Hl. induction 1 as [|a l Hs IH Hall]; constructor; [exact IH|].
  eapply Forall_impl; [exact Hall|]. intros b Hab.
  unfold byRatingNameID, ratingOf, nameOf in *. rewrite Hr, Hl. exact Hab.
Qed.

Lemma generated_names (seeds : list SeedUser) :
  Forall (λ u, plainName (Seed_Username u) = true) seeds →
  (λ seed, ToLower (Seed_Username seed)) <$> seeds = Seed_Username <$> seeds.
Proof.
  induction 1 as [|u seeds Hu _ IH]; [reflexivity|].
  rewrite !fmap_cons, IH, (plain_lower _ Hu). reflexivity.
Qed.



Lemma searchHandler_answers (s : Store) (query : string) (page limit : Z) :
  StoreOK s → is_Some (searchHandler s query page limit).
Proof.
  intros Hok. unfold searchHandler. cbv zeta.
  set (L := if decide ((if decide (limit ≤ 0) then 20 else limit) > 200) then 200
            else if decide (limit ≤ 0) then 20 else limit).
  destruct (SearchPage_returns s query page L Hok) as (results & total & pageOut & tp & Hsp & _).
  { unfold L, maxCap. repeat case_decide; lia. }
  rewrite Hsp, bind_Some. eexists. reflexivity.
Qed.

Lemma step_Serving (updatesPerTick : Z) (src : Z → Z) (s0 : Store) (sv : Server) (e : Event) :
  1 ≤ totalUsers s0 → Serving s0 sv →
  ∃ sv', step updatesPerTick src sv e = Some sv' ∧ Serving s0 sv'.
Proof.
  intros HN (Hreach & HU & HL & HI & HT & Hpend).
  pose proof (reachable_ok _ Hreach) as Hsok.
  destruct e; unfold step.
  - destruct (sv_pending sv) as [|item rest] eqn:Hp.
    + pose proof Hsok as [_ Hix].
      destruct (randomBatch_items src (len (users (sv_store sv))) (Z.to_nat updatesPerTick))
        with (pos := sv_pos sv) as (batch & Hb & _ & Hall).
      { rewrite (ix_users_len _ Hix). lia. }
      rewrite Hb, bind_Some. eexists. split; [reflexivity|].
      unfold Serving. cbn [sv_store sv_pending sv_pos].
      split; [exact Hreach|]. split; [exact HU|]. split; [exact HL|]. split; [exact HI|].
      split; [exact HT|].
      eapply Forall_impl; [exact Hall|]. intros item [Hitem _].
      rewrite (ix_users_len _ Hix), HT in Hitem. exact Hitem.
    + apply Forall_cons in Hpend as [Hitem Hrest].
      destruct (applyDelta_step (sv_store sv) item.1 item.2 Hsok)
        as (s1 & H1 & _ & _ & _ & HU1 & HL1 & HI1 & _ & HT1).
      { rewrite HT. exact Hitem. }
      pose proof (applyItem_applyDelta (sv_store sv) false item) as E. rewrite H1 in E.
      destruct (applyItem (sv_store sv) false item) as [[s' c]|]; [|discriminate E].
      injection E as ->. rewrite bind_Some. eexists. split; [reflexivity|].
      unfold Serving. cbn [sv_store sv_pending sv_pos].
      split.
      { apply (applyBatch_reachable [item] (sv_store sv)); [exact Hreach|].
        destruct item as [id delta]. cbn [applyBatch]. cbn [fst snd] in H1.
        rewrite H1, bind_Some. reflexivity. }
      split; [congruence|]. split; [congruence|]. split; [congruence|].
      split; [congruence|exact Hrest].
  - destruct (refresh_total _ Hsok) as [s' Hs'].
    destruct (RefreshSnapshot_fields _ _ Hs') as (HU' & _ & HL' & HI' & _ & HT' & _).
    rewrite Hs', bind_Some. eexists. split; [reflexivity|].
    unfold Serving. cbn [sv_store sv_pending sv_pos].
    split; [exact (reach_refresh _ _ Hreach Hs')|].
    split; [congruence|]. split; [congruence|]. split; [congruence|].
    split; [congruence|exact Hpend].
Qed.

Lemma serve_Serving (updatesPerTick : Z) (src : Z → Z) (s0 : Store) (events : list Event) :
  1 ≤ totalUsers s0 → ∀ sv, Serving s0 sv →
  ∃ sv', serve updatesPerTick src sv events = Some sv' ∧ Serving s0 sv'.
Proof.
  intros HN. induction events as [|e events IH]; intros sv Hsv.
  - exists sv. split; [reflexivity|exact Hsv].
  - destruct (step_Serving updatesPerTick src s0 sv e HN Hsv) as (sv1 & H1 & Hsv1).
    destruct (IH sv1 Hsv1) as (sv' & H' & Hsv').
    exists sv'. split; [|exact Hsv'].
    cbn [serve]. rewrite H1, bind_Some. exact H'.
Qed.

(** Steps of the mutator that no refresh comes between are a firing of
    the ticker as [tick] has it: one step draws the batch, one step per
    item applies it. *)
Lemma serve_items (updatesPerTick : Z) (src : Z → Z) (pos : Z) (batch : list (Z * Z)) :
  ∀ (s : Store) (changed : bool),
  serve updatesPerTick src {| sv_store := s; sv_pending := batch; sv_pos := pos |}
        (replicate (length batch) MutatorStep)
  = (λ r : Store * bool, {| sv_store := r.1; sv_pending := []; sv_pos := pos |})
      <$> applyItems s changed batch.
Proof.
  induction batch as [|item rest IH]; intros s changed; [reflexivity|].
  cbn [length replicate serve step sv_pending sv_store sv_pos applyItems].
  pose proof (applyItem_applyDelta s false item) as E1.
  pose proof (applyItem_applyDelta s changed item) as E2.
  destruct (applyItem s false item) as [[s1 c1]|], (applyItem s changed item) as [[s2 c2]|];
    cbn in E1, E2; rewrite <- E1 in E2; try discriminate E2; [|reflexivity].
  injection E2 as ->. rewrite !bind_Some. apply IH.
Qed.

Lemma serve_tick (s : Store) (updatesPerTick : Z) (src : Z → Z) (pos : Z) :
  1 ≤ len (users s) →
  serve updatesPerTick src {| sv_store := s; sv_pending := []; sv_pos := pos |}
        (replicate (S (Z.to_nat updatesPerTick)) MutatorStep)
  = (λ r : Store * bool * Z, {| sv_store := r.1.1; sv_pending := []; sv_pos := r.2 |})
      <$> tick s updatesPerTick src pos.
Proof.
  intros Hn.
  destruct (randomBatch_items src (len (users s)) (Z.to_nat updatesPerTick) Hn pos)
    as (batch & Hb & Hlen & _).
  cbn [replicate serve step sv_pending sv_store sv_pos]. unfold tick.
  rewrite Hb, !bind_Some. cbv beta iota.
  rewrite <- Hlen, (serve_items _ _ _ batch s false).
  destruct (applyItems s false batch) as [[s' c]|]; reflexivity.
Qed.

(** X25: the running server.  From a store with at least one user, the
    steps of the mutator and of the publisher, in whatever order they
    come and whatever the source draws, run without a panic; the store
    they leave is one the program reaches, with the users, the lower-case
    names, the name index and the user count it started with, and both
    handlers answer every request on it.  The batch is one that can be
    allocated ([updatesPerTick <= 2^32]); with [updatesPerTick <= 0] the
    mutator has returned, and its steps here draw empty batches. *)
Theorem serve_never_panics (updatesPerTick : Z) (src : Z → Z) (pos : Z)
    (events : list Event) (s0 : Store) :
  reachable s0 → 1 ≤ totalUsers s0 → updatesPerTick ≤ 2 ^ 32 →
  ∃ sv,
    serve updatesPerTick src {| sv_store := s0; sv_pending := []; sv_pos := pos |} events
      = Some sv ∧
    reachable (sv_store sv) ∧
    users (sv_store sv) = users s0 ∧
    usernameLower (sv_store sv) = usernameLower s0 ∧
    usernameIndex (sv_store sv) = usernameIndex s0 ∧
    totalUsers (sv_store sv) = totalUsers s0 ∧
    (∀ page limit, is_Some (leaderboardHandler (sv_store sv) page limit)) ∧
    (∀ query page limit, is_Some (searchHandler (sv_store sv) query page limit)).
Proof.
  intros Hreach HN _.
  destruct (serve_Serving updatesPerTick src s0 events HN
              {| sv_store := s0; sv_pending := []; sv_pos := pos |})
    as (sv & Hsv & Hreach' & HU & HL & HI & HT & _).
  { unfold Serving. cbn [sv_store sv_pending sv_pos].
    split; [exact Hreach|]. repeat (split; [reflexivity|]). constructor. }
  exists sv. split; [exact Hsv|]. split; [exact Hreach'|]. split; [exact HU|].
  split; [exact HL|]. split; [exact HI|]. split; [exact HT|]. split.
  - intros page limit.
    destruct (leaderboardHandler_answers (sv_store sv) page limit Hreach') as (resp & Hresp & _).
    rewrite Hresp. eexists. reflexivity.
  - intros query page limit.
    exact (searchHandler_answers _ query page limit (reachable_ok _ Hreach')).
Qed.

Lemma serve_never_panics_witness :
  ∃ s sv, NewStore fixture = Some s ∧
    serve 2 (λ pos, 7 * pos) {| sv_store := s; sv_pending := []; sv_pos := 0 |}
          [MutatorStep; MutatorStep; SnapshotTick; MutatorStep; SnapshotTick] = Some sv ∧
    usernameLower (sv_store sv) = usernameLower s.
Proof.
  destruct fixture_store as (s & Hs & Hreach & _ & Ht).
  destruct (serve_never_panics 2 (λ pos, 7 * pos) 0
              [MutatorStep; MutatorStep; SnapshotTick; MutatorStep; SnapshotTick] s Hreach)
    as (sv & Hsv & _ & _ & HL & _).
  { rewrite Ht. lia. } { lia. }
  exists s, sv. split; [exact Hs|]. split; [exact Hsv|exact HL].
Defined.
